(** * wtf-wikipedia-ast-parser: scanner, parser, optimizer and link rendering

    A shallow embedding of [classes.js] (the node classes and their
    renderers) and of the parser module ([compile], [parse], [optimize]),
    followed by the properties of the specification that were checked
    against it.

    JavaScript strings are modelled by [string]; a character of the model
    stands for one code unit of the source string, below 256.  All the
    delimiters of the markup are ASCII, so the scanner never looks at
    anything else; the one function that looks at other units is
    [toUpperCase], on the first character of the target of a link. *)

From Stdlib Require Import String Ascii List Arith Bool Lia Sorted.
Import ListNotations.
Open Scope string_scope.
Open Scope list_scope.
Open Scope nat_scope.

Set Warnings "-register-all".

(* ================================================================== *)
(** * String primitives of the host language *)

(** [s.substr(start, len)] for non-negative arguments. *)
Definition substr (s : string) (start len : nat) : string :=
  substring start len s.

(** [s.substr(start)]: everything from [start] on. *)
Definition substr_from (s : string) (start : nat) : string :=
  substring start (String.length s - start) s.

(** [list.join('')]. *)
Definition join (l : list string) : string :=
  fold_right append "" l.

(** [s.replace(/ /g, '_')]. *)
Fixpoint replace_spaces (s : string) : string :=
  match s with
  | EmptyString => EmptyString
  | String c s' =>
      String (if Ascii.eqb c " "%char then "_"%char else c) (replace_spaces s')
  end.

(** [c.toUpperCase()] for one code unit [c] below 256, as the Unicode
    tables of the host have it: the letters [a]..[z] and the Latin-1
    letters from 224 to 254 (but not the division sign, 247) go to the
    unit 32 below, the sharp s (223) becomes the two units [SS], every
    other unit is kept.  Two units are upper-cased to units above 255,
    which the alphabet of the model does not have: the micro sign (181,
    to U+039C) and the y with diaeresis (255, to U+0178).
    [upper_in_model] leaves these two out; what is stated about the
    upper-cased first character of a target is stated for the units it
    accepts. *)
Definition upper_in_model (c : ascii) : bool :=
  let n := nat_of_ascii c in negb ((n =? 181) || (n =? 255)).

Definition upper_char (c : ascii) : string :=
  let n := nat_of_ascii c in
  if ((97 <=? n) && (n <=? 122))
     || ((224 <=? n) && (n <=? 254) && negb (n =? 247))
  then String (ascii_of_nat (n - 32)) ""
  else if n =? 223 then "SS"
  else String c "".

Fixpoint toUpperCase (s : string) : string :=
  match s with
  | EmptyString => EmptyString
  | String c s' => (upper_char c ++ toUpperCase s')%string
  end.

Definition is_lower (c : ascii) : bool :=
  let n := nat_of_ascii c in (97 <=? n) && (n <=? 122).

Definition is_hash (c : ascii) : bool := Ascii.eqb c "#"%char.

(** The string without its first [n] characters. *)
Fixpoint drop (n : nat) (s : string) : string :=
  match n, s with
  | O, _ => s
  | S n', String _ s' => drop n' s'
  | S _, EmptyString => EmptyString
  end.

(** A string is truthy when it is not empty. *)
Definition truthy (s : string) : bool :=
  match s with EmptyString => false | _ => true end.

(* ================================================================== *)
(** * classes.js: the node classes *)

Inductive Node : Type :=
| Text (text : string)
| Sentence (childs : list Node)
| Italic (childs : list Node)
| Bold (childs : list Node)
| Link (target : string) (childs : list Node).

(** [node instanceof NodeWithChilds] *)
Definition isNodeWithChilds (n : Node) : bool :=
  match n with Text _ => false | _ => true end.

Definition isText (n : Node) : bool :=
  match n with Text _ => true | _ => false end.
Definition isItalic (n : Node) : bool :=
  match n with Italic _ => true | _ => false end.
Definition isBold (n : Node) : bool :=
  match n with Bold _ => true | _ => false end.
Definition isLink (n : Node) : bool :=
  match n with Link _ _ => true | _ => false end.

(** [node.childs]; a [Text] has none. *)
Definition childs_of (n : Node) : list Node :=
  match n with
  | Text _ => []
  | Sentence cs | Italic cs | Bold cs | Link _ cs => cs
  end.

(** [ast.childs = cs]: the same node with a new child list. *)
Definition set_childs (n : Node) (cs : list Node) : Node :=
  match n with
  | Text s => Text s
  | Sentence _ => Sentence cs
  | Italic _ => Italic cs
  | Bold _ => Bold cs
  | Link target _ => Link target cs
  end.

(** [transform.call(this, f, join)]:
    [childs.reduce((out, child) => out + (out ? join : '') + f(child), '')] *)
Definition transform (f : Node -> string) (sep : string) (childs : list Node)
  : string :=
  fold_left
    (fun out child => (out ++ (if truthy out then sep else "") ++ f child)%string)
    childs "".

(** [toText()]: the literal of a [Text], the concatenated texts of the
    children of every other node. *)
Fixpoint toText (n : Node) : string :=
  match n with
  | Text text => text
  | Sentence childs => transform toText "" childs
  | Italic childs => transform toText "" childs
  | Bold childs => transform toText "" childs
  | Link _ childs => transform toText "" childs
  end.

(** Number of nodes of a tree. *)
Fixpoint size (n : Node) : nat :=
  match n with
  | Text _ => 1
  | Sentence cs | Italic cs | Bold cs | Link _ cs =>
      S (fold_right (fun c acc => size c + acc) 0 cs)
  end.

Definition sizes (l : list Node) : nat :=
  fold_right (fun c acc => size c + acc) 0 l.

(* ------------------------------------------------------------------ *)
(** ** Link: classification and the derived reference *)

(** Strip the longest prefix of characters satisfying [p]. *)
Fixpoint drop_while (p : ascii -> bool) (s : string) : string :=
  match s with
  | EmptyString => EmptyString
  | String c s' => if p c then drop_while p s' else s
  end.

(** [/^[a-z]+:\/\//.test(target)]: at least one lower-case letter, then
    the three characters [://]. *)
Definition isExternal_target (target : string) : bool :=
  match target with
  | EmptyString => false
  | String c s' =>
      is_lower c && prefix "://" (drop_while is_lower s')
  end.

Fixpoint has_hash (s : string) : bool :=
  match s with
  | EmptyString => false
  | String c s' => is_hash c || has_hash s'
  end.

(** [target.replace(/#[^#]*$/, '')]: the target without its last [#] and
    what follows it; unchanged when there is no [#]. *)
Fixpoint strip_last_hash (s : string) : string :=
  match s with
  | EmptyString => EmptyString
  | String c s' =>
      if is_hash c && negb (has_hash s') then EmptyString
      else String c (strip_last_hash s')
  end.

(** [target.replace(/^[^#]+/, '')]: the target from its first [#] on. *)
Definition from_first_hash (s : string) : string :=
  drop_while (fun c => negb (is_hash c)) s.

(** [internalLink.call(link)] *)
Definition internalLink (target : string) : string :=
  ("./" ++ toUpperCase (substr target 0 1)
        ++ replace_spaces (substr_from target 1))%string.

Definition isExternal (n : Node) : bool :=
  match n with Link target _ => isExternal_target target | _ => false end.

(** The getters [href], [site], [page], [anchor] of a link, as functions of
    its target; [None] is [undefined]. *)
Definition href_of (target : string) : string :=
  if isExternal_target target then target else internalLink target.

Definition site_of (target : string) : option string :=
  if isExternal_target target then Some target else None.

Definition page_of (target : string) : option string :=
  if isExternal_target target then None
  else
    let p := strip_last_hash target in
    if truthy p then Some p else None.

Definition anchor_of (target : string) : option string :=
  let tail := from_first_hash target in
  if truthy tail then Some (substr_from tail 1) else None.

Definition href (n : Node) : string :=
  match n with Link target _ => href_of target | _ => "" end.

Definition site (n : Node) : option string :=
  match n with Link target _ => site_of target | _ => None end.

Definition page (n : Node) : option string :=
  match n with Link target _ => page_of target | _ => None end.

Definition anchor (n : Node) : option string :=
  match n with Link target _ => anchor_of target | _ => None end.

(** The object built by [Link.toJSON]; a key whose value is [undefined] is
    deleted from it, which the model writes [None]. *)
Inductive LinkType : Type := external | internal.

Record LinkJSON : Type := mkLinkJSON {
  json_type   : LinkType;
  json_text   : string;
  json_site   : option string;
  json_page   : option string;
  json_anchor : option string
}.

Definition Link_toJSON (target : string) (childs : list Node) : LinkJSON :=
  let this := Link target childs in
  {| json_type   := if isExternal this then external else internal;
     json_text   := toText this;
     json_site   := site this;
     json_page   := page this;
     json_anchor := anchor this |}.

(* ================================================================== *)
(** * Lexical analysis: string => tokens *)

(** The values the [type] of a token takes: the word [text] for literal
    text, and for a delimiter the matched string itself, which is one of
    the eleven strings the regular expression [lexical] can match (they are
    listed by [lexeme] below). *)
Inductive TokenType : Type :=
| TText         (* text  *)
| TQuote5       (* ''''' *)
| TQuote4       (* ''''  *)
| TQuote3       (* '''   *)
| TQuote2       (* ''    *)
| TBoldOpen     (* <b>   *)
| TBoldClose    (* </b>  *)
| TItalicOpen   (* <i>   *)
| TItalicClose  (* </i>  *)
| TLinkOpen     (* [[    *)
| TLinkClose    (* ]]    *)
| TPipe.        (* |     *)

Definition TokenType_eqb (a b : TokenType) : bool :=
  match a, b with
  | TText, TText | TQuote5, TQuote5 | TQuote4, TQuote4 | TQuote3, TQuote3
  | TQuote2, TQuote2 | TBoldOpen, TBoldOpen | TBoldClose, TBoldClose
  | TItalicOpen, TItalicOpen | TItalicClose, TItalicClose
  | TLinkOpen, TLinkOpen | TLinkClose, TLinkClose | TPipe, TPipe => true
  | _, _ => false
  end.

Record Token : Type := mkToken {
  type : TokenType;
  text : string;
  pos  : nat
}.

(** The string matched for each delimiter. *)
Definition lexeme (k : TokenType) : string :=
  match k with
  | TText => ""
  | TQuote5 => "'''''"
  | TQuote4 => "''''"
  | TQuote3 => "'''"
  | TQuote2 => "''"
  | TBoldOpen => "<b>"
  | TBoldClose => "</b>"
  | TItalicOpen => "<i>"
  | TItalicClose => "</i>"
  | TLinkOpen => "[["
  | TLinkClose => "]]"
  | TPipe => "|"
  end.

(** The alternatives of the regular expression [lexical], in the order in
    which the matcher tries them at one position: the four quote runs from
    the longest to the shortest, the tags (with and without the optional
    slash), the link brackets and the pipe. *)
Definition lexical : list TokenType :=
  [TQuote5; TQuote4; TQuote3; TQuote2;
   TBoldClose; TItalicClose; TBoldOpen; TItalicOpen;
   TLinkOpen; TLinkClose; TPipe].

(** The first alternative that matches at the start of [s]. *)
Fixpoint match_alternatives (alts : list TokenType) (s : string)
  : option TokenType :=
  match alts with
  | [] => None
  | k :: alts' =>
      if prefix (lexeme k) s then Some k else match_alternatives alts' s
  end.

Definition match_here (s : string) : option TokenType :=
  match_alternatives lexical s.

(** Leftmost match in [s], where [s] is the input from [index] on. *)
Fixpoint find_match (s : string) (index : nat) : option (TokenType * nat) :=
  match match_here s with
  | Some k => Some (k, index)
  | None =>
      match s with
      | EmptyString => None
      | String _ s' => find_match s' (S index)
      end
  end.

(** [lexical.exec(input)] with the expression's [lastIndex]: the leftmost
    match starting at or after [lastIndex]. *)
Definition exec (input : string) (lastIndex : nat) : option (TokenType * nat) :=
  if String.length input <? lastIndex then None
  else find_match (substr_from input lastIndex) lastIndex.

(** [while ((match = lexical.exec(input)) != null) matches.push(...)].
    Each round moves [lastIndex] behind the match; [fuel] bounds the number
    of rounds. *)
Fixpoint exec_loop (fuel : nat) (input : string) (lastIndex : nat)
  : option (list Token) :=
  match fuel with
  | O => None
  | S fuel' =>
      match exec input lastIndex with
      | None => Some []
      | Some (k, index) =>
          match exec_loop fuel' input (index + String.length (lexeme k)) with
          | None => None
          | Some matches =>
              Some ({| type := k; text := lexeme k; pos := index |} :: matches)
          end
      end
  end.

(** The reducer of [compile]: literal text before the match, if any, then
    the match. *)
Definition compile_step (input : string) (acc : list Token * nat) (m : Token)
  : list Token * nat :=
  let (out, offset) := acc in
  let out :=
    if offset <? pos m
    then out ++ [{| type := TText;
                    text := substr input offset (pos m - offset);
                    pos := offset |}]
    else out in
  (out ++ [m], pos m + String.length (text m)).

Definition compile_fuel (fuel : nat) (input : string) : option (list Token) :=
  match exec_loop fuel input 0 with
  | None => None
  | Some matches =>
      let (tokens, offset) := fold_left (compile_step input) matches ([], 0) in
      Some (if offset <? String.length input
            then tokens ++ [{| type := TText;
                               text := substr_from input offset;
                               pos := offset |}]
            else tokens)
  end.

(** A match is never empty, so the loop runs at most once per character
    and once more to see the end. *)
Definition compile (input : string) : option (list Token) :=
  compile_fuel (S (String.length input)) input.

(* ================================================================== *)
(** * Syntax analysis: tokens => AST *)

(** The parser reads the token array through the index [i] ([peek],
    [consume]).  The model passes the tokens not yet consumed,
    [tokens.slice(i)], and every function returns what is left of them.
    The recursion of the source is bounded by [fuel]; [None] means that
    the fuel ran out, never that the source failed. *)

(** The entries of the dispatch table [parsers]. *)
Inductive Parser : Type :=
| parser_text
| parser_link
| parser_until (close : TokenType) (wrap : list Node -> list Node).

Definition parsers (key : TokenType) : option Parser :=
  match key with
  | TText       => Some parser_text
  | TLinkOpen   => Some parser_link
  | TBoldOpen   => Some (parser_until TBoldClose (fun childs => [Bold childs]))
  | TQuote3     => Some (parser_until TQuote3 (fun childs => [Bold childs]))
  | TQuote4     => Some (parser_until TQuote4
                     (fun childs => [Bold ([Text "'"] ++ childs ++ [Text "'"])]))
  | TQuote5     => Some (parser_until TQuote5
                     (fun childs => [Italic [Bold childs]]))
  | TItalicOpen => Some (parser_until TItalicClose (fun childs => [Italic childs]))
  | TQuote2     => Some (parser_until TQuote2 (fun childs => [Italic childs]))
  | TBoldClose | TItalicClose | TLinkClose | TPipe => None
  end.

(** [parsers[token.type] || parsers.text] *)
Definition parser_for (token : Token) : Parser :=
  match parsers (type token) with
  | Some p => p
  | None => parser_text
  end.

(** What the link parser returns once its loop has ended. *)
Definition link_result (pipe : bool) (pre post : list Node) : list Node :=
  (* link without text *)
  if pipe && (List.length post =? 0) then []
  else
    (* no text for link *)
    let post := if negb pipe then pre else post in
    (* no link *)
    if List.length pre =? 0 then post
    else
      (* link & text *)
      let link := join (map toText pre) in
      [Link link post].

(** [childs.length ? then(childs) : []] *)
Definition until_result (wrap : list Node -> list Node) (childs : list Node)
  : list Node :=
  if List.length childs =? 0 then [] else wrap childs.

Fixpoint parseToken (fuel : nat) (token : Token) (tokens : list Token)
  {struct fuel} : option (list Node * list Token) :=
  match fuel with
  | O => None
  | S fuel' =>
      match parser_for token with
      | parser_text => Some ([Text (text token)], tokens)
      | parser_link =>
          match link_loop fuel' false [] [] tokens with
          | None => None
          | Some (pipe, pre, post, rest) => Some (link_result pipe pre post, rest)
          end
      | parser_until close wrap =>
          match until_loop fuel' close [] tokens with
          | None => None
          | Some (childs, rest) => Some (until_result wrap childs, rest)
          end
      end
  end

(** The loop of [until(end, then)]. *)
with until_loop (fuel : nat) (close : TokenType) (childs : list Node)
       (tokens : list Token) {struct fuel} : option (list Node * list Token) :=
  match fuel with
  | O => None
  | S fuel' =>
      match tokens with
      | [] => Some (childs, [])
      | x :: rest =>
          if TokenType_eqb (type x) close then Some (childs, rest)
          else
            match parseToken fuel' x rest with
            | None => None
            | Some (parsed, rest') =>
                until_loop fuel' close (childs ++ parsed) rest'
            end
      end
  end

(** The loop of the link parser. *)
with link_loop (fuel : nat) (pipe : bool) (pre post : list Node)
       (tokens : list Token) {struct fuel}
  : option (bool * list Node * list Node * list Token) :=
  match fuel with
  | O => None
  | S fuel' =>
      match tokens with
      | [] => Some (pipe, pre, post, [])
      | x :: rest =>
          if TokenType_eqb (type x) TPipe then link_loop fuel' true pre post rest
          else if TokenType_eqb (type x) TLinkClose then Some (pipe, pre, post, rest)
          else
            match parseToken fuel' x rest with
            | None => None
            | Some (parsed, rest') =>
                if pipe then link_loop fuel' pipe pre (post ++ parsed) rest'
                else link_loop fuel' pipe (pre ++ parsed) post rest'
            end
      end
  end.

(** The loop at the end of [parse]. *)
Fixpoint parse_loop (fuel : nat) (out : list Node) (tokens : list Token)
  : option (list Node) :=
  match fuel with
  | O => None
  | S fuel' =>
      match tokens with
      | [] => Some out
      | x :: rest =>
          match parseToken fuel' x rest with
          | None => None
          | Some (parsed, rest') => parse_loop fuel' (out ++ parsed) rest'
          end
      end
  end.

Definition parse_fuel (fuel : nat) (tokens : list Token) : option Node :=
  match parse_loop fuel [] tokens with
  | None => None
  | Some out => Some (Sentence out)
  end.

(** Every call consumes a token or ends a loop, so two units of fuel per
    token are enough. *)
Definition parse (tokens : list Token) : option Node :=
  parse_fuel (2 * List.length tokens + 2) tokens.

(* ================================================================== *)
(** * Optimizer: remove tags inside tags and combine following texts *)

(** [optimize] assigns the new child list to [ast.childs] and returns
    [ast] itself.  In a tree no node has two parents, and a node that is
    replaced (a flattened tag, the two halves of a merge) is dropped from
    the tree, so the tree after a call is a function of the tree before
    it: that function is the model.  Running the optimizer twice is
    applying the function twice. *)

Record Conf : Type := mkConf {
  combineTexts   : bool;
  combineItalics : bool;
  combineBolds   : bool;
  nestedLinks    : bool;
  nestedItalics  : bool;
  nestedBolds    : bool
}.

Definition optimize_conf : Conf :=
  {| combineTexts := true; combineItalics := true; combineBolds := true;
     nestedLinks := true; nestedItalics := true; nestedBolds := true |}.

(** The context object; a missing key reads as [false]. *)
Record Context : Type := mkContext {
  ctx_link   : bool;
  ctx_italic : bool;
  ctx_bold   : bool
}.

Definition empty_context : Context :=
  {| ctx_link := false; ctx_italic := false; ctx_bold := false |}.

(** The classes handed to [_optimize_combine]. *)
Inductive Class : Type := CText | CItalic | CBold.

Definition instanceof (n : Node) (classy : Class) : bool :=
  match classy with
  | CText => isText n
  | CItalic => isItalic n
  | CBold => isBold n
  end.

(** The three [combine] callbacks; each one is only called on two nodes of
    its class. *)
Definition combine (classy : Class) (a b : Node) : Node :=
  match classy, a, b with
  | CText, Text x, Text y => Text (x ++ y)
  | CItalic, Italic xs, Italic ys => Italic (xs ++ ys)
  | CBold, Bold xs, Bold ys => Bold (xs ++ ys)
  | _, _, _ => a
  end.

Definition skip_class (conf : Conf) (classy : Class) : bool :=
  match classy with
  | CText => negb (combineTexts conf)
  | CItalic => negb (combineItalics conf)
  | CBold => negb (combineBolds conf)
  end.

(** [out[out.length - 1]] *)
Definition last_node (out : list Node) : option Node :=
  match rev out with
  | [] => None
  | n :: _ => Some n
  end.

(** [_optimize_combine(conf, ctx, classy, combine)(out, node)], with the
    recursive call to [optimize] on the combined node passed as [opt]. *)
Definition _optimize_combine (opt : Node -> option Node) (conf : Conf)
    (classy : Class) (out : list Node) (node : Node) : option (list Node) :=
  if skip_class conf classy then Some (out ++ [node])
  else
    match last_node out with
    | Some last =>
        if instanceof last classy && instanceof node classy
        then
          match opt (combine classy last node) with
          | None => None
          | Some merged => Some (removelast out ++ [merged])
          end
        else Some (out ++ [node])
    | None => Some (out ++ [node])
    end.

(** [list.reduce(f, init)] for a reducer that may run out of fuel. *)
Fixpoint reduce (f : list Node -> Node -> option (list Node))
    (l : list Node) (init : list Node) : option (list Node) :=
  match l with
  | [] => Some init
  | n :: l' =>
      match f init n with
      | None => None
      | Some out => reduce f l' out
      end
  end.

(** [list.map(f)], likewise. *)
Fixpoint map_nodes (f : Node -> option Node) (l : list Node)
  : option (list Node) :=
  match l with
  | [] => Some []
  | n :: l' =>
      match f n with
      | None => None
      | Some n' =>
          match map_nodes f l' with
          | None => None
          | Some out => Some (n' :: out)
          end
      end
  end.

(** The context after entering [ast]. *)
Definition enter (conf : Conf) (context : Context) (ast : Node) : Context :=
  {| ctx_link   := if nestedLinks conf && isLink ast then true
                   else ctx_link context;
     ctx_italic := if nestedItalics conf && isItalic ast then true
                   else ctx_italic context;
     ctx_bold   := if nestedBolds conf && isBold ast then true
                   else ctx_bold context |}.

(** The test of the first reducer: a tag of a kind we are already in. *)
Definition nested (ctx : Context) (node : Node) : bool :=
  (ctx_link ctx && isLink node)
  || (ctx_italic ctx && isItalic node)
  || (ctx_bold ctx && isBold node).

(** remove tags inside tags *)
Definition flatten (ctx : Context) (childs : list Node) : list Node :=
  fold_left
    (fun out node =>
       if nested ctx node then out ++ childs_of node else out ++ [node])
    childs [].

Fixpoint optimize (fuel : nat) (conf : Conf) (context : Context) (ast : Node)
  {struct fuel} : option Node :=
  (* no children *)
  if negb (isNodeWithChilds ast) then Some ast
  else
    match fuel with
    | O => None
    | S fuel' =>
        (* modify context *)
        let ctx := enter conf context ast in
        let opt := optimize fuel' conf ctx in
        match map_nodes opt (flatten ctx (childs_of ast)) with
        | None => None
        | Some childs =>
            match reduce (_optimize_combine opt conf CText) childs [] with
            | None => None
            | Some childs =>
                match reduce (_optimize_combine opt conf CItalic) childs [] with
                | None => None
                | Some childs =>
                    match reduce (_optimize_combine opt conf CBold) childs [] with
                    | None => None
                    | Some childs => Some (set_childs ast childs)
                    end
                end
            end
        end
    end.

(** A call of [optimize] on a node never needs more fuel than the node has
    nodes. *)
Definition optimize_default (ast : Node) : option Node :=
  optimize (size ast) optimize_conf empty_context ast.

Definition bind {A B : Type} (x : option A) (f : A -> option B) : option B :=
  match x with Some a => f a | None => None end.

(** The whole pipeline with the default options. *)
Definition run (input : string) : option Node :=
  bind (compile input) (fun tokens => bind (parse tokens) optimize_default).

(* ================================================================== *)
(** * Vocabulary of the statements *)

(** [tiles input start stop tokens]: the tokens lie one behind the other
    from [start] to [stop], each one non-empty and equal to the piece of
    the input at its position. *)
Fixpoint tiles (input : string) (start stop : nat) (tokens : list Token)
  : Prop :=
  match tokens with
  | [] => start = stop
  | t :: ts =>
      pos t = start
      /\ text t <> ""
      /\ substr input start (String.length (text t)) = text t
      /\ tiles input (start + String.length (text t)) stop ts
  end.

(** The parser functions seen as relations: some amount of fuel yields the
    result. *)
Definition parses (token : Token) (tokens : list Token)
    (r : list Node * list Token) : Prop :=
  exists fuel, parseToken fuel token tokens = Some r.

Definition untils (close : TokenType) (childs : list Node)
    (tokens : list Token) (r : list Node * list Token) : Prop :=
  exists fuel, until_loop fuel close childs tokens = Some r.

Definition links (pipe : bool) (pre post : list Node) (tokens : list Token)
    (r : bool * list Node * list Node * list Token) : Prop :=
  exists fuel, link_loop fuel pipe pre post tokens = Some r.

Definition tops (out : list Node) (tokens : list Token) (r : list Node)
  : Prop :=
  exists fuel, parse_loop fuel out tokens = Some r.

(** The token types that end a construct. *)
Definition is_close_type (k : TokenType) : bool :=
  match k with
  | TBoldClose | TItalicClose | TLinkClose
  | TQuote2 | TQuote3 | TQuote4 | TQuote5 => true
  | _ => false
  end.

(** Whatever a parser function does on [tokens], some closing tokens put
    behind them make it stop exactly there with the same result, so that
    anything further behind is left over. *)
Definition closes_parse (tokens : list Token) : Prop :=
  forall token nodes rest, parses token tokens (nodes, rest) ->
  exists ks, forallb is_close_type ks = true /\
    forall cs extra, map type cs = ks ->
      parses token (tokens ++ cs ++ extra) (nodes, rest ++ extra).

Definition closes_until (tokens : list Token) : Prop :=
  forall close childs childs' rest,
    is_close_type close = true ->
    untils close childs tokens (childs', rest) ->
  exists ks, forallb is_close_type ks = true /\
    forall cs extra, map type cs = ks ->
      untils close childs (tokens ++ cs ++ extra) (childs', rest ++ extra).

Definition closes_link (tokens : list Token) : Prop :=
  forall pipe pre post pipe' pre' post' rest,
    links pipe pre post tokens (pipe', pre', post', rest) ->
  exists ks, forallb is_close_type ks = true /\
    forall cs extra, map type cs = ks ->
      links pipe pre post (tokens ++ cs ++ extra)
        (pipe', pre', post', rest ++ extra).

(** Two tags of the same kind (links, italics or bolds). *)
Definition same_tag (a n : Node) : bool :=
  (isLink a && isLink n) || (isItalic a && isItalic n)
  || (isBold a && isBold n).

(** The context in which the children of the innermost of [ancestors] are
    optimized, with the default options: every ancestor has been entered,
    the outermost first. *)
Definition context_of (ancestors : list Node) : Context :=
  fold_left (enter optimize_conf) ancestors empty_context.

(** Some node of the class is directly followed by a node of the class. *)
Fixpoint adjacent (classy : Class) (l : list Node) : bool :=
  match l with
  | a :: ((b :: _) as l') =>
      (instanceof a classy && instanceof b classy) || adjacent classy l'
  | _ => false
  end.

(** Some [Text] is directly followed by a [Text]. *)
Definition adjacent_texts (l : list Node) : bool := adjacent CText l.

(** A tree the optimizer has nothing to do on, in the context [ctx] and
    with the default options: below every node no child is a nested tag,
    no two neighbours are of one class that is merged, and the children
    are such trees themselves. *)
Inductive normal : Context -> Node -> Prop :=
| normal_Text ctx s : normal ctx (Text s)
| normal_childs ctx t :
    isNodeWithChilds t = true ->
    Forall (fun c => nested (enter optimize_conf ctx t) c = false
                     /\ normal (enter optimize_conf ctx t) c)
           (childs_of t) ->
    (forall classy, adjacent classy (childs_of t) = false) ->
    normal ctx t.

(** A tree on which one flatten pass is enough at every node: what the
    pass leaves in a child list is never a nested tag. *)
Inductive plain : Context -> Node -> Prop :=
| plain_Text ctx s : plain ctx (Text s)
| plain_childs ctx t :
    isNodeWithChilds t = true ->
    Forall (fun c => nested (enter optimize_conf ctx t) c = false
                     /\ plain (enter optimize_conf ctx t) c)
           (flatten (enter optimize_conf ctx t) (childs_of t)) ->
    plain ctx t.

Definition not_text (n : Node) : bool := negb (isText n).




(** What the loop over [lexical.exec] collects: matches of delimiters, each
    at or behind the end of the one before it. *)
Fixpoint matches_ok (input : string) (lastIndex : nat) (matches : list Token)
  : Prop :=
  match matches with
  | [] => True
  | m :: ms =>
      lastIndex <= pos m
      /\ type m <> TText
      /\ text m <> ""
      /\ substr input (pos m) (String.length (text m)) = text m
      /\ pos m + String.length (text m) <= String.length input
      /\ matches_ok input (pos m + String.length (text m)) ms
  end.

(* ================================================================== *)
(** * classes.js: the other renderers, the search and the summaries *)

(** The double quote of the string literals of the renderers. *)
Definition dquote : string := String (ascii_of_nat 34) "".

(** [toString()]; the children are joined by a comma and a space. *)
Fixpoint toString (n : Node) : string :=
  match n with
  | Text text => ("Text(" ++ dquote ++ text ++ dquote ++ ")")%string
  | Sentence childs =>
      ("Sentence(" ++ transform toString ", " childs ++ ")")%string
  | Italic childs =>
      ("Italic(" ++ transform toString ", " childs ++ ")")%string
  | Bold childs =>
      ("Bold(" ++ transform toString ", " childs ++ ")")%string
  | Link target childs =>
      ("Link(" ++ dquote ++ target ++ dquote ++ ", "
         ++ transform toString ", " childs ++ ")")%string
  end.

(** [toHTML()] *)
Fixpoint toHTML (n : Node) : string :=
  match n with
  | Text text => text
  | Sentence childs =>
      ("<span class=" ++ dquote ++ "sentence" ++ dquote ++ ">"
         ++ transform toHTML "" childs ++ "</span>")%string
  | Italic childs => ("<i>" ++ transform toHTML "" childs ++ "</i>")%string
  | Bold childs => ("<b>" ++ transform toHTML "" childs ++ "</b>")%string
  | Link target childs =>
      let classes :=
        ("link" ++ (if isExternal_target target then " external" else ""))%string
      in
      ("<a class=" ++ dquote ++ classes ++ dquote
         ++ " href=" ++ dquote ++ href_of target ++ dquote ++ ">"
         ++ transform toHTML "" childs ++ "</a>")%string
  end.

(** [toLatex()] *)
Fixpoint toLatex (n : Node) : string :=
  match n with
  | Text text => text
  | Sentence childs => transform toLatex "" childs
  | Italic childs => ("\textit{" ++ transform toLatex "" childs ++ "}")%string
  | Bold childs => ("\textbf{" ++ transform toLatex "" childs ++ "}")%string
  | Link target childs =>
      ("\href{" ++ href_of target ++ "}{"
         ++ transform toLatex "" childs ++ "}")%string
  end.

(** [toMarkdown()] *)
Fixpoint toMarkdown (n : Node) : string :=
  match n with
  | Text text => text
  | Sentence childs => transform toMarkdown "" childs
  | Italic childs => ("*" ++ transform toMarkdown "" childs ++ "*")%string
  | Bold childs => ("**" ++ transform toMarkdown "" childs ++ "**")%string
  | Link target childs =>
      ("[" ++ transform toMarkdown "" childs ++ "]("
         ++ href_of target ++ ")")%string
  end.

(** [search.call(node, filter)]: the generator yields the node itself when
    the filter holds and then, match or not, what the search yields in
    each child; the model is the list of the values yielded. *)
Fixpoint search (filter : Node -> bool) (n : Node) : list Node :=
  (if filter n then [n] else [])
  ++ match n with
     | Text _ => []
     | Sentence childs => flat_map (search filter) childs
     | Italic childs => flat_map (search filter) childs
     | Bold childs => flat_map (search filter) childs
     | Link _ childs => flat_map (search filter) childs
     end.

(** The values of [toJSON()]: a string for a text, an italic or a bold,
    the object of [Link.toJSON] for a link, and for a sentence the object
    with [text] and, only when they are not empty, [links] and
    [formatting], the latter with [bold] and [italic] under the same
    condition. *)
Record Formatting (A : Type) : Type := mkFormatting {
  fmt_bold   : option (list A);
  fmt_italic : option (list A)
}.
Arguments mkFormatting {A}.
Arguments fmt_bold {A}.
Arguments fmt_italic {A}.

Inductive JSON : Type :=
| JString (s : string)
| JLink (l : LinkJSON)
| JSentence (text : string) (links : option (list JSON))
    (formatting : option (Formatting JSON)).

(** [toJSON()] of the nodes the three searches of [Sentence.toJSON] yield
    (links, bolds and italics), and of a text. *)
Definition node2json (n : Node) : JSON :=
  match n with
  | Link target childs => JLink (Link_toJSON target childs)
  | _ => JString (toText n)
  end.

(** [Sentence.toJSON()]; [search(...).map(node2json).toArray()] is the map
    over the list of the values yielded. *)
Definition Sentence_toJSON (this : Node) : JSON :=
  let links  := map node2json (search isLink this) in
  let bold   := map node2json (search isBold this) in
  let italic := map node2json (search isItalic this) in
  let out_links := if List.length links =? 0 then None else Some links in
  let formatting :=
    if List.length bold =? 0 then None
    else Some {| fmt_bold := Some bold; fmt_italic := None |} in
  let formatting :=
    if List.length italic =? 0 then formatting
    else Some {| fmt_bold := match formatting with
                             | Some f => fmt_bold f
                             | None => None
                             end;
                 fmt_italic := Some italic |} in
  JSentence (toText this) out_links formatting.

Definition toJSON (n : Node) : JSON :=
  match n with
  | Sentence _ => Sentence_toJSON n
  | _ => node2json n
  end.

(** The builders exported beside the classes; a JavaScript rest parameter
    is a list. *)
Module Builders.
Definition t (text : string) : Node := Text text.
Definition s (childs : list Node) : Node := Sentence childs.
Definition i (childs : list Node) : Node := Italic childs.
Definition b (childs : list Node) : Node := Bold childs.
Definition a (target : string) (childs : list Node) : Node := Link target childs.
End Builders.

(* ================================================================== *)
(** * tests.js: the table of cases and the loop that checks them *)

Module TestSuite.
Import Builders.

(** One entry of [tests]; a key that is left out is [None].  The cases
    are kept in the order of the file, the comment lines left out;
    [tc_minify] is [context === 'optimize ast']. *)
Record TestCase : Type := mkTestCase {
  tc_minify   : bool;
  tc_input    : string;
  tc_ast      : option Node;
  tc_text     : option string;
  tc_html     : option string;
  tc_latex    : option string;
  tc_markdown : option string
}.

Definition tests : list TestCase := [
  {| tc_minify := false;
     tc_input := "[[Page 1]], [[Page 1]]";
     tc_ast := Some (s [(a "Page 1" [(t "Page 1")]); (t ", "); (a "Page 1" [(t "Page 1")])]);
     tc_text := Some "Page 1, Page 1";
     tc_html := Some ("<a class=" ++ dquote ++ "link" ++ dquote ++ " href=" ++ dquote ++ "./Page_1" ++ dquote ++ ">Page 1</a>, <a class=" ++ dquote ++ "link" ++ dquote ++ " href=" ++ dquote ++ "./Page_1" ++ dquote ++ ">Page 1</a>")%string;
     tc_latex := Some "\href{./Page_1}{Page 1}, \href{./Page_1}{Page 1}";
     tc_markdown := Some "[Page 1](./Page_1), [Page 1](./Page_1)" |};
  {| tc_minify := false;
     tc_input := "Just click on here: [[Page 1|here]] or [[Page 2|here]]";
     tc_ast := Some (s [(t "Just click on here: "); (a "Page 1" [(t "here")]); (t " or "); (a "Page 2" [(t "here")])]);
     tc_text := Some "Just click on here: here or here";
     tc_html := Some ("Just click on here: <a class=" ++ dquote ++ "link" ++ dquote ++ " href=" ++ dquote ++ "./Page_1" ++ dquote ++ ">here</a> or <a class=" ++ dquote ++ "link" ++ dquote ++ " href=" ++ dquote ++ "./Page_2" ++ dquote ++ ">here</a>")%string;
     tc_latex := Some "Just click on here: \href{./Page_1}{here} or \href{./Page_2}{here}";
     tc_markdown := Some "Just click on here: [here](./Page_1) or [here](./Page_2)" |};
  {| tc_minify := false;
     tc_input := "<i>abi</i>, <b>i</b>, [[a|b]], [[b|a]]";
     tc_ast := Some (s [(i [(t "abi")]); (t ", "); (b [(t "i")]); (t ", "); (a "a" [(t "b")]); (t ", "); (a "b" [(t "a")])]);
     tc_text := Some "abi, i, b, a";
     tc_html := Some ("<i>abi</i>, <b>i</b>, <a class=" ++ dquote ++ "link" ++ dquote ++ " href=" ++ dquote ++ "./A" ++ dquote ++ ">b</a>, <a class=" ++ dquote ++ "link" ++ dquote ++ " href=" ++ dquote ++ "./B" ++ dquote ++ ">a</a>")%string;
     tc_latex := Some "\textit{abi}, \textbf{i}, \href{./A}{b}, \href{./B}{a}";
     tc_markdown := Some "*abi*, **i**, [b](./A), [a](./B)" |};
  {| tc_minify := false;
     tc_input := "[[Page 1|'''link''']]";
     tc_ast := Some (s [(a "Page 1" [(b [(t "link")])])]);
     tc_text := Some "link";
     tc_html := Some ("<a class=" ++ dquote ++ "link" ++ dquote ++ " href=" ++ dquote ++ "./Page_1" ++ dquote ++ "><b>link</b></a>")%string;
     tc_latex := Some "\href{./Page_1}{\textbf{link}}";
     tc_markdown := Some "[**link**](./Page_1)" |};
  {| tc_minify := false;
     tc_input := "i am [[bold|'''bold''']] [[here]]";
     tc_ast := Some (s [(t "i am "); (a "bold" [(b [(t "bold")])]); (t " "); (a "here" [(t "here")])]);
     tc_text := Some "i am bold here";
     tc_html := Some ("i am <a class=" ++ dquote ++ "link" ++ dquote ++ " href=" ++ dquote ++ "./Bold" ++ dquote ++ "><b>bold</b></a> <a class=" ++ dquote ++ "link" ++ dquote ++ " href=" ++ dquote ++ "./Here" ++ dquote ++ ">here</a>")%string;
     tc_latex := Some "i am \href{./Bold}{\textbf{bold}} \href{./Here}{here}";
     tc_markdown := Some "i am [**bold**](./Bold) [here](./Here)" |};
  {| tc_minify := false;
     tc_input := "[[link]]";
     tc_ast := Some (s [(a "link" [(t "link")])]);
     tc_text := Some "link";
     tc_html := Some ("<a class=" ++ dquote ++ "link" ++ dquote ++ " href=" ++ dquote ++ "./Link" ++ dquote ++ ">link</a>")%string;
     tc_latex := None;
     tc_markdown := None |};
  {| tc_minify := false;
     tc_input := "[[link|text]]";
     tc_ast := Some (s [(a "link" [(t "text")])]);
     tc_text := Some "text";
     tc_html := Some ("<a class=" ++ dquote ++ "link" ++ dquote ++ " href=" ++ dquote ++ "./Link" ++ dquote ++ ">text</a>")%string;
     tc_latex := None;
     tc_markdown := None |};
  {| tc_minify := false;
     tc_input := "[[link with space|text]]";
     tc_ast := Some (s [(a "link with space" [(t "text")])]);
     tc_text := Some "text";
     tc_html := Some ("<a class=" ++ dquote ++ "link" ++ dquote ++ " href=" ++ dquote ++ "./Link_with_space" ++ dquote ++ ">text</a>")%string;
     tc_latex := None;
     tc_markdown := None |};
  {| tc_minify := false;
     tc_input := "''italic''";
     tc_ast := Some (s [(i [(t "italic")])]);
     tc_text := Some "italic";
     tc_html := Some "<i>italic</i>";
     tc_latex := None;
     tc_markdown := None |};
  {| tc_minify := false;
     tc_input := "<i>italic</i>";
     tc_ast := Some (s [(i [(t "italic")])]);
     tc_text := Some "italic";
     tc_html := Some "<i>italic</i>";
     tc_latex := None;
     tc_markdown := None |};
  {| tc_minify := false;
     tc_input := "'''bold'''";
     tc_ast := Some (s [(b [(t "bold")])]);
     tc_text := Some "bold";
     tc_html := Some "<b>bold</b>";
     tc_latex := None;
     tc_markdown := None |};
  {| tc_minify := false;
     tc_input := "<b>bold</b>";
     tc_ast := Some (s [(b [(t "bold")])]);
     tc_text := Some "bold";
     tc_html := Some "<b>bold</b>";
     tc_latex := None;
     tc_markdown := None |};
  {| tc_minify := false;
     tc_input := "''''bold''''";
     tc_ast := Some (s [(b [(t "'bold'")])]);
     tc_text := Some "'bold'";
     tc_html := Some "<b>'bold'</b>";
     tc_latex := None;
     tc_markdown := None |};
  {| tc_minify := false;
     tc_input := "pre [[link]] post";
     tc_ast := Some (s [(t "pre "); (a "link" [(t "link")]); (t " post")]);
     tc_text := Some "pre link post";
     tc_html := Some ("pre <a class=" ++ dquote ++ "link" ++ dquote ++ " href=" ++ dquote ++ "./Link" ++ dquote ++ ">link</a> post")%string;
     tc_latex := None;
     tc_markdown := None |};
  {| tc_minify := false;
     tc_input := "pre [[link|text]] post";
     tc_ast := Some (s [(t "pre "); (a "link" [(t "text")]); (t " post")]);
     tc_text := Some "pre text post";
     tc_html := Some ("pre <a class=" ++ dquote ++ "link" ++ dquote ++ " href=" ++ dquote ++ "./Link" ++ dquote ++ ">text</a> post")%string;
     tc_latex := None;
     tc_markdown := None |};
  {| tc_minify := false;
     tc_input := "pre ''italic'' post";
     tc_ast := Some (s [(t "pre "); (i [(t "italic")]); (t " post")]);
     tc_text := Some "pre italic post";
     tc_html := Some "pre <i>italic</i> post";
     tc_latex := None;
     tc_markdown := None |};
  {| tc_minify := false;
     tc_input := "pre <i>italic</i> post";
     tc_ast := Some (s [(t "pre "); (i [(t "italic")]); (t " post")]);
     tc_text := Some "pre italic post";
     tc_html := Some "pre <i>italic</i> post";
     tc_latex := None;
     tc_markdown := None |};
  {| tc_minify := false;
     tc_input := "pre '''bold''' post";
     tc_ast := Some (s [(t "pre "); (b [(t "bold")]); (t " post")]);
     tc_text := Some "pre bold post";
     tc_html := Some "pre <b>bold</b> post";
     tc_latex := None;
     tc_markdown := None |};
  {| tc_minify := false;
     tc_input := "pre <b>bold</b> post";
     tc_ast := Some (s [(t "pre "); (b [(t "bold")]); (t " post")]);
     tc_text := Some "pre bold post";
     tc_html := Some "pre <b>bold</b> post";
     tc_latex := None;
     tc_markdown := None |};
  {| tc_minify := true;
     tc_input := "pre [[Page 1|pre [[Page 2|link²]] post]] post";
     tc_ast := Some (s [(t "pre "); (a "Page 1" [(t "pre link² post")]); (t " post")]);
     tc_text := Some "pre pre link² post post";
     tc_html := Some ("pre <a class=" ++ dquote ++ "link" ++ dquote ++ " href=" ++ dquote ++ "./Page_1" ++ dquote ++ ">pre link² post</a> post")%string;
     tc_latex := None;
     tc_markdown := Some "pre [pre link² post](./Page_1) post" |};
  {| tc_minify := true;
     tc_input := "pre <b>pre <b>bold²</b> post</b> post";
     tc_ast := Some (s [(t "pre "); (b [(t "pre bold² post")]); (t " post")]);
     tc_text := None;
     tc_html := None;
     tc_latex := None;
     tc_markdown := None |};
  {| tc_minify := true;
     tc_input := "pre <i>pre <i>italic²</i> post</i> post";
     tc_ast := Some (s [(t "pre "); (i [(t "pre italic² post")]); (t " post")]);
     tc_text := None;
     tc_html := None;
     tc_latex := None;
     tc_markdown := None |};
  {| tc_minify := true;
     tc_input := "pre <b>pre <i>pre <b>bold³</b> post</i> post</b> post";
     tc_ast := Some (s [(t "pre "); (b [(t "pre "); (i [(t "pre bold³ post")]); (t " post")]); (t " post")]);
     tc_text := None;
     tc_html := None;
     tc_latex := None;
     tc_markdown := None |};
  {| tc_minify := true;
     tc_input := "pre <i>pre <b>pre <i>italic³</i> post</b> post</i> post";
     tc_ast := Some (s [(t "pre "); (i [(t "pre "); (b [(t "pre italic³ post")]); (t " post")]); (t " post")]);
     tc_text := None;
     tc_html := None;
     tc_latex := None;
     tc_markdown := None |};
  {| tc_minify := false;
     tc_input := "[[link|''italic'']]";
     tc_ast := Some (s [(a "link" [(i [(t "italic")])])]);
     tc_text := Some "italic";
     tc_html := Some ("<a class=" ++ dquote ++ "link" ++ dquote ++ " href=" ++ dquote ++ "./Link" ++ dquote ++ "><i>italic</i></a>")%string;
     tc_latex := None;
     tc_markdown := None |};
  {| tc_minify := false;
     tc_input := "[[link|<i>italic</i>]]";
     tc_ast := Some (s [(a "link" [(i [(t "italic")])])]);
     tc_text := Some "italic";
     tc_html := Some ("<a class=" ++ dquote ++ "link" ++ dquote ++ " href=" ++ dquote ++ "./Link" ++ dquote ++ "><i>italic</i></a>")%string;
     tc_latex := None;
     tc_markdown := None |};
  {| tc_minify := false;
     tc_input := "[[link|'''bold''']]";
     tc_ast := Some (s [(a "link" [(b [(t "bold")])])]);
     tc_text := Some "bold";
     tc_html := Some ("<a class=" ++ dquote ++ "link" ++ dquote ++ " href=" ++ dquote ++ "./Link" ++ dquote ++ "><b>bold</b></a>")%string;
     tc_latex := None;
     tc_markdown := None |};
  {| tc_minify := false;
     tc_input := "[[link|<b>bold</b>]]";
     tc_ast := Some (s [(a "link" [(b [(t "bold")])])]);
     tc_text := Some "bold";
     tc_html := Some ("<a class=" ++ dquote ++ "link" ++ dquote ++ " href=" ++ dquote ++ "./Link" ++ dquote ++ "><b>bold</b></a>")%string;
     tc_latex := None;
     tc_markdown := None |};
  {| tc_minify := false;
     tc_input := "''[[link]]''";
     tc_ast := Some (s [(i [(a "link" [(t "link")])])]);
     tc_text := Some "link";
     tc_html := Some ("<i><a class=" ++ dquote ++ "link" ++ dquote ++ " href=" ++ dquote ++ "./Link" ++ dquote ++ ">link</a></i>")%string;
     tc_latex := None;
     tc_markdown := None |};
  {| tc_minify := false;
     tc_input := "''[[link|text]]''";
     tc_ast := Some (s [(i [(a "link" [(t "text")])])]);
     tc_text := Some "text";
     tc_html := Some ("<i><a class=" ++ dquote ++ "link" ++ dquote ++ " href=" ++ dquote ++ "./Link" ++ dquote ++ ">text</a></i>")%string;
     tc_latex := None;
     tc_markdown := None |};
  {| tc_minify := false;
     tc_input := "''<b>both</b>''";
     tc_ast := Some (s [(i [(b [(t "both")])])]);
     tc_text := Some "both";
     tc_html := Some "<i><b>both</b></i>";
     tc_latex := None;
     tc_markdown := None |};
  {| tc_minify := false;
     tc_input := "<i>[[link]]</i>";
     tc_ast := Some (s [(i [(a "link" [(t "link")])])]);
     tc_text := Some "link";
     tc_html := Some ("<i><a class=" ++ dquote ++ "link" ++ dquote ++ " href=" ++ dquote ++ "./Link" ++ dquote ++ ">link</a></i>")%string;
     tc_latex := None;
     tc_markdown := None |};
  {| tc_minify := false;
     tc_input := "<i>[[link|text]]</i>";
     tc_ast := Some (s [(i [(a "link" [(t "text")])])]);
     tc_text := Some "text";
     tc_html := Some ("<i><a class=" ++ dquote ++ "link" ++ dquote ++ " href=" ++ dquote ++ "./Link" ++ dquote ++ ">text</a></i>")%string;
     tc_latex := None;
     tc_markdown := None |};
  {| tc_minify := false;
     tc_input := "<i>'''both'''</i>";
     tc_ast := Some (s [(i [(b [(t "both")])])]);
     tc_text := Some "both";
     tc_html := Some "<i><b>both</b></i>";
     tc_latex := None;
     tc_markdown := None |};
  {| tc_minify := false;
     tc_input := "<i><b>both</b></i>";
     tc_ast := Some (s [(i [(b [(t "both")])])]);
     tc_text := Some "both";
     tc_html := Some "<i><b>both</b></i>";
     tc_latex := None;
     tc_markdown := None |};
  {| tc_minify := false;
     tc_input := "'''[[link]]'''";
     tc_ast := Some (s [(b [(a "link" [(t "link")])])]);
     tc_text := Some "link";
     tc_html := Some ("<b><a class=" ++ dquote ++ "link" ++ dquote ++ " href=" ++ dquote ++ "./Link" ++ dquote ++ ">link</a></b>")%string;
     tc_latex := None;
     tc_markdown := None |};
  {| tc_minify := false;
     tc_input := "'''[[link|text]]'''";
     tc_ast := Some (s [(b [(a "link" [(t "text")])])]);
     tc_text := Some "text";
     tc_html := Some ("<b><a class=" ++ dquote ++ "link" ++ dquote ++ " href=" ++ dquote ++ "./Link" ++ dquote ++ ">text</a></b>")%string;
     tc_latex := None;
     tc_markdown := None |};
  {| tc_minify := false;
     tc_input := "'''''both'''''";
     tc_ast := Some (s [(i [(b [(t "both")])])]);
     tc_text := Some "both";
     tc_html := Some "<i><b>both</b></i>";
     tc_latex := None;
     tc_markdown := None |};
  {| tc_minify := false;
     tc_input := "'''<i>both</i>'''";
     tc_ast := Some (s [(b [(i [(t "both")])])]);
     tc_text := Some "both";
     tc_html := Some "<b><i>both</i></b>";
     tc_latex := None;
     tc_markdown := None |};
  {| tc_minify := false;
     tc_input := "<b>[[link]]</b>";
     tc_ast := Some (s [(b [(a "link" [(t "link")])])]);
     tc_text := Some "link";
     tc_html := Some ("<b><a class=" ++ dquote ++ "link" ++ dquote ++ " href=" ++ dquote ++ "./Link" ++ dquote ++ ">link</a></b>")%string;
     tc_latex := None;
     tc_markdown := None |};
  {| tc_minify := false;
     tc_input := "<b>[[link|text]]</b>";
     tc_ast := Some (s [(b [(a "link" [(t "text")])])]);
     tc_text := Some "text";
     tc_html := Some ("<b><a class=" ++ dquote ++ "link" ++ dquote ++ " href=" ++ dquote ++ "./Link" ++ dquote ++ ">text</a></b>")%string;
     tc_latex := None;
     tc_markdown := None |};
  {| tc_minify := false;
     tc_input := "<b>''both''</b>";
     tc_ast := Some (s [(b [(i [(t "both")])])]);
     tc_text := Some "both";
     tc_html := Some "<b><i>both</i></b>";
     tc_latex := None;
     tc_markdown := None |};
  {| tc_minify := false;
     tc_input := "<b><i>both</i></b>";
     tc_ast := Some (s [(b [(i [(t "both")])])]);
     tc_text := Some "both";
     tc_html := Some "<b><i>both</i></b>";
     tc_latex := None;
     tc_markdown := None |};
  {| tc_minify := false;
     tc_input := "pre [[link|pre ''italic'' post]] post";
     tc_ast := Some (s [(t "pre "); (a "link" [(t "pre "); (i [(t "italic")]); (t " post")]); (t " post")]);
     tc_text := Some "pre pre italic post post";
     tc_html := Some ("pre <a class=" ++ dquote ++ "link" ++ dquote ++ " href=" ++ dquote ++ "./Link" ++ dquote ++ ">pre <i>italic</i> post</a> post")%string;
     tc_latex := None;
     tc_markdown := None |};
  {| tc_minify := false;
     tc_input := "pre [[link|pre <i>italic</i> post]] post";
     tc_ast := Some (s [(t "pre "); (a "link" [(t "pre "); (i [(t "italic")]); (t " post")]); (t " post")]);
     tc_text := Some "pre pre italic post post";
     tc_html := Some ("pre <a class=" ++ dquote ++ "link" ++ dquote ++ " href=" ++ dquote ++ "./Link" ++ dquote ++ ">pre <i>italic</i> post</a> post")%string;
     tc_latex := None;
     tc_markdown := None |};
  {| tc_minify := false;
     tc_input := "pre [[link|pre '''bold''' post]] post";
     tc_ast := Some (s [(t "pre "); (a "link" [(t "pre "); (b [(t "bold")]); (t " post")]); (t " post")]);
     tc_text := Some "pre pre bold post post";
     tc_html := Some ("pre <a class=" ++ dquote ++ "link" ++ dquote ++ " href=" ++ dquote ++ "./Link" ++ dquote ++ ">pre <b>bold</b> post</a> post")%string;
     tc_latex := None;
     tc_markdown := None |};
  {| tc_minify := false;
     tc_input := "pre [[link|pre <b>bold</b> post]] post";
     tc_ast := Some (s [(t "pre "); (a "link" [(t "pre "); (b [(t "bold")]); (t " post")]); (t " post")]);
     tc_text := Some "pre pre bold post post";
     tc_html := Some ("pre <a class=" ++ dquote ++ "link" ++ dquote ++ " href=" ++ dquote ++ "./Link" ++ dquote ++ ">pre <b>bold</b> post</a> post")%string;
     tc_latex := None;
     tc_markdown := None |};
  {| tc_minify := false;
     tc_input := "pre ''pre [[link]] post'' post";
     tc_ast := Some (s [(t "pre "); (i [(t "pre "); (a "link" [(t "link")]); (t " post")]); (t " post")]);
     tc_text := Some "pre pre link post post";
     tc_html := Some ("pre <i>pre <a class=" ++ dquote ++ "link" ++ dquote ++ " href=" ++ dquote ++ "./Link" ++ dquote ++ ">link</a> post</i> post")%string;
     tc_latex := None;
     tc_markdown := None |};
  {| tc_minify := false;
     tc_input := "pre ''pre [[link|text]] post'' post";
     tc_ast := Some (s [(t "pre "); (i [(t "pre "); (a "link" [(t "text")]); (t " post")]); (t " post")]);
     tc_text := Some "pre pre text post post";
     tc_html := Some ("pre <i>pre <a class=" ++ dquote ++ "link" ++ dquote ++ " href=" ++ dquote ++ "./Link" ++ dquote ++ ">text</a> post</i> post")%string;
     tc_latex := None;
     tc_markdown := None |};
  {| tc_minify := false;
     tc_input := "pre ''pre '''both''' post'' post";
     tc_ast := Some (s [(t "pre "); (i [(t "pre "); (b [(t "both")]); (t " post")]); (t " post")]);
     tc_text := Some "pre pre both post post";
     tc_html := Some "pre <i>pre <b>both</b> post</i> post";
     tc_latex := None;
     tc_markdown := None |};
  {| tc_minify := false;
     tc_input := "pre ''pre <b>both</b> post'' post";
     tc_ast := Some (s [(t "pre "); (i [(t "pre "); (b [(t "both")]); (t " post")]); (t " post")]);
     tc_text := Some "pre pre both post post";
     tc_html := Some "pre <i>pre <b>both</b> post</i> post";
     tc_latex := None;
     tc_markdown := None |};
  {| tc_minify := false;
     tc_input := "pre <i>pre [[link]] post</i> post";
     tc_ast := Some (s [(t "pre "); (i [(t "pre "); (a "link" [(t "link")]); (t " post")]); (t " post")]);
     tc_text := Some "pre pre link post post";
     tc_html := Some ("pre <i>pre <a class=" ++ dquote ++ "link" ++ dquote ++ " href=" ++ dquote ++ "./Link" ++ dquote ++ ">link</a> post</i> post")%string;
     tc_latex := None;
     tc_markdown := None |};
  {| tc_minify := false;
     tc_input := "pre <i>pre [[link|text]] post</i> post";
     tc_ast := Some (s [(t "pre "); (i [(t "pre "); (a "link" [(t "text")]); (t " post")]); (t " post")]);
     tc_text := Some "pre pre text post post";
     tc_html := Some ("pre <i>pre <a class=" ++ dquote ++ "link" ++ dquote ++ " href=" ++ dquote ++ "./Link" ++ dquote ++ ">text</a> post</i> post")%string;
     tc_latex := None;
     tc_markdown := None |};
  {| tc_minify := false;
     tc_input := "pre <i>pre '''both''' post</i> post";
     tc_ast := Some (s [(t "pre "); (i [(t "pre "); (b [(t "both")]); (t " post")]); (t " post")]);
     tc_text := Some "pre pre both post post";
     tc_html := Some "pre <i>pre <b>both</b> post</i> post";
     tc_latex := None;
     tc_markdown := None |};
  {| tc_minify := false;
     tc_input := "pre <i>pre <b>both</b> post</i> post";
     tc_ast := Some (s [(t "pre "); (i [(t "pre "); (b [(t "both")]); (t " post")]); (t " post")]);
     tc_text := Some "pre pre both post post";
     tc_html := Some "pre <i>pre <b>both</b> post</i> post";
     tc_latex := None;
     tc_markdown := None |};
  {| tc_minify := false;
     tc_input := "pre '''pre [[link]] post''' post";
     tc_ast := Some (s [(t "pre "); (b [(t "pre "); (a "link" [(t "link")]); (t " post")]); (t " post")]);
     tc_text := Some "pre pre link post post";
     tc_html := Some ("pre <b>pre <a class=" ++ dquote ++ "link" ++ dquote ++ " href=" ++ dquote ++ "./Link" ++ dquote ++ ">link</a> post</b> post")%string;
     tc_latex := None;
     tc_markdown := None |};
  {| tc_minify := false;
     tc_input := "pre '''pre [[link|text]] post''' post";
     tc_ast := Some (s [(t "pre "); (b [(t "pre "); (a "link" [(t "text")]); (t " post")]); (t " post")]);
     tc_text := Some "pre pre text post post";
     tc_html := Some ("pre <b>pre <a class=" ++ dquote ++ "link" ++ dquote ++ " href=" ++ dquote ++ "./Link" ++ dquote ++ ">text</a> post</b> post")%string;
     tc_latex := None;
     tc_markdown := None |};
  {| tc_minify := false;
     tc_input := "pre '''pre ''both'' post''' post";
     tc_ast := Some (s [(t "pre "); (b [(t "pre "); (i [(t "both")]); (t " post")]); (t " post")]);
     tc_text := Some "pre pre both post post";
     tc_html := Some "pre <b>pre <i>both</i> post</b> post";
     tc_latex := None;
     tc_markdown := None |};
  {| tc_minify := false;
     tc_input := "pre '''pre <i>both</i> post''' post";
     tc_ast := Some (s [(t "pre "); (b [(t "pre "); (i [(t "both")]); (t " post")]); (t " post")]);
     tc_text := Some "pre pre both post post";
     tc_html := Some "pre <b>pre <i>both</i> post</b> post";
     tc_latex := None;
     tc_markdown := None |};
  {| tc_minify := false;
     tc_input := "pre <b>pre [[link]] post</b> post";
     tc_ast := Some (s [(t "pre "); (b [(t "pre "); (a "link" [(t "link")]); (t " post")]); (t " post")]);
     tc_text := Some "pre pre link post post";
     tc_html := Some ("pre <b>pre <a class=" ++ dquote ++ "link" ++ dquote ++ " href=" ++ dquote ++ "./Link" ++ dquote ++ ">link</a> post</b> post")%string;
     tc_latex := None;
     tc_markdown := None |};
  {| tc_minify := false;
     tc_input := "pre <b>pre [[link|text]] post</b> post";
     tc_ast := Some (s [(t "pre "); (b [(t "pre "); (a "link" [(t "text")]); (t " post")]); (t " post")]);
     tc_text := Some "pre pre text post post";
     tc_html := Some ("pre <b>pre <a class=" ++ dquote ++ "link" ++ dquote ++ " href=" ++ dquote ++ "./Link" ++ dquote ++ ">text</a> post</b> post")%string;
     tc_latex := None;
     tc_markdown := None |};
  {| tc_minify := false;
     tc_input := "pre <b>pre ''both'' post</b> post";
     tc_ast := Some (s [(t "pre "); (b [(t "pre "); (i [(t "both")]); (t " post")]); (t " post")]);
     tc_text := Some "pre pre both post post";
     tc_html := Some "pre <b>pre <i>both</i> post</b> post";
     tc_latex := None;
     tc_markdown := None |};
  {| tc_minify := false;
     tc_input := "pre <b>pre <i>both</i> post</b> post";
     tc_ast := Some (s [(t "pre "); (b [(t "pre "); (i [(t "both")]); (t " post")]); (t " post")]);
     tc_text := Some "pre pre both post post";
     tc_html := Some "pre <b>pre <i>both</i> post</b> post";
     tc_latex := None;
     tc_markdown := None |}
].

(** [{ nestedLinks: minify, nestedBolds: minify, nestedItalics: minify }]
    laid over [optimize_conf]. *)
Definition test_conf (minify : bool) : Conf :=
  {| combineTexts := true; combineItalics := true; combineBolds := true;
     nestedLinks := minify; nestedItalics := minify; nestedBolds := minify |}.

(** [optimize(parse(compile(input)), {...})] *)
Definition test_ast (tc : TestCase) : option Node :=
  bind (compile (tc_input tc)) (fun tokens =>
  bind (parse tokens) (fun ast =>
  optimize (size ast) (test_conf (tc_minify tc)) empty_context ast)).

(** [if (expected !== undefined) t.equal(actual, expected)] *)
Definition expect {A : Type} (expected : option A) (actual : A) : Prop :=
  match expected with
  | Some v => actual = v
  | None => True
  end.

Definition sentence_span (html : string) : string :=
  ("<span class=" ++ dquote ++ "sentence" ++ dquote ++ ">"
     ++ html ++ "</span>")%string.

(** The body of the loop over the cases. *)
Definition passes (tc : TestCase) : Prop :=
  match test_ast tc with
  | None => False
  | Some _ast =>
      expect (tc_ast tc) _ast
      /\ expect (tc_text tc) (toText _ast)
      /\ expect (option_map sentence_span (tc_html tc)) (toHTML _ast)
      /\ expect (tc_latex tc) (toLatex _ast)
      /\ expect (tc_markdown tc) (toMarkdown _ast)
  end.

End TestSuite.

(* ================================================================== *)
(** * Vocabulary of the further properties *)

(** What holds of one token of the scan of [input]: literal text has no
    delimiter starting inside it; a delimiter token carries the string of
    its type, and its type is the first alternative of [lexical] that
    matches at its position. *)
Definition token_ok (input : string) (tok : Token) : Prop :=
  if TokenType_eqb (type tok) TText
  then forall d, d < String.length (text tok) ->
         match_here (drop (pos tok + d) input) = None
  else text tok = lexeme (type tok)
       /\ match_here (drop (pos tok) input) = Some (type tok).

Definition is_text_token (tok : Token) : bool := TokenType_eqb (type tok) TText.

(** Some literal-text token is directly followed by another one. *)
Fixpoint adjacent_text_tokens (l : list Token) : bool :=
  match l with
  | x :: ((y :: _) as l') =>
      (is_text_token x && is_text_token y) || adjacent_text_tokens l'
  | _ => false
  end.

Definition last_is_text (l : list Token) : bool :=
  match rev l with
  | x :: _ => is_text_token x
  | [] => false
  end.

(** The matches collected by the loop over [lexical.exec] are the leftmost
    ones: nothing matches between one match and the next, nor behind the
    last. *)
Fixpoint matches_exact (input : string) (lastIndex : nat)
    (matches : list Token) : Prop :=
  match matches with
  | [] => forall p, lastIndex <= p -> match_here (drop p input) = None
  | m :: ms =>
      (forall p, lastIndex <= p -> p < pos m ->
         match_here (drop p input) = None)
      /\ match_here (drop (pos m) input) = Some (type m)
      /\ text m = lexeme (type m)
      /\ matches_exact input (pos m + String.length (text m)) ms
  end.

(** No token has an empty text. *)
Definition nonempty_tokens (tokens : list Token) : Prop :=
  Forall (fun x => text x <> "") tokens.

(** A node the parser may emit below the sentence: a text that is not
    empty, or a tag with at least one child, all of them such nodes. *)
Fixpoint filled (n : Node) : bool :=
  match n with
  | Text txt => truthy txt
  | Sentence _ => false
  | Italic cs => negb (List.length cs =? 0) && forallb filled cs
  | Bold cs => negb (List.length cs =? 0) && forallb filled cs
  | Link _ cs => negb (List.length cs =? 0) && forallb filled cs
  end.

(** Every link of the tree has its own text for target. *)
Fixpoint self_titled (n : Node) : bool :=
  match n with
  | Text _ => true
  | Sentence cs => forallb self_titled cs
  | Italic cs => forallb self_titled cs
  | Bold cs => forallb self_titled cs
  | Link target cs =>
      String.eqb target (join (map toText cs)) && forallb self_titled cs
  end.

Definition is_pipe_token (tok : Token) : bool := TokenType_eqb (type tok) TPipe.

Definition text_node (tok : Token) : Node := Text (text tok).

(** The tokens before the first pipe, and those behind it. *)
Fixpoint before_first_pipe (tokens : list Token) : list Token :=
  match tokens with
  | [] => []
  | x :: rest => if is_pipe_token x then [] else x :: before_first_pipe rest
  end.

Fixpoint after_first_pipe (tokens : list Token) : list Token :=
  match tokens with
  | [] => []
  | x :: rest => if is_pipe_token x then rest else after_first_pipe rest
  end.

Definition without_pipes (tokens : list Token) : list Token :=
  filter (fun x => negb (is_pipe_token x)) tokens.

(** No token is a pipe. *)
Definition pipe_free (tokens : list Token) : Prop :=
  Forall (fun x => is_pipe_token x = false) tokens.

(** Every token is literal text or a pipe. *)
Definition texts_and_pipes (tokens : list Token) : Prop :=
  Forall (fun x => type x = TText \/ type x = TPipe) tokens.

(** Every option switched off. *)
Definition no_conf : Conf :=
  {| combineTexts := false; combineItalics := false; combineBolds := false;
     nestedLinks := false; nestedItalics := false; nestedBolds := false |}.

(** Only the merging of texts switched on. *)
Definition texts_conf : Conf :=
  {| combineTexts := true; combineItalics := false; combineBolds := false;
     nestedLinks := false; nestedItalics := false; nestedBolds := false |}.

(** The list without the empty strings it starts with. *)
Fixpoint skip_empty (l : list string) : list string :=
  match l with
  | [] => []
  | r :: rs => if truthy r then l else skip_empty rs
  end.

(** Every character is one of [a]..[z]. *)
Fixpoint all_lower (str : string) : bool :=
  match str with
  | EmptyString => true
  | String c str' => is_lower c && all_lower str'
  end.

(** The longest prefix of characters satisfying [p]. *)
Fixpoint take_while (p : ascii -> bool) (str : string) : string :=
  match str with
  | EmptyString => EmptyString
  | String c str' => if p c then String c (take_while p str') else EmptyString
  end.

(** The number of characters held by a list of tokens. *)
Definition weight (tokens : list Token) : nat :=
  String.length (join (map text tokens)).

(** A token of a delimiter type holds the string of its type. *)
Definition carries_lexeme (tok : Token) : Prop :=
  type tok <> TText -> text tok = lexeme (type tok).

(** The characters with which the alternatives of [lexical] start. *)
Definition is_markup_char (c : ascii) : bool :=
  Ascii.eqb c "'" || Ascii.eqb c "<" || Ascii.eqb c "[" || Ascii.eqb c "]"
  || Ascii.eqb c "|".

(** No character of the string is one of them. *)
Fixpoint clean (str : string) : bool :=
  match str with
  | EmptyString => true
  | String c str' => negb (is_markup_char c) && clean str'
  end.

Definition is_quote_run (k : TokenType) : bool :=
  match k with
  | TQuote5 | TQuote4 | TQuote3 | TQuote2 => true
  | _ => false
  end.

Definition starts_with_quote (str : string) : bool :=
  match str with
  | String c _ => Ascii.eqb c "'"
  | EmptyString => false
  end.

(** Tokens laid out from [start] on as a scan would: a literal text is
    not empty, holds no markup character and is not followed by another
    literal text; a delimiter holds the string of its type, and a quote
    run is not followed by an apostrophe. *)
Fixpoint canonical (start : nat) (tokens : list Token) : Prop :=
  match tokens with
  | [] => True
  | tok :: rest =>
      pos tok = start
      /\ (if is_text_token tok
          then text tok <> ""
               /\ clean (text tok) = true
               /\ match rest with
                  | next :: _ => is_text_token next = false
                  | [] => True
                  end
          else text tok = lexeme (type tok)
               /\ (is_quote_run (type tok) = true ->
                   starts_with_quote (join (map text rest)) = false))
      /\ canonical (start + String.length (text tok)) rest
  end.

(* ================================================================== *)
(** * Strings *)

Section Strings.

Lemma drop_empty n : drop n "" = "".
Proof. destruct n; reflexivity. Qed.

Lemma drop_length n s : String.length (drop n s) = String.length s - n.
Proof.
  revert n; induction s as [|c s IH]; intros [|n]; simpl; auto.
Qed.

Lemma drop_drop a b s : drop a (drop b s) = drop (b + a) s.
Proof.
  revert b; induction s as [|c s IH]; intros [|b]; simpl; auto using drop_empty.
Qed.

Lemma substring_drop n m s : substring n m s = substring 0 m (drop n s).
Proof.
  revert n m; induction s as [|c s IH]; intros [|n] m; simpl; auto.
  destruct m; reflexivity.
Qed.

Lemma take_all s : substring 0 (String.length s) s = s.
Proof. induction s; simpl; congruence. Qed.

Lemma substr_from_drop s n : substr_from s n = drop n s.
Proof.
  unfold substr_from. rewrite substring_drop, <- drop_length. apply take_all.
Qed.

Lemma take_length m s :
  m <= String.length s -> String.length (substring 0 m s) = m.
Proof.
  revert m; induction s as [|c s IH]; intros [|m] H; simpl in *; auto; try lia.
  rewrite IH; lia.
Qed.

Lemma substr_length s n m :
  n + m <= String.length s -> String.length (substr s n m) = m.
Proof.
  intros H. unfold substr. rewrite substring_drop.
  apply take_length. rewrite drop_length. lia.
Qed.

Lemma take_split m k s :
  (substring 0 m s ++ substring 0 k (drop m s))%string = substring 0 (m + k) s.
Proof.
  revert m k; induction s as [|c s IH]; intros [|m] k; simpl; auto.
  - destruct k; reflexivity.
  - now rewrite IH.
Qed.

Lemma substr_split s n m k :
  (substr s n m ++ substr s (n + m) k)%string = substr s n (m + k).
Proof.
  unfold substr. rewrite (substring_drop n m), (substring_drop (n + m) k),
    (substring_drop n (m + k)), <- drop_drop.
  apply take_split.
Qed.

Lemma prefix_take p s : prefix p s = true -> substring 0 (String.length p) s = p.
Proof. apply prefix_correct. Qed.

Lemma prefix_length p s : prefix p s = true -> String.length p <= String.length s.
Proof.
  revert s; induction p as [|c p IH]; intros [|d s] H; simpl in *;
    try lia; try discriminate.
  destruct (ascii_dec c d); try discriminate. apply IH in H. lia.
Qed.

Lemma append_empty_r s : (s ++ "")%string = s.
Proof. induction s; simpl; congruence. Qed.

Lemma append_assoc a b c : ((a ++ b) ++ c)%string = (a ++ (b ++ c))%string.
Proof. induction a; simpl; congruence. Qed.

Lemma join_app l1 l2 : join (l1 ++ l2) = (join l1 ++ join l2)%string.
Proof.
  induction l1 as [|x l1 IH]; simpl; auto. now rewrite IH, append_assoc.
Qed.

End Strings.

(* ================================================================== *)
(** * The scanner *)

Section Scanner.

Lemma nonempty_length s : s <> "" <-> 1 <= String.length s.
Proof.
  destruct s; simpl; split; intros H; try congruence; try lia.
Qed.

Lemma match_alternatives_spec alts s k :
  match_alternatives alts s = Some k ->
  In k alts /\ prefix (lexeme k) s = true.
Proof.
  induction alts as [|a alts IH]; simpl; try discriminate.
  destruct (prefix (lexeme a) s) eqn:E; intros H.
  - injection H as <-. auto.
  - destruct (IH H); auto.
Qed.

Lemma lexical_nonempty k : In k lexical -> k <> TText /\ lexeme k <> "".
Proof.
  unfold lexical; simpl; intros H.
  repeat (destruct H as [<-|H]; [split; discriminate|]). contradiction.
Qed.

Lemma match_here_spec s k :
  match_here s = Some k ->
  prefix (lexeme k) s = true /\ k <> TText /\ lexeme k <> "".
Proof.
  intros H. apply match_alternatives_spec in H as [Hin Hp].
  destruct (lexical_nonempty _ Hin); auto.
Qed.

Lemma find_match_spec s : forall i k j,
  find_match s i = Some (k, j) ->
  exists d, j = i + d /\ match_here (drop d s) = Some k.
Proof.
  induction s as [|c s IH]; intros i k j; cbn [find_match].
  - cbv. discriminate.
  - destruct (match_here (String c s)) eqn:E.
    + intros H; injection H as <- <-. exists 0. simpl. split; [lia|assumption].
    + intros H. apply IH in H as (d & -> & Hd).
      exists (S d). simpl. split; [lia|assumption].
Qed.

Lemma exec_spec input lastIndex k j :
  exec input lastIndex = Some (k, j) ->
  lastIndex <= j
  /\ k <> TText
  /\ lexeme k <> ""
  /\ substr input j (String.length (lexeme k)) = lexeme k
  /\ j + String.length (lexeme k) <= String.length input.
Proof.
  unfold exec. destruct (String.length input <? lastIndex) eqn:E; try discriminate.
  rewrite substr_from_drop. intros H.
  apply find_match_spec in H as (d & -> & Hm).
  apply match_here_spec in Hm as (Hp & Hk & Hl).
  rewrite drop_drop in Hp.
  pose proof (prefix_length _ _ Hp) as Hlen. rewrite drop_length in Hlen.
  apply nonempty_length in Hl as Hl1.
  repeat split; auto; try lia.
  unfold substr. rewrite substring_drop. now apply prefix_take.
Qed.

Lemma exec_loop_ok fuel : forall input lastIndex matches,
  exec_loop fuel input lastIndex = Some matches ->
  matches_ok input lastIndex matches.
Proof.
  induction fuel as [|fuel IH]; intros input lastIndex matches; simpl;
    try discriminate.
  destruct (exec input lastIndex) as [[k j]|] eqn:E.
  - destruct (exec_loop fuel input (j + String.length (lexeme k))) as [ms|] eqn:L;
      try discriminate.
    intros H; injection H as <-.
    apply exec_spec in E as (H1 & H2 & H3 & H4 & H5).
    simpl. repeat split; auto.
  - intros H; injection H as <-. exact I.
Qed.

Lemma exec_loop_S fuel input lastIndex :
  exec_loop (S fuel) input lastIndex =
  match exec input lastIndex with
  | None => Some []
  | Some (k, index) =>
      match exec_loop fuel input (index + String.length (lexeme k)) with
      | None => None
      | Some matches =>
          Some ({| type := k; text := lexeme k; pos := index |} :: matches)
      end
  end.
Proof. reflexivity. Qed.

Lemma exec_loop_total fuel : forall input lastIndex,
  String.length input <= lastIndex + fuel ->
  exists matches, exec_loop (S fuel) input lastIndex = Some matches.
Proof.
  induction fuel as [|fuel IH]; intros input lastIndex Hf; rewrite exec_loop_S;
    (destruct (exec input lastIndex) as [[k j]|] eqn:E; [|eauto]);
    apply exec_spec in E as (H1 & H2 & H3 & H4 & H5);
    apply nonempty_length in H3.
  - lia.
  - destruct (IH input (j + String.length (lexeme k))) as [ms ->]; [lia|eauto].
Qed.

Lemma tiles_app input : forall l1 l2 a b c,
  tiles input a b l1 -> tiles input b c l2 -> tiles input a c (l1 ++ l2).
Proof.
  induction l1 as [|t l1 IH]; simpl; intros l2 a b c H1 H2.
  - now subst.
  - destruct H1 as (Hp & Hn & Hs & Ht). repeat split; auto. eapply IH; eauto.
Qed.

Lemma tiles_le input : forall l a b, tiles input a b l -> a <= b.
Proof.
  induction l as [|t l IH]; simpl; intros a b H.
  - lia.
  - destruct H as (_ & _ & _ & H). apply IH in H. lia.
Qed.

Lemma tiles_join input : forall l a b,
  tiles input a b l -> join (map text l) = substr input a (b - a).
Proof.
  induction l as [|t l IH]; simpl; intros a b H.
  - subst. rewrite Nat.sub_diag. unfold substr.
    rewrite substring_drop. now destruct (drop b input).
  - destruct H as (Hp & Hn & Hs & Ht).
    pose proof (tiles_le _ _ _ _ Ht) as Hle.
    rewrite (IH _ _ Ht). rewrite <- Hs at 1. rewrite substr_split.
    f_equal. lia.
Qed.

Lemma tiles_lower input : forall l a b,
  tiles input a b l -> Forall (fun p => a <= p) (map pos l).
Proof.
  induction l as [|t l IH]; simpl; intros a b H; constructor.
  - destruct H as (-> & _); lia.
  - destruct H as (_ & _ & _ & H). apply IH in H.
    eapply Forall_impl; [|exact H]. simpl; intros; lia.
Qed.

Lemma tiles_sorted input : forall l a b,
  tiles input a b l -> StronglySorted lt (map pos l).
Proof.
  induction l as [|t l IH]; simpl; intros a b H; constructor.
  - destruct H as (_ & _ & _ & H). eapply IH; eauto.
  - destruct H as (Hp & Hn & _ & H). apply tiles_lower in H.
    apply nonempty_length in Hn.
    eapply Forall_impl; [|exact H]. simpl; intros; lia.
Qed.

Lemma tiles_nonempty input : forall l a b,
  tiles input a b l -> Forall (fun t => text t <> "") l.
Proof.
  induction l as [|t l IH]; simpl; intros a b H; constructor.
  - tauto.
  - destruct H as (_ & _ & _ & H). eapply IH; eauto.
Qed.

Lemma tiles_text input start len :
  start + len <= String.length input -> 1 <= len ->
  tiles input start (start + len)
    [{| type := TText; text := substr input start len; pos := start |}].
Proof.
  intros H1 H2. simpl. rewrite substr_length by assumption.
  repeat split; auto.
  apply nonempty_length. rewrite substr_length; assumption.
Qed.

Lemma compile_fold_tiles input : forall matches out offset,
  matches_ok input offset matches ->
  tiles input 0 offset out ->
  offset <= String.length input ->
  exists tokens offset',
    fold_left (compile_step input) matches (out, offset) = (tokens, offset')
    /\ tiles input 0 offset' tokens
    /\ offset' <= String.length input.
Proof.
  induction matches as [|m ms IH]; simpl; intros out offset Hm Ht Ho.
  - eauto.
  - destruct Hm as (H1 & H2 & H3 & H4 & H5 & H6).
    apply IH; auto.
    assert (tiles input (pos m) (pos m + String.length (text m)) [m]) as Hone
      by (simpl; auto).
    destruct (offset <? pos m) eqn:E.
    + apply Nat.ltb_lt in E.
      rewrite <- app_assoc. eapply tiles_app; [exact Ht|].
      eapply tiles_app; [|exact Hone].
      pose proof (tiles_text input offset (pos m - offset)) as Htxt.
      replace (offset + (pos m - offset)) with (pos m) in Htxt by lia.
      apply Htxt; lia.
    + apply Nat.ltb_ge in E. assert (offset = pos m) as -> by lia.
      eapply tiles_app; eauto.
Qed.

Lemma compile_tiles input :
  exists tokens,
    compile input = Some tokens /\ tiles input 0 (String.length input) tokens.
Proof.
  unfold compile, compile_fuel.
  destruct (exec_loop_total (String.length input) input 0) as [ms E]; [lia|].
  rewrite E. apply exec_loop_ok in E.
  destruct (compile_fold_tiles input ms [] 0 E) as (tokens & offset & F & Ht & Ho);
    [reflexivity|lia|].
  rewrite F.
  destruct (offset <? String.length input) eqn:L.
  - apply Nat.ltb_lt in L. eexists; split; [reflexivity|].
    eapply tiles_app; [exact Ht|].
    rewrite substr_from_drop, <- (take_all (drop offset input)), <- substring_drop.
    rewrite drop_length.
    pose proof (tiles_text input offset (String.length input - offset)) as Htxt.
    replace (offset + (String.length input - offset)) with (String.length input)
      in Htxt by lia.
    apply Htxt; lia.
  - apply Nat.ltb_ge in L. assert (offset = String.length input) as <- by lia.
    eauto.
Qed.

End Scanner.

(* ================================================================== *)
(** * The parser *)

Section ParserFuel.

Lemma parseToken_S fuel token tokens :
  parseToken (S fuel) token tokens =
  match parser_for token with
  | parser_text => Some ([Text (text token)], tokens)
  | parser_link =>
      match link_loop fuel false [] [] tokens with
      | None => None
      | Some (pipe, pre, post, rest) => Some (link_result pipe pre post, rest)
      end
  | parser_until close wrap =>
      match until_loop fuel close [] tokens with
      | None => None
      | Some (childs, rest) => Some (until_result wrap childs, rest)
      end
  end.
Proof. reflexivity. Qed.

Lemma until_loop_S fuel close childs tokens :
  until_loop (S fuel) close childs tokens =
  match tokens with
  | [] => Some (childs, [])
  | x :: rest =>
      if TokenType_eqb (type x) close then Some (childs, rest)
      else
        match parseToken fuel x rest with
        | None => None
        | Some (parsed, rest') => until_loop fuel close (childs ++ parsed) rest'
        end
  end.
Proof. reflexivity. Qed.

Lemma link_loop_S fuel pipe pre post tokens :
  link_loop (S fuel) pipe pre post tokens =
  match tokens with
  | [] => Some (pipe, pre, post, [])
  | x :: rest =>
      if TokenType_eqb (type x) TPipe then link_loop fuel true pre post rest
      else if TokenType_eqb (type x) TLinkClose then Some (pipe, pre, post, rest)
      else
        match parseToken fuel x rest with
        | None => None
        | Some (parsed, rest') =>
            if pipe then link_loop fuel pipe pre (post ++ parsed) rest'
            else link_loop fuel pipe (pre ++ parsed) post rest'
        end
  end.
Proof. reflexivity. Qed.

Lemma parse_loop_S fuel out tokens :
  parse_loop (S fuel) out tokens =
  match tokens with
  | [] => Some out
  | x :: rest =>
      match parseToken fuel x rest with
      | None => None
      | Some (parsed, rest') => parse_loop fuel (out ++ parsed) rest'
      end
  end.
Proof. reflexivity. Qed.

(** More fuel never changes a result. *)
Lemma parser_mono fuel :
  (forall token tokens r, parseToken fuel token tokens = Some r ->
     forall fuel', fuel <= fuel' -> parseToken fuel' token tokens = Some r)
  /\ (forall close childs tokens r,
        until_loop fuel close childs tokens = Some r ->
        forall fuel', fuel <= fuel' ->
        until_loop fuel' close childs tokens = Some r)
  /\ (forall pipe pre post tokens r,
        link_loop fuel pipe pre post tokens = Some r ->
        forall fuel', fuel <= fuel' ->
        link_loop fuel' pipe pre post tokens = Some r).
Proof.
  induction fuel as [|fuel (IHp & IHu & IHl)].
  - repeat split; discriminate.
  - split; [|split].
    + intros token tokens r H [|fuel'] Hle; [lia|].
      rewrite parseToken_S in *.
      destruct (parser_for token) as [| |close wrap]; auto.
      * destruct (link_loop fuel false [] [] tokens) as [[[[p pre] post] rest]|] eqn:E;
          try discriminate.
        rewrite (IHl _ _ _ _ _ E fuel') by lia. exact H.
      * destruct (until_loop fuel close [] tokens) as [[cs rest]|] eqn:E;
          try discriminate.
        rewrite (IHu _ _ _ _ E fuel') by lia. exact H.
    + intros close childs tokens r H [|fuel'] Hle; [lia|].
      rewrite until_loop_S in *.
      destruct tokens as [|x rest]; auto.
      destruct (TokenType_eqb (type x) close); auto.
      destruct (parseToken fuel x rest) as [[parsed rest']|] eqn:E;
        try discriminate.
      rewrite (IHp _ _ _ E fuel') by lia. apply IHu; [exact H|lia].
    + intros pipe pre post tokens r H [|fuel'] Hle; [lia|].
      rewrite link_loop_S in *.
      destruct tokens as [|x rest]; auto.
      destruct (TokenType_eqb (type x) TPipe); [apply IHl; [exact H|lia]|].
      destruct (TokenType_eqb (type x) TLinkClose); auto.
      destruct (parseToken fuel x rest) as [[parsed rest']|] eqn:E;
        try discriminate.
      rewrite (IHp _ _ _ E fuel') by lia.
      destruct pipe; (apply IHl; [exact H|lia]).
Qed.

Lemma parseToken_mono fuel fuel' token tokens r :
  parseToken fuel token tokens = Some r -> fuel <= fuel' ->
  parseToken fuel' token tokens = Some r.
Proof. intros H Hle. exact (proj1 (parser_mono fuel) _ _ _ H fuel' Hle). Qed.

Lemma until_loop_mono fuel fuel' close childs tokens r :
  until_loop fuel close childs tokens = Some r -> fuel <= fuel' ->
  until_loop fuel' close childs tokens = Some r.
Proof.
  intros H Hle. exact (proj1 (proj2 (parser_mono fuel)) _ _ _ _ H fuel' Hle).
Qed.

Lemma link_loop_mono fuel fuel' pipe pre post tokens r :
  link_loop fuel pipe pre post tokens = Some r -> fuel <= fuel' ->
  link_loop fuel' pipe pre post tokens = Some r.
Proof.
  intros H Hle. exact (proj2 (proj2 (parser_mono fuel)) _ _ _ _ _ H fuel' Hle).
Qed.

Lemma parse_loop_mono fuel : forall fuel' out tokens r,
  parse_loop fuel out tokens = Some r -> fuel <= fuel' ->
  parse_loop fuel' out tokens = Some r.
Proof.
  induction fuel as [|fuel IH]; intros [|fuel'] out tokens r H Hle;
    try discriminate; try lia.
  rewrite parse_loop_S in *.
  destruct tokens as [|x rest]; auto.
  destruct (parseToken fuel x rest) as [[parsed rest']|] eqn:E; try discriminate.
  rewrite (parseToken_mono _ fuel' _ _ _ E) by lia. apply IH; [exact H|lia].
Qed.

(** Two units of fuel per token are enough, and no function gives back
    more tokens than it received. *)
Lemma parser_total n : forall tokens, List.length tokens <= n ->
  (forall fuel close childs, 2 * n + 1 <= fuel ->
     exists childs' rest,
       until_loop fuel close childs tokens = Some (childs', rest)
       /\ List.length rest <= List.length tokens)
  /\ (forall fuel pipe pre post, 2 * n + 1 <= fuel ->
        exists pipe' pre' post' rest,
          link_loop fuel pipe pre post tokens = Some (pipe', pre', post', rest)
          /\ List.length rest <= List.length tokens)
  /\ (forall fuel token, 2 * n + 2 <= fuel ->
        exists nodes rest,
          parseToken fuel token tokens = Some (nodes, rest)
          /\ List.length rest <= List.length tokens).
Proof.
  assert (Hstep : forall tokens,
    (forall fuel close childs, 2 * List.length tokens + 1 <= fuel ->
       exists childs' rest,
         until_loop fuel close childs tokens = Some (childs', rest)
         /\ List.length rest <= List.length tokens) ->
    (forall fuel pipe pre post, 2 * List.length tokens + 1 <= fuel ->
       exists pipe' pre' post' rest,
         link_loop fuel pipe pre post tokens = Some (pipe', pre', post', rest)
         /\ List.length rest <= List.length tokens) ->
    forall fuel token, 2 * List.length tokens + 2 <= fuel ->
      exists nodes rest,
        parseToken fuel token tokens = Some (nodes, rest)
        /\ List.length rest <= List.length tokens).
  { intros tokens Hu Hl [|fuel] token Hf; [lia|].
    rewrite parseToken_S. destruct (parser_for token) as [| |close wrap].
    - eauto.
    - destruct (Hl fuel false [] []) as (p & pre & post & rest & -> & Hr); [lia|].
      eauto.
    - destruct (Hu fuel close []) as (cs & rest & -> & Hr); [lia|]. eauto. }
  assert (Hall : forall m tokens, List.length tokens <= m ->
    (forall fuel close childs, 2 * List.length tokens + 1 <= fuel ->
       exists childs' rest,
         until_loop fuel close childs tokens = Some (childs', rest)
         /\ List.length rest <= List.length tokens)
    /\ (forall fuel pipe pre post, 2 * List.length tokens + 1 <= fuel ->
       exists pipe' pre' post' rest,
         link_loop fuel pipe pre post tokens = Some (pipe', pre', post', rest)
         /\ List.length rest <= List.length tokens)).
  { induction m as [|m IH]; intros tokens Hlen.
    - destruct tokens; [|simpl in Hlen; lia].
      split; intros [|fuel]; intros; try (simpl in *; lia).
      + rewrite until_loop_S; eauto.
      + rewrite link_loop_S; eauto 6.
    - destruct tokens as [|x rest].
      { split; intros [|fuel]; intros; try (simpl in *; lia).
        + rewrite until_loop_S; eauto.
        + rewrite link_loop_S; eauto 6. }
      simpl in Hlen.
      assert (Hp : forall fuel token, 2 * List.length rest + 2 <= fuel ->
        exists nodes rest',
          parseToken fuel token rest = Some (nodes, rest')
          /\ List.length rest' <= List.length rest).
      { destruct (IH rest) as [Hu Hl]; [lia|]. apply Hstep; assumption. }
      split.
      + intros [|fuel] close childs Hf; [lia|]. simpl in Hf.
        rewrite until_loop_S.
        destruct (TokenType_eqb (type x) close).
        { exists childs, rest. split; [reflexivity|simpl; lia]. }
        destruct (Hp fuel x) as (parsed & rest' & -> & Hr); [lia|].
        destruct (IH rest') as [Hu _]; [lia|].
        destruct (Hu fuel close (childs ++ parsed)) as (cs & rest'' & -> & Hr');
          [lia|].
        exists cs, rest''. split; [reflexivity|simpl; lia].
      + intros [|fuel] pipe pre post Hf; [lia|]. simpl in Hf.
        rewrite link_loop_S.
        destruct (TokenType_eqb (type x) TPipe).
        { destruct (IH rest) as [_ Hl]; [lia|].
          destruct (Hl fuel true pre post) as (p & pre' & post' & r & -> & Hr);
            [lia|].
          exists p, pre', post', r. split; [reflexivity|simpl; lia]. }
        destruct (TokenType_eqb (type x) TLinkClose).
        { exists pipe, pre, post, rest. split; [reflexivity|simpl; lia]. }
        destruct (Hp fuel x) as (parsed & rest' & -> & Hr); [lia|].
        destruct (IH rest') as [_ Hl]; [lia|].
        destruct pipe.
        * destruct (Hl fuel true pre (post ++ parsed))
            as (p & pre' & post' & r & -> & Hr'); [lia|].
          exists p, pre', post', r. split; [reflexivity|simpl; lia].
        * destruct (Hl fuel false (pre ++ parsed) post)
            as (p & pre' & post' & r & -> & Hr'); [lia|].
          exists p, pre', post', r. split; [reflexivity|simpl; lia]. }
  intros tokens Hlen.
  destruct (Hall n tokens Hlen) as [Hu Hl].
  split; [|split].
  - intros; apply Hu; lia.
  - intros; apply Hl; lia.
  - intros; apply Hstep; auto; lia.
Qed.

Lemma parseToken_total token tokens :
  exists nodes rest,
    parseToken (2 * List.length tokens + 2) token tokens = Some (nodes, rest)
    /\ List.length rest <= List.length tokens.
Proof.
  destruct (parser_total (List.length tokens) tokens (le_n _)) as (_ & _ & H).
  apply H; lia.
Qed.

Lemma parse_loop_total n : forall tokens out fuel,
  List.length tokens <= n -> 2 * n + 1 <= fuel ->
  exists out', parse_loop fuel out tokens = Some out'.
Proof.
  induction n as [|n IH]; intros tokens out [|fuel] Hlen Hf; try lia;
    rewrite parse_loop_S; destruct tokens as [|x rest]; eauto;
    simpl in Hlen; try lia.
  destruct (parseToken_total x rest) as (parsed & rest' & E & Hr).
  rewrite (parseToken_mono _ fuel _ _ _ E) by lia.
  apply IH; lia.
Qed.

End ParserFuel.

Section ParserRules.

(** The relations are functional, and unfold like the source reads. *)

Lemma parses_det token tokens r r' :
  parses token tokens r -> parses token tokens r' -> r = r'.
Proof.
  intros [f H] [f' H'].
  apply (parseToken_mono _ (Nat.max f f')) in H; [|lia].
  apply (parseToken_mono _ (Nat.max f f')) in H'; [|lia]. congruence.
Qed.

Lemma parses_length token tokens nodes rest :
  parses token tokens (nodes, rest) -> List.length rest <= List.length tokens.
Proof.
  intros H. destruct (parseToken_total token tokens) as (nodes' & rest' & E & Hr).
  assert (parses token tokens (nodes', rest')) as H' by (eexists; exact E).
  pose proof (parses_det _ _ _ _ H H') as Heq. congruence.
Qed.

Lemma parses_unfold token tokens r :
  parses token tokens r <->
  match parser_for token with
  | parser_text => r = ([Text (text token)], tokens)
  | parser_link =>
      exists pipe pre post rest,
        links false [] [] tokens (pipe, pre, post, rest)
        /\ r = (link_result pipe pre post, rest)
  | parser_until close wrap =>
      exists childs rest,
        untils close [] tokens (childs, rest)
        /\ r = (until_result wrap childs, rest)
  end.
Proof.
  split.
  - intros [[|f] H]; [discriminate|]. rewrite parseToken_S in H.
    destruct (parser_for token) as [| |close wrap].
    + congruence.
    + destruct (link_loop f false [] [] tokens) as [[[[p pre] post] rest]|] eqn:E;
        try discriminate.
      exists p, pre, post, rest. split; [eexists; exact E|congruence].
    + destruct (until_loop f close [] tokens) as [[cs rest]|] eqn:E;
        try discriminate.
      exists cs, rest. split; [eexists; exact E|congruence].
  - destruct (parser_for token) as [| |close wrap] eqn:P.
    + intros ->. exists 1. rewrite parseToken_S, P. reflexivity.
    + intros (p & pre & post & rest & [f E] & ->).
      exists (S f). rewrite parseToken_S, P, E. reflexivity.
    + intros (cs & rest & [f E] & ->).
      exists (S f). rewrite parseToken_S, P, E. reflexivity.
Qed.

Lemma untils_nil close childs r :
  untils close childs [] r <-> r = (childs, []).
Proof.
  split.
  - intros [[|f] H]; [discriminate|]. rewrite until_loop_S in H. congruence.
  - intros ->. exists 1. reflexivity.
Qed.

Lemma untils_close close childs x rest r :
  TokenType_eqb (type x) close = true ->
  untils close childs (x :: rest) r <-> r = (childs, rest).
Proof.
  intros Hx. split.
  - intros [[|f] H]; [discriminate|]. rewrite until_loop_S, Hx in H. congruence.
  - intros ->. exists 1. rewrite until_loop_S, Hx. reflexivity.
Qed.

Lemma untils_step close childs x rest r :
  TokenType_eqb (type x) close = false ->
  untils close childs (x :: rest) r <->
  exists parsed rest',
    parses x rest (parsed, rest') /\ untils close (childs ++ parsed) rest' r.
Proof.
  intros Hx. split.
  - intros [[|f] H]; [discriminate|]. rewrite until_loop_S, Hx in H.
    destruct (parseToken f x rest) as [[parsed rest']|] eqn:E; try discriminate.
    exists parsed, rest'. split; eexists; eauto.
  - intros (parsed & rest' & [f E] & [f' H]).
    exists (S (Nat.max f f')). rewrite until_loop_S, Hx.
    rewrite (parseToken_mono _ (Nat.max f f') _ _ _ E) by lia.
    apply (until_loop_mono f'); [exact H|lia].
Qed.

Lemma links_nil pipe pre post r :
  links pipe pre post [] r <-> r = (pipe, pre, post, []).
Proof.
  split.
  - intros [[|f] H]; [discriminate|]. rewrite link_loop_S in H. congruence.
  - intros ->. exists 1. reflexivity.
Qed.

Lemma links_pipe pipe pre post x rest r :
  TokenType_eqb (type x) TPipe = true ->
  links pipe pre post (x :: rest) r <-> links true pre post rest r.
Proof.
  intros Hx. split.
  - intros [[|f] H]; [discriminate|]. rewrite link_loop_S, Hx in H.
    eexists; exact H.
  - intros [f H]. exists (S f). rewrite link_loop_S, Hx. exact H.
Qed.

Lemma links_close pipe pre post x rest r :
  TokenType_eqb (type x) TPipe = false ->
  TokenType_eqb (type x) TLinkClose = true ->
  links pipe pre post (x :: rest) r <-> r = (pipe, pre, post, rest).
Proof.
  intros Hp Hx. split.
  - intros [[|f] H]; [discriminate|]. rewrite link_loop_S, Hp, Hx in H.
    congruence.
  - intros ->. exists 1. rewrite link_loop_S, Hp, Hx. reflexivity.
Qed.

Lemma links_step pipe pre post x rest r :
  TokenType_eqb (type x) TPipe = false ->
  TokenType_eqb (type x) TLinkClose = false ->
  links pipe pre post (x :: rest) r <->
  exists parsed rest',
    parses x rest (parsed, rest')
    /\ links pipe (if pipe then pre else pre ++ parsed)
             (if pipe then post ++ parsed else post) rest' r.
Proof.
  intros Hp Hx. split.
  - intros [[|f] H]; [discriminate|]. rewrite link_loop_S, Hp, Hx in H.
    destruct (parseToken f x rest) as [[parsed rest']|] eqn:E; try discriminate.
    exists parsed, rest'. split; [eexists; eauto|].
    destruct pipe; eexists; eauto.
  - intros (parsed & rest' & [f E] & [f' H]).
    exists (S (Nat.max f f')). rewrite link_loop_S, Hp, Hx.
    rewrite (parseToken_mono _ (Nat.max f f') _ _ _ E) by lia.
    destruct pipe; (apply (link_loop_mono f'); [exact H|lia]).
Qed.

Lemma tops_nil out r : tops out [] r <-> r = out.
Proof.
  split.
  - intros [[|f] H]; [discriminate|]. rewrite parse_loop_S in H. congruence.
  - intros ->. exists 1. reflexivity.
Qed.

Lemma tops_step out x rest r :
  tops out (x :: rest) r <->
  exists parsed rest',
    parses x rest (parsed, rest') /\ tops (out ++ parsed) rest' r.
Proof.
  split.
  - intros [[|f] H]; [discriminate|]. rewrite parse_loop_S in H.
    destruct (parseToken f x rest) as [[parsed rest']|] eqn:E; try discriminate.
    exists parsed, rest'. split; eexists; eauto.
  - intros (parsed & rest' & [f E] & [f' H]).
    exists (S (Nat.max f f')). rewrite parse_loop_S.
    rewrite (parseToken_mono _ (Nat.max f f') _ _ _ E) by lia.
    apply (parse_loop_mono f'); [exact H|lia].
Qed.

(** [parse] is [tops] from the empty list. *)
Lemma parse_tops tokens out :
  parse tokens = Some (Sentence out) <-> tops [] tokens out.
Proof.
  unfold parse, parse_fuel. split.
  - destruct (parse_loop _ [] tokens) as [o|] eqn:E; try discriminate.
    intros H; injection H as <-. eexists; exact E.
  - intros [f H].
    destruct (parse_loop_total (List.length tokens) tokens []
                (2 * List.length tokens + 2) (le_n _)) as [o E]; [lia|].
    rewrite E.
    apply (parse_loop_mono _ (Nat.max f (2 * List.length tokens + 2))) in H;
      [|lia].
    apply (parse_loop_mono _ (Nat.max f (2 * List.length tokens + 2))) in E;
      [|lia].
    congruence.
Qed.

(** The accumulator of the top loop is only ever appended to. *)
Lemma tops_shift n : forall tokens, List.length tokens <= n ->
  forall out out' r, tops out tokens r -> tops (out' ++ out) tokens (out' ++ r).
Proof.
  induction n as [|n IH]; intros [|x rest] Hlen out out' r H;
    try (simpl in Hlen; lia).
  - apply tops_nil in H as ->. now apply tops_nil.
  - apply tops_nil in H as ->. now apply tops_nil.
  - apply tops_step in H as (parsed & rest' & Hp & Ht).
    apply tops_step. exists parsed, rest'. split; [assumption|].
    rewrite <- app_assoc. apply IH; [|assumption].
    apply parses_length in Hp. simpl in Hlen. lia.
Qed.

End ParserRules.

Section Closing.

Lemma TokenType_eqb_refl k : TokenType_eqb k k = true.
Proof. destruct k; reflexivity. Qed.

Lemma parser_until_close token close wrap :
  parser_for token = parser_until close wrap -> is_close_type close = true.
Proof.
  unfold parser_for, parsers.
  destruct (type token); intros H; inversion H; reflexivity.
Qed.

Lemma map_type_nil (cs : list Token) : map type cs = [] -> cs = [].
Proof. destruct cs; simpl; congruence. Qed.

Lemma map_type_one (cs : list Token) k :
  map type cs = [k] -> exists c, cs = [c] /\ type c = k.
Proof.
  destruct cs as [|c [|d cs]]; simpl; try discriminate.
  intros H; injection H as <-. eauto.
Qed.

Lemma map_type_app (cs : list Token) ks1 ks2 :
  map type cs = ks1 ++ ks2 ->
  exists cs1 cs2, cs = cs1 ++ cs2 /\ map type cs1 = ks1 /\ map type cs2 = ks2.
Proof. intros H. apply map_eq_app in H. exact H. Qed.

Lemma closes_parse_of_loops tokens :
  closes_until tokens -> closes_link tokens -> closes_parse tokens.
Proof.
  intros Hu Hl token nodes rest H.
  apply parses_unfold in H.
  destruct (parser_for token) as [| |close wrap] eqn:P.
  - injection H as -> ->. exists []. split; [reflexivity|].
    intros cs extra Hcs. apply map_type_nil in Hcs as ->. simpl.
    apply parses_unfold. rewrite P. reflexivity.
  - destruct H as (p & pre & post & rest0 & Hlk & Heq). injection Heq as -> ->.
    destruct (Hl _ _ _ _ _ _ _ Hlk) as (ks & Hks & Hcl).
    exists ks. split; [assumption|]. intros cs extra Hcs.
    apply parses_unfold. rewrite P. eauto 8.
  - destruct H as (childs & rest0 & Hun & Heq). injection Heq as -> ->.
    destruct (Hu _ _ _ _ (parser_until_close _ _ _ P) Hun) as (ks & Hks & Hcl).
    exists ks. split; [assumption|]. intros cs extra Hcs.
    apply parses_unfold. rewrite P. eauto 8.
Qed.

Lemma closes_loops n : forall tokens, List.length tokens <= n ->
  closes_until tokens /\ closes_link tokens.
Proof.
  induction n as [|n IH]; intros tokens Hlen.
  - destruct tokens; [|simpl in Hlen; lia]. split.
    + intros close childs childs' rest Hc H.
      apply untils_nil in H. injection H as -> ->.
      exists [close]. split; [simpl; now rewrite Hc|].
      intros cs extra Hcs. apply map_type_one in Hcs as (c & -> & Hty). simpl.
      apply untils_close; [|reflexivity]. subst. apply TokenType_eqb_refl.
    + intros pipe pre post pipe' pre' post' rest H.
      apply links_nil in H. injection H as -> -> -> ->.
      exists [TLinkClose]. split; [reflexivity|].
      intros cs extra Hcs. apply map_type_one in Hcs as (c & -> & Hty). simpl.
      apply links_close; rewrite ?Hty; reflexivity.
  - destruct tokens as [|x rest0]; [apply IH; simpl; lia|].
    simpl in Hlen.
    assert (Hp : closes_parse rest0)
      by (destruct (IH rest0); [lia|]; now apply closes_parse_of_loops).
    split.
    + intros close childs childs' rest Hc H.
      destruct (TokenType_eqb (type x) close) eqn:Hx.
      * apply untils_close in H; [|assumption]. injection H as -> ->.
        exists []. split; [reflexivity|].
        intros cs extra Hcs. apply map_type_nil in Hcs as ->. simpl.
        now apply untils_close.
      * apply untils_step in H as (parsed & rest1 & Hx1 & Hu1); [|assumption].
        destruct (Hp _ _ _ Hx1) as (ks1 & Hks1 & Hcl1).
        pose proof (parses_length _ _ _ _ Hx1) as Hr1.
        destruct (IH rest1) as [Hu _]; [lia|].
        destruct (Hu _ _ _ _ Hc Hu1) as (ks2 & Hks2 & Hcl2).
        exists (ks1 ++ ks2). split; [rewrite forallb_app, Hks1, Hks2; reflexivity|].
        intros cs extra Hcs.
        apply map_type_app in Hcs as (cs1 & cs2 & -> & H1 & H2).
        rewrite <- app_assoc. simpl. apply untils_step; [assumption|].
        exists parsed, (rest1 ++ cs2 ++ extra). split; auto.
    + intros pipe pre post pipe' pre' post' rest H.
      destruct (TokenType_eqb (type x) TPipe) eqn:Hpipe.
      * apply links_pipe in H; [|assumption].
        destruct (IH rest0) as [_ Hl]; [lia|].
        destruct (Hl _ _ _ _ _ _ _ H) as (ks & Hks & Hcl).
        exists ks. split; [assumption|]. intros cs extra Hcs. simpl.
        apply links_pipe; auto.
      * destruct (TokenType_eqb (type x) TLinkClose) eqn:Hx.
        -- apply links_close in H; [|assumption|assumption].
           injection H as -> -> -> ->.
           exists []. split; [reflexivity|].
           intros cs extra Hcs. apply map_type_nil in Hcs as ->. simpl.
           now apply links_close.
        -- apply links_step in H as (parsed & rest1 & Hx1 & Hl1);
             [|assumption|assumption].
           destruct (Hp _ _ _ Hx1) as (ks1 & Hks1 & Hcl1).
           pose proof (parses_length _ _ _ _ Hx1) as Hr1.
           destruct (IH rest1) as [_ Hl]; [lia|].
           destruct (Hl _ _ _ _ _ _ _ Hl1) as (ks2 & Hks2 & Hcl2).
           exists (ks1 ++ ks2).
           split; [rewrite forallb_app, Hks1, Hks2; reflexivity|].
           intros cs extra Hcs.
           apply map_type_app in Hcs as (cs1 & cs2 & -> & H1 & H2).
           rewrite <- app_assoc. simpl. apply links_step; [assumption..|].
           exists parsed, (rest1 ++ cs2 ++ extra). split; auto.
Qed.

Lemma closes_parse_all tokens : closes_parse tokens.
Proof.
  destruct (closes_loops (List.length tokens) tokens (le_n _)).
  now apply closes_parse_of_loops.
Qed.

Lemma closes_top n : forall tokens, List.length tokens <= n ->
  forall out r, tops out tokens r ->
  exists ks, forallb is_close_type ks = true /\
    forall cs extra r', map type cs = ks ->
      tops r extra r' -> tops out (tokens ++ cs ++ extra) r'.
Proof.
  induction n as [|n IH]; intros [|x rest0] Hlen out r H;
    try (simpl in Hlen; lia).
  - apply tops_nil in H as ->. exists []. split; [reflexivity|].
    intros cs extra r' Hcs. apply map_type_nil in Hcs as ->. auto.
  - apply tops_nil in H as ->. exists []. split; [reflexivity|].
    intros cs extra r' Hcs. apply map_type_nil in Hcs as ->. auto.
  - apply tops_step in H as (parsed & rest1 & Hx1 & Ht1).
    destruct (closes_parse_all rest0 _ _ _ Hx1) as (ks1 & Hks1 & Hcl1).
    pose proof (parses_length _ _ _ _ Hx1) as Hr1. simpl in Hlen.
    destruct (IH rest1 ltac:(lia) _ _ Ht1) as (ks2 & Hks2 & Hcl2).
    exists (ks1 ++ ks2). split; [rewrite forallb_app, Hks1, Hks2; reflexivity|].
    intros cs extra r' Hcs Hex.
    apply map_type_app in Hcs as (cs1 & cs2 & -> & H1 & H2).
    rewrite <- app_assoc. simpl. apply tops_step.
    exists parsed, (rest1 ++ cs2 ++ extra). split; auto.
Qed.

End Closing.

(* ================================================================== *)
(** * Rendering to text *)

Section Rendering.

Lemma transform_fold (f : Node -> string) : forall cs acc,
  fold_left
    (fun out child => (out ++ (if truthy out then "" else "") ++ f child)%string)
    cs acc = (acc ++ join (map f cs))%string.
Proof.
  induction cs as [|c cs IH]; intros acc; simpl.
  - now rewrite append_empty_r.
  - rewrite IH. destruct (truthy acc); simpl; now rewrite append_assoc.
Qed.

Lemma transform_join f cs : transform f "" cs = join (map f cs).
Proof. unfold transform. now rewrite transform_fold. Qed.

(** The text of a list of siblings. *)
Lemma toText_childs n :
  isNodeWithChilds n = true -> toText n = join (map toText (childs_of n)).
Proof. destruct n; simpl; try discriminate; intros _; apply transform_join. Qed.

Lemma toText_set_childs n cs :
  isNodeWithChilds n = true -> toText (set_childs n cs) = join (map toText cs).
Proof. destruct n; simpl; try discriminate; intros _; apply transform_join. Qed.

Lemma texts_app l1 l2 :
  join (map toText (l1 ++ l2))
  = (join (map toText l1) ++ join (map toText l2))%string.
Proof. now rewrite map_app, join_app. Qed.

End Rendering.

(* ================================================================== *)
(** * The optimizer *)

Section OptimizerFuel.

Lemma optimize_Text fuel conf ctx s :
  optimize fuel conf ctx (Text s) = Some (Text s).
Proof. destruct fuel; reflexivity. Qed.

Lemma optimize_S fuel conf context ast :
  isNodeWithChilds ast = true ->
  optimize (S fuel) conf context ast =
  let ctx := enter conf context ast in
  let opt := optimize fuel conf ctx in
  match map_nodes opt (flatten ctx (childs_of ast)) with
  | None => None
  | Some childs =>
      match reduce (_optimize_combine opt conf CText) childs [] with
      | None => None
      | Some childs =>
          match reduce (_optimize_combine opt conf CItalic) childs [] with
          | None => None
          | Some childs =>
              match reduce (_optimize_combine opt conf CBold) childs [] with
              | None => None
              | Some childs => Some (set_childs ast childs)
              end
          end
      end
  end.
Proof. destruct ast; try discriminate; reflexivity. Qed.

Lemma optimize_O conf context ast :
  isNodeWithChilds ast = true -> optimize 0 conf context ast = None.
Proof. destruct ast; try discriminate; reflexivity. Qed.

Lemma flatten_fold ctx : forall l acc,
  fold_left
    (fun out node =>
       if nested ctx node then out ++ childs_of node else out ++ [node])
    l acc
  = acc ++ flat_map (fun n => if nested ctx n then childs_of n else [n]) l.
Proof.
  induction l as [|n l IH]; intros acc; simpl.
  - now rewrite app_nil_r.
  - rewrite IH. destruct (nested ctx n); now rewrite <- app_assoc.
Qed.

Lemma flatten_flat_map ctx l :
  flatten ctx l = flat_map (fun n => if nested ctx n then childs_of n else [n]) l.
Proof. unfold flatten. now rewrite flatten_fold. Qed.

Lemma flatten_cons ctx n l :
  flatten ctx (n :: l)
  = (if nested ctx n then childs_of n else [n]) ++ flatten ctx l.
Proof. now rewrite !flatten_flat_map. Qed.

Lemma flatten_app ctx l1 l2 :
  flatten ctx (l1 ++ l2) = flatten ctx l1 ++ flatten ctx l2.
Proof. rewrite !flatten_flat_map. apply flat_map_app. Qed.

Lemma nested_container ctx n : nested ctx n = true -> isNodeWithChilds n = true.
Proof.
  unfold nested. destruct n; simpl; auto.
  rewrite !andb_false_r. discriminate.
Qed.

Lemma last_node_spec out last :
  last_node out = Some last -> out = removelast out ++ [last].
Proof.
  unfold last_node. intros H.
  destruct (rev out) as [|n r] eqn:E; try discriminate. injection H as ->.
  assert (out = rev r ++ [last]) as ->
    by (rewrite <- (rev_involutive out), E; reflexivity).
  now rewrite removelast_last.
Qed.

Lemma sizes_app l1 l2 : sizes (l1 ++ l2) = sizes l1 + sizes l2.
Proof. induction l1; simpl; auto. unfold sizes in *. simpl. lia. Qed.

Lemma sizes_cons n l : sizes (n :: l) = size n + sizes l.
Proof. reflexivity. Qed.

Lemma size_container n :
  isNodeWithChilds n = true -> size n = S (sizes (childs_of n)).
Proof. destruct n; try discriminate; reflexivity. Qed.

Lemma size_set_childs n cs :
  isNodeWithChilds n = true -> size (set_childs n cs) = S (sizes cs).
Proof. destruct n; try discriminate; reflexivity. Qed.

Lemma size_pos n : 1 <= size n.
Proof. destruct n; simpl; lia. Qed.

Lemma sizes_flatten ctx l : sizes (flatten ctx l) <= sizes l.
Proof.
  induction l as [|n l IH]; [reflexivity|].
  rewrite flatten_cons, sizes_app, sizes_cons.
  destruct (nested ctx n) eqn:E.
  - apply nested_container in E. rewrite (size_container _ E). lia.
  - rewrite sizes_cons. simpl. lia.
Qed.

Lemma texts_flatten ctx l :
  join (map toText (flatten ctx l)) = join (map toText l).
Proof.
  induction l as [|n l IH]; [reflexivity|].
  rewrite flatten_cons, texts_app, IH. simpl.
  destruct (nested ctx n) eqn:E.
  - apply nested_container in E. now rewrite (toText_childs _ E).
  - simpl. now rewrite append_empty_r.
Qed.

Lemma combine_size classy a b :
  size (combine classy a b) <= size a + size b.
Proof.
  destruct classy, a, b; simpl; try lia;
    fold (sizes (childs ++ childs0)); rewrite sizes_app;
    fold (sizes childs); fold (sizes childs0); lia.
Qed.

Lemma combine_text classy a b :
  instanceof a classy = true -> instanceof b classy = true ->
  toText (combine classy a b) = (toText a ++ toText b)%string.
Proof.
  destruct classy, a, b; simpl; try discriminate; intros _ _; auto;
    rewrite !transform_join; apply texts_app.
Qed.

Section Reducers.

Variable conf : Conf.
Variable opt : Node -> option Node.

(** What is known of the recursive call while the lists are processed. *)
Variable bound : nat.
Hypothesis opt_total : forall n, size n <= bound ->
  exists n', opt n = Some n' /\ size n' <= size n.

Lemma map_nodes_total : forall l, sizes l <= bound ->
  exists l', map_nodes opt l = Some l' /\ sizes l' <= sizes l.
Proof.
  induction l as [|n l IH]; intros H; simpl.
  - eauto.
  - rewrite sizes_cons in H.
    destruct (opt_total n) as (n' & -> & Hn); [lia|].
    destruct IH as (l' & -> & Hl); [lia|].
    eexists; split; [reflexivity|]. rewrite !sizes_cons. lia.
Qed.

Lemma combine_step_total classy out node :
  sizes out + size node <= bound ->
  exists out', _optimize_combine opt conf classy out node = Some out'
    /\ sizes out' <= sizes out + size node.
Proof.
  intros H. unfold _optimize_combine.
  assert (Hkeep : sizes (out ++ [node]) <= sizes out + size node)
    by (rewrite sizes_app, sizes_cons; simpl; lia).
  destruct (skip_class conf classy); [eauto|].
  destruct (last_node out) as [last|] eqn:L; [|eauto].
  destruct (instanceof last classy && instanceof node classy); [|eauto].
  apply last_node_spec in L.
  assert (Hout : sizes out = sizes (removelast out) + size last).
  { rewrite L at 1. rewrite sizes_app, sizes_cons. simpl. lia. }
  pose proof (combine_size classy last node) as Hc.
  destruct (opt_total (combine classy last node)) as (m & -> & Hm); [lia|].
  eexists; split; [reflexivity|].
  rewrite sizes_app, sizes_cons. simpl. lia.
Qed.

Lemma reduce_total classy : forall l out,
  sizes out + sizes l <= bound ->
  exists out', reduce (_optimize_combine opt conf classy) l out = Some out'
    /\ sizes out' <= sizes out + sizes l.
Proof.
  induction l as [|n l IH]; intros out H; cbn [reduce].
  - eexists; split; [reflexivity|]. lia.
  - rewrite sizes_cons in *.
    destruct (combine_step_total classy out n) as (out1 & -> & H1); [lia|].
    destruct (IH out1) as (out' & -> & H'); [lia|].
    eexists; split; [reflexivity|]. lia.
Qed.

End Reducers.

Section ReducersText.

Variable conf : Conf.
Variable opt : Node -> option Node.
Hypothesis opt_text : forall n n', opt n = Some n' -> toText n' = toText n.

Lemma map_nodes_text : forall l l',
  map_nodes opt l = Some l' -> join (map toText l') = join (map toText l).
Proof.
  induction l as [|n l IH]; simpl; intros l' H.
  - now injection H as <-.
  - destruct (opt n) as [n'|] eqn:E; try discriminate.
    destruct (map_nodes opt l) as [r|] eqn:M; try discriminate.
    injection H as <-. simpl. now rewrite (opt_text _ _ E), (IH _ eq_refl).
Qed.

Lemma combine_step_text classy out node out' :
  _optimize_combine opt conf classy out node = Some out' ->
  join (map toText out') = (join (map toText out) ++ toText node)%string.
Proof.
  unfold _optimize_combine.
  assert (Hkeep : join (map toText (out ++ [node]))
                  = (join (map toText out) ++ toText node)%string)
    by (rewrite texts_app; simpl; now rewrite append_empty_r).
  destruct (skip_class conf classy); [congruence|].
  destruct (last_node out) as [last|] eqn:L; [|congruence].
  destruct (instanceof last classy) eqn:I1; simpl; [|congruence].
  destruct (instanceof node classy) eqn:I2; [|congruence].
  destruct (opt (combine classy last node)) as [m|] eqn:E; try discriminate.
  intros H; injection H as <-.
  apply last_node_spec in L. rewrite L at 2.
  rewrite !texts_app. simpl.
  rewrite (opt_text _ _ E), (combine_text _ _ _ I1 I2).
  now rewrite !append_empty_r, append_assoc.
Qed.

Lemma reduce_text classy : forall l out out',
  reduce (_optimize_combine opt conf classy) l out = Some out' ->
  join (map toText out')
  = (join (map toText out) ++ join (map toText l))%string.
Proof.
  induction l as [|n l IH]; simpl; intros out out' H.
  - injection H as <-. now rewrite append_empty_r.
  - destruct (_optimize_combine opt conf classy out n) as [o|] eqn:E;
      try discriminate.
    rewrite (IH _ _ H), (combine_step_text _ _ _ _ E). apply append_assoc.
Qed.

End ReducersText.

Section ReducersMono.

Variable conf : Conf.
Variables opt opt' : Node -> option Node.
Hypothesis opt_le : forall n n', opt n = Some n' -> opt' n = Some n'.

Lemma map_nodes_mono : forall l l',
  map_nodes opt l = Some l' -> map_nodes opt' l = Some l'.
Proof.
  induction l as [|n l IH]; simpl; intros l' H; auto.
  destruct (opt n) as [n'|] eqn:E; try discriminate.
  destruct (map_nodes opt l) as [r|] eqn:M; try discriminate.
  now rewrite (opt_le _ _ E), (IH _ eq_refl).
Qed.

Lemma combine_step_mono classy out node out' :
  _optimize_combine opt conf classy out node = Some out' ->
  _optimize_combine opt' conf classy out node = Some out'.
Proof.
  unfold _optimize_combine.
  destruct (skip_class conf classy); auto.
  destruct (last_node out) as [last|]; auto.
  destruct (instanceof last classy && instanceof node classy); auto.
  destruct (opt (combine classy last node)) as [m|] eqn:E; try discriminate.
  now rewrite (opt_le _ _ E).
Qed.

Lemma reduce_mono classy : forall l out out',
  reduce (_optimize_combine opt conf classy) l out = Some out' ->
  reduce (_optimize_combine opt' conf classy) l out = Some out'.
Proof.
  induction l as [|n l IH]; simpl; intros out out' H; auto.
  destruct (_optimize_combine opt conf classy out n) as [o|] eqn:E;
    try discriminate.
  rewrite (combine_step_mono _ _ _ _ E). auto.
Qed.

End ReducersMono.

Lemma optimize_mono fuel : forall fuel' conf ctx t t',
  optimize fuel conf ctx t = Some t' -> fuel <= fuel' ->
  optimize fuel' conf ctx t = Some t'.
Proof.
  induction fuel as [|fuel IH]; intros fuel' conf ctx t t' H Hle.
  - destruct (isNodeWithChilds t) eqn:C.
    + now rewrite optimize_O in H.
    + destruct t; try discriminate. now rewrite optimize_Text in *.
  - destruct (isNodeWithChilds t) eqn:C.
    + destruct fuel' as [|fuel']; [lia|].
      rewrite optimize_S in * by assumption. cbv zeta in *.
      set (opt := optimize fuel conf (enter conf ctx t)) in *.
      set (opt' := optimize fuel' conf (enter conf ctx t)).
      assert (Hopt : forall n n', opt n = Some n' -> opt' n = Some n')
        by (intros n n' Hn; apply (IH fuel'); [exact Hn|lia]).
      destruct (map_nodes opt _) as [c0|] eqn:E0; try discriminate.
      rewrite (map_nodes_mono _ _ Hopt _ _ E0).
      destruct (reduce _ c0 []) as [c1|] eqn:E1; try discriminate.
      rewrite (reduce_mono conf _ _ Hopt _ _ _ _ E1).
      destruct (reduce _ c1 []) as [c2|] eqn:E2; try discriminate.
      rewrite (reduce_mono conf _ _ Hopt _ _ _ _ E2).
      destruct (reduce _ c2 []) as [c3|] eqn:E3; try discriminate.
      rewrite (reduce_mono conf _ _ Hopt _ _ _ _ E3).
      exact H.
    + destruct t; try discriminate. now rewrite optimize_Text in *.
Qed.

Lemma optimize_total fuel : forall conf ctx t, size t <= fuel ->
  exists t', optimize fuel conf ctx t = Some t' /\ size t' <= size t.
Proof.
  induction fuel as [|fuel IH]; intros conf ctx t Hs.
  - pose proof (size_pos t). lia.
  - destruct (isNodeWithChilds t) eqn:C.
    + rewrite optimize_S by assumption. cbv zeta.
      rewrite (size_container _ C) in Hs.
      set (opt := optimize fuel conf (enter conf ctx t)).
      assert (Hopt : forall n, size n <= fuel ->
                exists n', opt n = Some n' /\ size n' <= size n)
        by (intros; apply IH; assumption).
      pose proof (sizes_flatten (enter conf ctx t) (childs_of t)) as Hf.
      destruct (map_nodes_total opt fuel Hopt
                  (flatten (enter conf ctx t) (childs_of t)))
        as (c0 & -> & H0); [lia|].
      destruct (reduce_total conf opt fuel Hopt CText c0 [])
        as (c1 & -> & H1); [change (sizes []) with 0; lia|].
      destruct (reduce_total conf opt fuel Hopt CItalic c1 [])
        as (c2 & -> & H2); [change (sizes []) with 0 in *; lia|].
      destruct (reduce_total conf opt fuel Hopt CBold c2 [])
        as (c3 & -> & H3); [change (sizes []) with 0 in *; lia|].
      eexists; split; [reflexivity|].
      rewrite (size_set_childs _ _ C), (size_container _ C).
      change (sizes []) with 0 in *. lia.
    + destruct t; try discriminate. rewrite optimize_Text. eauto.
Qed.

Lemma optimize_text fuel : forall conf ctx t t',
  optimize fuel conf ctx t = Some t' -> toText t' = toText t.
Proof.
  induction fuel as [|fuel IH]; intros conf ctx t t' H.
  - destruct (isNodeWithChilds t) eqn:C.
    + now rewrite optimize_O in H.
    + destruct t; try discriminate. rewrite optimize_Text in H. congruence.
  - destruct (isNodeWithChilds t) eqn:C.
    + rewrite optimize_S in H by assumption. cbv zeta in H.
      set (opt := optimize fuel conf (enter conf ctx t)) in *.
      assert (Hopt : forall n n', opt n = Some n' -> toText n' = toText n)
        by (intros n n' Hn; eapply IH; exact Hn).
      destruct (map_nodes opt _) as [c0|] eqn:E0; try discriminate.
      destruct (reduce _ c0 []) as [c1|] eqn:E1; try discriminate.
      destruct (reduce _ c1 []) as [c2|] eqn:E2; try discriminate.
      destruct (reduce _ c2 []) as [c3|] eqn:E3; try discriminate.
      injection H as <-.
      rewrite (toText_set_childs _ _ C), (toText_childs _ C).
      rewrite (reduce_text conf opt Hopt _ _ _ _ E3). simpl.
      rewrite (reduce_text conf opt Hopt _ _ _ _ E2). simpl.
      rewrite (reduce_text conf opt Hopt _ _ _ _ E1). simpl.
      rewrite (map_nodes_text opt Hopt _ _ E0).
      apply texts_flatten.
    + destruct t; try discriminate. rewrite optimize_Text in H. congruence.
Qed.

End OptimizerFuel.

(* ================================================================== *)
(** * Properties of the specification *)

(** ** The link parser *)

(** C1.  The link rule.  Once the loop of the link parser has ended with
    the flag [pipe], the target expression [pre] and the display expression
    [post], the parser returns, checked in this order: nothing when a pipe
    was seen and [post] is empty; otherwise, with the display nodes being
    [post] when a pipe was seen and [pre] when not, the display nodes as
    they are when [pre] is empty, and else exactly one [Link] whose target
    is the concatenated text of the nodes of [pre] and whose children are
    the display nodes. *)
Theorem link_open_rule :
  forall fuel token tokens pipe pre post rest,
    type token = TLinkOpen ->
    link_loop fuel false [] [] tokens = Some (pipe, pre, post, rest) ->
    exists emitted,
      parseToken (S fuel) token tokens = Some (emitted, rest)
      /\ let display := if pipe then post else pre in
         let target := join (map toText pre) in
         (pipe = true /\ post = [] -> emitted = [])
         /\ (~ (pipe = true /\ post = []) -> pre = [] -> emitted = display)
         /\ (~ (pipe = true /\ post = []) -> pre <> [] ->
             emitted = [Link target display]).
Proof.
  intros fuel token tokens pipe pre post rest Hty Hloop.
  exists (link_result pipe pre post). split.
  - rewrite parseToken_S. unfold parser_for. rewrite Hty. simpl.
    now rewrite Hloop.
  - unfold link_result. cbv zeta. split; [|split].
    + intros [-> ->]. reflexivity.
    + intros Hn ->. destruct pipe; [|reflexivity].
      destruct post; [exfalso; auto|reflexivity].
    + intros Hn Hpre. destruct pre; [congruence|].
      destruct pipe; [|reflexivity].
      destruct post; [exfalso; auto|reflexivity].
Qed.

Lemma link_open_rule_witness :
  let token := {| type := TLinkOpen; text := "[["; pos := 0 |} in
  let tokens := [ {| type := TText; text := "link"; pos := 2 |};
                  {| type := TPipe; text := "|"; pos := 6 |};
                  {| type := TText; text := "text"; pos := 7 |};
                  {| type := TLinkClose; text := "]]"; pos := 11 |} ] in
  type token = TLinkOpen
  /\ link_loop 4 false [] [] tokens
     = Some (true, [Text "link"], [Text "text"], [])
  /\ exists emitted,
      parseToken 5 token tokens = Some (emitted, [])
      /\ (true = true /\ [Text "text"] = [] -> emitted = [])
      /\ (~ (true = true /\ [Text "text"] = []) -> [Text "link"] = [] ->
          emitted = [Text "text"])
      /\ (~ (true = true /\ [Text "text"] = []) -> [Text "link"] <> [] ->
          emitted = [Link (join (map toText [Text "link"])) [Text "text"]]).
Proof.
  intros token tokens. split; [reflexivity|]. split; [reflexivity|].
  apply (link_open_rule 4 token tokens true [Text "link"] [Text "text"] []);
    reflexivity.
Defined.

(** ** Totality of the parser *)

(** ** Input that ends inside a construct *)

Section Unterminated.

Lemma text_token_parses x rest :
  type x = TText -> parses x rest ([text_node x], rest).
Proof.
  intros Hx. apply parses_unfold. unfold parser_for. rewrite Hx. reflexivity.
Qed.

(** What an [until] parser returns, by the type of the opening token. *)
Lemma until_wraps open close wrap tokens childs rest :
  parser_for open = parser_until close wrap ->
  untils close [] tokens (childs, rest) ->
  parses open tokens
    (match childs with
     | [] => []
     | _ :: _ =>
         match type open with
         | TBoldOpen | TQuote3 => [Bold childs]
         | TQuote4 => [Bold ([Text "'"] ++ childs ++ [Text "'"])]
         | TQuote5 => [Italic [Bold childs]]
         | TItalicOpen | TQuote2 => [Italic childs]
         | _ => []
         end
     end, rest).
Proof.
  intros Hp Hu. apply parses_unfold. rewrite Hp.
  exists childs, rest. split; [exact Hu|]. f_equal.
  unfold until_result. destruct childs as [|c cs]; [reflexivity|].
  cbn [List.length Nat.eqb]. unfold parser_for, parsers in Hp.
  destruct (type open); inversion Hp; reflexivity.
Qed.

(** The loop of [until] over literal texts: it takes them all, and stops
    behind the closing token when there is one. *)
Lemma untils_texts close : forall tokens childs,
  is_close_type close = true ->
  Forall (fun x => type x = TText) tokens ->
  untils close childs tokens (childs ++ map text_node tokens, [])
  /\ forall c rest, type c = close ->
       untils close childs (tokens ++ c :: rest)
         (childs ++ map text_node tokens, rest).
Proof.
  induction tokens as [|x tokens IH]; intros childs Hc Hts.
  - simpl. rewrite app_nil_r. split; [now apply untils_nil|].
    intros c rest E. apply untils_close; [|reflexivity].
    rewrite E. apply TokenType_eqb_refl.
  - inversion Hts as [|? ? Hx Hr]; subst.
    assert (Hn : TokenType_eqb (type x) close = false)
      by (rewrite Hx; now destruct close).
    destruct (IH (childs ++ [text_node x]) Hc Hr) as [H1 H2].
    rewrite <- app_assoc in H1. split.
    + apply untils_step; [exact Hn|]. exists [text_node x], tokens.
      split; [now apply text_token_parses|exact H1].
    + intros c rest E. simpl app. apply untils_step; [exact Hn|].
      exists [text_node x], (tokens ++ c :: rest).
      split; [now apply text_token_parses|].
      specialize (H2 c rest E). now rewrite <- app_assoc in H2.
Qed.

(** The loop of the link parser over literal texts, likewise. *)
Lemma links_texts : forall tokens pre,
  Forall (fun x => type x = TText) tokens ->
  links false pre [] tokens (false, pre ++ map text_node tokens, [], [])
  /\ forall c rest, type c = TLinkClose ->
       links false pre [] (tokens ++ c :: rest)
         (false, pre ++ map text_node tokens, [], rest).
Proof.
  induction tokens as [|x tokens IH]; intros pre Hts.
  - simpl. rewrite app_nil_r. split; [now apply links_nil|].
    intros c rest E.
    apply links_close; [now rewrite E|now rewrite E|reflexivity].
  - inversion Hts as [|? ? Hx Hr]; subst.
    destruct (IH (pre ++ [text_node x]) Hr) as [H1 H2].
    rewrite <- app_assoc in H1. split.
    + apply links_step; try (rewrite Hx; reflexivity).
      exists [text_node x], tokens.
      split; [now apply text_token_parses|exact H1].
    + intros c rest E. simpl app.
      apply links_step; try (rewrite Hx; reflexivity).
      exists [text_node x], (tokens ++ c :: rest).
      split; [now apply text_token_parses|].
      specialize (H2 c rest E). now rewrite <- app_assoc in H2.
Qed.

Lemma texts_of_tokens tokens :
  join (map toText (map text_node tokens)) = join (map text tokens).
Proof. induction tokens as [|x l IH]; simpl; congruence. Qed.

(** One construct makes the whole sentence. *)
Lemma parse_one open tokens nodes :
  parses open tokens (nodes, []) ->
  parse (open :: tokens) = Some (Sentence nodes).
Proof.
  intros H. apply parse_tops. apply tops_step. exists nodes, [].
  split; [exact H|]. now apply tops_nil.
Qed.

End Unterminated.

(** C2.  [parse] returns a [Sentence] for every token list, with the fuel
    of its definition and with any larger amount.  Input that ends inside
    open constructs is parsed as if they had been closed there: some
    closing tokens (none when nothing is open) can be put behind the
    input without changing the tree, and behind them the parser is back at
    the top level, so that further tokens are parsed on their own.
    What has been accumulated is wrapped: when the loop of an [until]
    parser reaches the end of the input with the children [childs], the
    tree holds them in the bold or the italic of the opening token (a run
    of four apostrophes adds an apostrophe on both sides, a run of five
    gives a bold inside an italic), and nothing when there are none.  In
    particular an opening token followed by literal texts only gives the
    tag, or the link, holding one [Text] per token, with or without the
    closing token at the end. *)
Theorem parse_total :
  (forall tokens,
   exists out,
     parse tokens = Some (Sentence out)
     /\ (forall fuel, 2 * List.length tokens + 2 <= fuel ->
         parse_fuel fuel tokens = Some (Sentence out))
     /\ exists closing,
         forallb is_close_type closing = true
         /\ forall cs, map type cs = closing ->
            parse (tokens ++ cs) = Some (Sentence out)
            /\ forall extra out',
                 parse extra = Some (Sentence out') ->
                 parse (tokens ++ cs ++ extra) = Some (Sentence (out ++ out')))
  /\ (forall open close wrap tokens childs,
        parser_for open = parser_until close wrap ->
        untils close [] tokens (childs, []) ->
        parse (open :: tokens)
        = Some (Sentence
                  match childs with
                  | [] => []
                  | _ :: _ =>
                      match type open with
                      | TBoldOpen | TQuote3 => [Bold childs]
                      | TQuote4 =>
                          [Bold ([Text "'"] ++ childs ++ [Text "'"])]
                      | TQuote5 => [Italic [Bold childs]]
                      | TItalicOpen | TQuote2 => [Italic childs]
                      | _ => []
                      end
                  end))
  /\ (forall open close wrap tokens,
        parser_for open = parser_until close wrap ->
        tokens <> [] ->
        Forall (fun x => type x = TText) tokens ->
        let childs := map text_node tokens in
        let tree :=
          Sentence
            match type open with
            | TBoldOpen | TQuote3 => [Bold childs]
            | TQuote4 => [Bold ([Text "'"] ++ childs ++ [Text "'"])]
            | TQuote5 => [Italic [Bold childs]]
            | TItalicOpen | TQuote2 => [Italic childs]
            | _ => []
            end in
        parse (open :: tokens) = Some tree
        /\ forall c, type c = close ->
             parse (open :: tokens ++ [c]) = Some tree)
  /\ (forall open tokens,
        type open = TLinkOpen ->
        tokens <> [] ->
        Forall (fun x => type x = TText) tokens ->
        let tree :=
          Sentence [Link (join (map text tokens)) (map text_node tokens)] in
        parse (open :: tokens) = Some tree
        /\ forall c, type c = TLinkClose ->
             parse (open :: tokens ++ [c]) = Some tree).
Proof.
  split; [|split; [|split]].
  - intros tokens.
    destruct (parse_loop_total (List.length tokens) tokens []
                (2 * List.length tokens + 2) (le_n _)) as [out E]; [lia|].
    assert (Ht : tops [] tokens out) by (eexists; exact E).
    exists out. split; [|split].
    + now apply parse_tops.
    + intros fuel Hf. unfold parse_fuel.
      now rewrite (parse_loop_mono _ fuel _ _ _ E Hf).
    + destruct (closes_top (List.length tokens) tokens (le_n _) _ _ Ht)
        as (ks & Hks & Hcl).
      exists ks. split; [assumption|]. intros cs Hcs. split.
      * apply parse_tops.
        rewrite <- (app_nil_r cs). apply (Hcl cs [] out Hcs).
        now apply tops_nil.
      * intros extra out' Hex. apply parse_tops. apply parse_tops in Hex.
        apply (Hcl cs extra (out ++ out') Hcs).
        rewrite <- (app_nil_r out) at 1.
        apply (tops_shift (List.length extra) extra (le_n _) [] out out' Hex).
  - intros open close wrap tokens childs Hp Hu.
    apply parse_one. exact (until_wraps open close wrap tokens childs [] Hp Hu).
  - intros open close wrap tokens Hp Hne Hts childs tree.
    pose proof (parser_until_close open close wrap Hp) as Hc.
    destruct (untils_texts close tokens [] Hc Hts) as [H1 H2].
    assert (Hw : forall toks,
               untils close [] toks (childs, []) ->
               parse (open :: toks) = Some tree).
    { intros toks Hu. apply parse_one.
      pose proof (until_wraps open close wrap toks childs [] Hp Hu) as H.
      subst childs tree. destruct tokens as [|x l]; [congruence|exact H]. }
    split; [now apply Hw|].
    intros c E. apply Hw. now apply H2.
  - intros open tokens Ho Hne Hts tree.
    destruct (links_texts tokens [] Hts) as [H1 H2].
    assert (Hw : forall toks,
               links false [] [] toks (false, map text_node tokens, [], []) ->
               parse (open :: toks) = Some tree).
    { intros toks Hl. apply parse_one. apply parses_unfold.
      unfold parser_for. rewrite Ho. cbn [parsers].
      exists false, (map text_node tokens), [], [].
      split; [exact Hl|]. f_equal. subst tree.
      destruct tokens as [|x l]; [congruence|].
      unfold link_result. cbn [andb negb map List.length Nat.eqb].
      f_equal. f_equal. symmetry. exact (texts_of_tokens (x :: l)). }
    split; [now apply Hw|].
    intros c E. apply Hw. now apply H2.
Qed.

Lemma parse_total_witness :
  parse [ {| type := TBoldOpen; text := "<b>"; pos := 0 |};
          {| type := TQuote2; text := "''"; pos := 3 |};
          {| type := TText; text := "open"; pos := 5 |} ]
  = Some (Sentence [Bold [Italic [Text "open"]]])
  /\ parse [ {| type := TQuote4; text := "''''"; pos := 0 |};
             {| type := TText; text := "open"; pos := 4 |} ]
     = Some (Sentence [Bold [Text "'"; Text "open"; Text "'"]])
  /\ parse [ {| type := TLinkOpen; text := "[["; pos := 0 |};
             {| type := TText; text := "open"; pos := 2 |} ]
     = Some (Sentence [Link "open" [Text "open"]]).
Proof.
  destruct parse_total as (_ & H2 & H3 & H4).
  split; [|split].
  - apply (H2 {| type := TBoldOpen; text := "<b>"; pos := 0 |} TBoldClose
              (fun childs => [Bold childs])
              [ {| type := TQuote2; text := "''"; pos := 3 |};
                {| type := TText; text := "open"; pos := 5 |} ]
              [Italic [Text "open"]] eq_refl).
    exists 5. reflexivity.
  - refine (proj1 (H3 {| type := TQuote4; text := "''''"; pos := 0 |} TQuote4
                     (fun childs => [Bold ([Text "'"] ++ childs ++ [Text "'"])])
                     [ {| type := TText; text := "open"; pos := 4 |} ]
                     eq_refl _ _)); [discriminate|].
    repeat constructor.
  - refine (proj1 (H4 {| type := TLinkOpen; text := "[["; pos := 0 |}
                     [ {| type := TText; text := "open"; pos := 2 |} ]
                     eq_refl _ _)); [discriminate|].
    repeat constructor.
Defined.

(** ** Stray delimiters *)



(** ** The optimizer *)

Section MergePass.

Lemma nested_enter ctx a n :
  nested (enter optimize_conf ctx a) n = nested ctx n || same_tag a n.
Proof.
  destruct ctx as [[] [] []]; destruct a, n; reflexivity.
Qed.

Lemma nested_enter_fold : forall ancestors ctx n,
  nested (fold_left (enter optimize_conf) ancestors ctx) n
  = nested ctx n || existsb (fun a => same_tag a n) ancestors.
Proof.
  induction ancestors as [|a l IH]; intros ctx n; simpl.
  - now rewrite orb_false_r.
  - now rewrite IH, nested_enter, orb_assoc.
Qed.

Lemma last_node_none l : last_node l = None -> l = [].
Proof.
  unfold last_node. intros H. destruct (rev l) eqn:E; try discriminate.
  now rewrite <- (rev_involutive l), E.
Qed.

Lemma adjacent_snoc2 classy : forall l x a,
  adjacent classy (l ++ [x; a])
  = adjacent classy (l ++ [x]) || (instanceof x classy && instanceof a classy).
Proof.
  induction l as [|y l IH]; intros x a.
  - simpl. now rewrite !orb_false_r.
  - destruct l as [|z l].
    + simpl. now rewrite !orb_false_r.
    + change (adjacent classy ((y :: z :: l) ++ [x; a]))
        with ((instanceof y classy && instanceof z classy)
              || adjacent classy ((z :: l) ++ [x; a])).
      change (adjacent classy ((y :: z :: l) ++ [x]))
        with ((instanceof y classy && instanceof z classy)
              || adjacent classy ((z :: l) ++ [x])).
      now rewrite IH, orb_assoc.
Qed.

Lemma adjacent_last classy l a b :
  instanceof a classy = instanceof b classy ->
  adjacent classy (l ++ [a]) = adjacent classy (l ++ [b]).
Proof.
  intros H. destruct l as [|x l _] using rev_ind; [reflexivity|].
  rewrite <- !app_assoc. simpl. now rewrite !(adjacent_snoc2 classy l), H.
Qed.

Lemma adjacent_texts_snoc2 l x a :
  adjacent_texts (l ++ [x; a])
  = adjacent_texts (l ++ [x]) || (isText x && isText a).
Proof. apply (adjacent_snoc2 CText). Qed.

Lemma adjacent_texts_last l a b :
  isText a = isText b ->
  adjacent_texts (l ++ [a]) = adjacent_texts (l ++ [b]).
Proof. apply (adjacent_last CText). Qed.

Variable fuel : nat.
Variable ctx : Context.

Let opt := optimize fuel optimize_conf ctx.

Lemma text_step out node :
  adjacent_texts out = false ->
  exists out',
    _optimize_combine opt optimize_conf CText out node = Some out'
    /\ adjacent_texts out' = false
    /\ filter not_text out' = filter not_text (out ++ [node]).
Proof.
  intros Hadj. unfold _optimize_combine. simpl skip_class. cbv iota.
  destruct (last_node out) as [last|] eqn:L.
  - apply last_node_spec in L. revert L Hadj.
    generalize (removelast out) as l0. intros l0 -> Hadj.
    destruct (isText last) eqn:T1; destruct (isText node) eqn:T2;
      simpl instanceof; rewrite ?T1, ?T2; simpl andb; cbv iota.
    + destruct last as [x| | | |], node as [y| | | |]; try discriminate.
      simpl combine. unfold opt. rewrite optimize_Text.
      eexists; split; [reflexivity|]. split.
      * rewrite <- Hadj. now apply adjacent_texts_last.
      * rewrite <- app_assoc. now rewrite !filter_app.
    + eexists; split; [reflexivity|]. split; [|reflexivity].
      rewrite <- app_assoc. simpl app.
      now rewrite adjacent_texts_snoc2, Hadj, T1, T2.
    + eexists; split; [reflexivity|]. split; [|reflexivity].
      rewrite <- app_assoc. simpl app.
      now rewrite adjacent_texts_snoc2, Hadj, T1, T2.
    + eexists; split; [reflexivity|]. split; [|reflexivity].
      rewrite <- app_assoc. simpl app.
      now rewrite adjacent_texts_snoc2, Hadj, T1, T2.
  - apply last_node_none in L as ->.
    eexists; split; [reflexivity|]. split; reflexivity.
Qed.

Lemma text_pass : forall l out,
  adjacent_texts out = false ->
  exists out',
    reduce (_optimize_combine opt optimize_conf CText) l out = Some out'
    /\ adjacent_texts out' = false
    /\ filter not_text out' = filter not_text (out ++ l).
Proof.
  induction l as [|n l IH]; intros out Hadj; cbn [reduce].
  - eexists; split; [reflexivity|]. now rewrite app_nil_r.
  - destruct (text_step out n Hadj) as (o & -> & Ho & Hf).
    destruct (IH o Ho) as (out' & -> & Ho' & Hf').
    eexists; split; [reflexivity|]. split; [assumption|].
    rewrite Hf', filter_app, Hf.
    change (n :: l) with ([n] ++ l). now rewrite !filter_app, app_assoc.
Qed.

End MergePass.

(** ** Normal forms of the optimizer *)

(** The optimizer leaves a normal tree as it is, and it turns a plain tree
    into a normal one.  So a second run changes nothing on a tree whose
    flatten passes never leave a nested tag behind; the trees on which it
    does are those with a tag of an entered kind directly inside a nested
    tag, such as three bolds inside one another. *)

Section NormalForm.

Lemma instanceof_other n c c' :
  instanceof n c = true -> c' <> c -> instanceof n c' = false.
Proof. destruct n, c, c'; simpl; congruence. Qed.

Lemma instanceof_set_childs t cs classy :
  instanceof (set_childs t cs) classy = instanceof t classy.
Proof. destruct t, classy; reflexivity. Qed.

Lemma nested_set_childs ctx t cs :
  nested ctx (set_childs t cs) = nested ctx t.
Proof. destruct t; reflexivity. Qed.

Lemma enter_set_childs conf ctx t cs :
  enter conf ctx (set_childs t cs) = enter conf ctx t.
Proof. destruct t; reflexivity. Qed.

Lemma childs_of_set_childs t cs :
  isNodeWithChilds t = true -> childs_of (set_childs t cs) = cs.
Proof. destruct t; try discriminate; reflexivity. Qed.

Lemma isNodeWithChilds_set_childs t cs :
  isNodeWithChilds (set_childs t cs) = isNodeWithChilds t.
Proof. destruct t; reflexivity. Qed.

Lemma set_childs_same t : set_childs t (childs_of t) = t.
Proof. destruct t; reflexivity. Qed.

Lemma optimize_shape fuel conf ctx t t' :
  optimize fuel conf ctx t = Some t' -> exists cs, t' = set_childs t cs.
Proof.
  destruct (isNodeWithChilds t) eqn:C.
  - destruct fuel as [|fuel]; [now rewrite optimize_O|].
    rewrite optimize_S by assumption. cbv zeta.
    destruct (map_nodes _ _) as [c0|]; try discriminate.
    destruct (reduce _ c0 []) as [c1|]; try discriminate.
    destruct (reduce _ c1 []) as [c2|]; try discriminate.
    destruct (reduce _ c2 []) as [c3|]; try discriminate.
    intros H; injection H as <-. eauto.
  - destruct t; try discriminate. rewrite optimize_Text.
    intros H; injection H as <-. exists []. reflexivity.
Qed.

Lemma size_in c l : In c l -> size c <= sizes l.
Proof.
  induction l as [|a l IH]; [contradiction|].
  intros [->|H]; rewrite sizes_cons; [lia|]. apply IH in H. lia.
Qed.

Lemma flatten_id ctx l :
  Forall (fun c => nested ctx c = false) l -> flatten ctx l = l.
Proof.
  induction 1 as [|c l Hc _ IH]; [reflexivity|].
  now rewrite flatten_cons, Hc, IH.
Qed.

Lemma adjacent_sep classy m : instanceof m classy = false ->
  forall l0 l,
    adjacent classy (l0 ++ m :: l) = adjacent classy l0 || adjacent classy l.
Proof.
  intros Hm. induction l0 as [|y l0 IH]; intros l.
  - simpl. rewrite Hm. now destruct l.
  - destruct l0 as [|z l0].
    + change (adjacent classy ([y] ++ m :: l))
        with ((instanceof y classy && instanceof m classy)
              || adjacent classy ([] ++ m :: l)).
      now rewrite IH, Hm, andb_false_r.
    + change (adjacent classy ((y :: z :: l0) ++ m :: l))
        with ((instanceof y classy && instanceof z classy)
              || adjacent classy ((z :: l0) ++ m :: l)).
      rewrite IH. simpl. now rewrite orb_assoc.
Qed.

Lemma adjacent_seam classy : forall l0 a b l,
  adjacent classy (l0 ++ a :: b :: l) = false ->
  instanceof a classy && instanceof b classy = false.
Proof.
  induction l0 as [|y l0 IH]; intros a b l H.
  - simpl in H. now apply orb_false_elim in H.
  - destruct l0 as [|z l0].
    + change (adjacent classy ([y] ++ a :: b :: l))
        with ((instanceof y classy && instanceof a classy)
              || adjacent classy ([] ++ a :: b :: l)) in H.
      apply orb_false_elim in H as [_ H]. now apply (IH _ _ l).
    + change (adjacent classy ((y :: z :: l0) ++ a :: b :: l))
        with ((instanceof y classy && instanceof z classy)
              || adjacent classy ((z :: l0) ++ a :: b :: l)) in H.
      apply orb_false_elim in H as [_ H]. now apply (IH _ _ l).
Qed.

(** A pass over a list without two neighbours of the class keeps it. *)
Lemma reduce_id opt classy : forall l out,
  adjacent classy (out ++ l) = false ->
  reduce (_optimize_combine opt optimize_conf classy) l out = Some (out ++ l).
Proof.
  induction l as [|n l IH]; intros out H; cbn [reduce].
  - now rewrite app_nil_r.
  - assert (Hstep : _optimize_combine opt optimize_conf classy out n
                    = Some (out ++ [n])).
    { unfold _optimize_combine.
      replace (skip_class optimize_conf classy) with false
        by (now destruct classy).
      destruct (last_node out) as [last|] eqn:L; [|reflexivity].
      apply last_node_spec in L. rewrite L, <- app_assoc in H.
      apply adjacent_seam in H. now rewrite H. }
    rewrite Hstep, IH; rewrite <- app_assoc; [reflexivity|exact H].
Qed.

Lemma map_nodes_id (opt : Node -> option Node) : forall l,
  (forall c, In c l -> opt c = Some c) -> map_nodes opt l = Some l.
Proof.
  induction l as [|n l IH]; intros H; simpl; [reflexivity|].
  rewrite (H n (or_introl eq_refl)), IH; auto.
  intros c Hc. apply H. now right.
Qed.

Lemma map_nodes_Forall (opt : Node -> option Node) (P Q : Node -> Prop) :
  (forall c c', P c -> opt c = Some c' -> Q c') ->
  forall l l', Forall P l -> map_nodes opt l = Some l' -> Forall Q l'.
Proof.
  intros HPQ. induction l as [|n l IH]; simpl; intros l' HP H.
  - injection H as <-. constructor.
  - destruct (opt n) as [n'|] eqn:E; try discriminate.
    destruct (map_nodes opt l) as [r|] eqn:M; try discriminate.
    injection H as <-. inversion HP; subst. constructor; eauto.
Qed.

(** A normal tree is left as it is. *)
Lemma optimize_normal_id fuel : forall ctx t,
  normal ctx t -> size t <= fuel ->
  optimize fuel optimize_conf ctx t = Some t.
Proof.
  induction fuel as [|fuel IH]; intros ctx t Hn Hs.
  - pose proof (size_pos t). lia.
  - inversion Hn as [ctx0 s|ctx0 t0 C Hch Hadj]; subst.
    + apply optimize_Text.
    + rewrite optimize_S by assumption. cbv zeta.
      rewrite (size_container _ C) in Hs.
      rewrite flatten_id
        by (eapply Forall_impl; [|exact Hch]; simpl; tauto).
      rewrite map_nodes_id.
      * rewrite !reduce_id by apply Hadj. simpl.
        now rewrite set_childs_same.
      * intros c Hc. rewrite Forall_forall in Hch.
        destruct (Hch c Hc) as [_ Hnc]. apply IH; [assumption|].
        apply size_in in Hc. lia.
Qed.

Lemma normal_plain n : forall ctx t,
  size t <= n -> normal ctx t -> plain ctx t.
Proof.
  induction n as [|n IH]; intros ctx t Hs Hn.
  - pose proof (size_pos t). lia.
  - inversion Hn as [ctx0 s|ctx0 t0 C Hch Hadj]; subst.
    + constructor.
    + apply plain_childs; [assumption|].
      rewrite (size_container _ C) in Hs.
      rewrite flatten_id
        by (eapply Forall_impl; [|exact Hch]; simpl; tauto).
      rewrite Forall_forall in *. intros c Hc.
      destruct (Hch c Hc) as [H1 H2]. split; [assumption|].
      apply IH; [|assumption]. apply size_in in Hc. lia.
Qed.

Section Passes.

Variable fuel : nat.
Variable ctx : Context.

Hypothesis optimize_normal_IH : forall t t',
  plain ctx t -> optimize fuel optimize_conf ctx t = Some t' -> normal ctx t'.

Let opt := optimize fuel optimize_conf ctx.
Let good (c : Node) : Prop := nested ctx c = false /\ normal ctx c.

Lemma merge_good classy a b m :
  instanceof a classy = true -> instanceof b classy = true ->
  good a -> good b ->
  opt (combine classy a b) = Some m ->
  good m /\ instanceof m classy = true.
Proof.
  intros Ia Ib [Na Ha] [Nb Hb] Hm.
  assert (Hplain : plain ctx (combine classy a b)).
  { destruct classy, a as [x|xs|xs|xs|tx xs], b as [y|ys|ys|ys|ty ys];
      try discriminate; simpl combine.
    - constructor.
    - inversion Ha as [|? ? _ Hxs _]; inversion Hb as [|? ? _ Hys _]; subst.
      apply plain_childs; [reflexivity|]. simpl childs_of in *.
      change (enter optimize_conf ctx (Italic (xs ++ ys)))
        with (enter optimize_conf ctx (Italic xs)).
      change (enter optimize_conf ctx (Italic ys))
        with (enter optimize_conf ctx (Italic xs)) in Hys.
      pose proof (Forall_app_intro := proj2 (Forall_app _ xs ys) (conj Hxs Hys)).
      rewrite flatten_id
        by (eapply Forall_impl; [|exact Forall_app_intro]; simpl; tauto).
      eapply Forall_impl; [|exact Forall_app_intro].
      intros c [H1 H2]. split; [assumption|].
      now apply (normal_plain (size c)).
    - inversion Ha as [|? ? _ Hxs _]; inversion Hb as [|? ? _ Hys _]; subst.
      apply plain_childs; [reflexivity|]. simpl childs_of in *.
      change (enter optimize_conf ctx (Bold (xs ++ ys)))
        with (enter optimize_conf ctx (Bold xs)).
      change (enter optimize_conf ctx (Bold ys))
        with (enter optimize_conf ctx (Bold xs)) in Hys.
      pose proof (Forall_app_intro := proj2 (Forall_app _ xs ys) (conj Hxs Hys)).
      rewrite flatten_id
        by (eapply Forall_impl; [|exact Forall_app_intro]; simpl; tauto).
      eapply Forall_impl; [|exact Forall_app_intro].
      intros c [H1 H2]. split; [assumption|].
      now apply (normal_plain (size c)). }
  pose proof (optimize_normal_IH _ _ Hplain Hm) as Hnm.
  destruct (optimize_shape _ _ _ _ _ Hm) as [cs ->].
  rewrite instanceof_set_childs. unfold good.
  rewrite nested_set_childs.
  destruct classy, a as [x|xs|xs|xs|tx xs], b as [y|ys|ys|ys|ty ys];
    try discriminate; simpl combine in *; repeat split; auto.
Qed.

(** One pass keeps the nodes good, leaves no two neighbours of its class,
    and brings no neighbours of another class together. *)
Lemma pass_good classy : forall l out out',
  Forall good out -> Forall good l ->
  adjacent classy out = false ->
  reduce (_optimize_combine opt optimize_conf classy) l out = Some out' ->
  Forall good out'
  /\ adjacent classy out' = false
  /\ (forall c', c' <> classy ->
        adjacent c' (out ++ l) = false -> adjacent c' out' = false).
Proof.
  induction l as [|n l IH]; intros out out' Gout Gl Hadj H; cbn [reduce] in H.
  - injection H as <-. repeat split; auto.
    intros c' _. now rewrite app_nil_r.
  - destruct (_optimize_combine opt optimize_conf classy out n)
      as [out1|] eqn:E; try discriminate.
    inversion Gl as [|? ? Gn Gl']; subst.
    assert (Hkeep : out1 = out ++ [n] ->
              adjacent classy (out ++ [n]) = false ->
              Forall good out' /\ adjacent classy out' = false
              /\ (forall c', c' <> classy ->
                    adjacent c' (out ++ n :: l) = false ->
                    adjacent c' out' = false)).
    { intros -> Hadj1.
      destruct (IH (out ++ [n]) out') as (G & A & O); auto.
      - apply Forall_app. split; auto.
      - repeat split; auto. intros c' Hc' Hc. apply O; auto.
        now rewrite <- app_assoc. }
    unfold _optimize_combine in E.
    replace (skip_class optimize_conf classy) with false in E
      by (now destruct classy).
    destruct (last_node out) as [last|] eqn:L.
    + apply last_node_spec in L. revert L E Hkeep Gout Hadj.
      generalize (removelast out) as l0. intros l0 -> E Hkeep Gout Hadj.
      destruct (instanceof last classy) eqn:I1;
        destruct (instanceof n classy) eqn:I2; simpl andb in E; cbv iota in E.
      * destruct (opt (combine classy last n)) as [m|] eqn:M; try discriminate.
        injection E as <-.
        apply Forall_app in Gout as [G0 Glast].
        inversion Glast as [|? ? Glast1 _]; subst.
        destruct (merge_good classy last n m I1 I2 Glast1 Gn M) as [Gm Im].
        destruct (IH (l0 ++ [m]) out') as (G & A & O); auto.
        -- apply Forall_app. split; auto.
        -- rewrite <- Hadj. apply adjacent_last. congruence.
        -- repeat split; auto. intros c' Hc' Hc. apply O; auto.
           rewrite <- app_assoc in *. simpl in *.
           rewrite adjacent_sep in Hc
             by (eapply instanceof_other; eauto).
           rewrite adjacent_sep
             by (eapply instanceof_other; eauto).
           apply orb_false_elim in Hc as [Hc0 Hc1].
           rewrite Hc0. simpl.
           change (n :: l) with ([] ++ n :: l) in Hc1.
           rewrite adjacent_sep in Hc1 by (eapply instanceof_other; eauto).
           exact Hc1.
      * injection E as <-. apply Hkeep; [reflexivity|].
        rewrite <- app_assoc. simpl.
        now rewrite adjacent_snoc2, Hadj, I1, I2.
      * injection E as <-. apply Hkeep; [reflexivity|].
        rewrite <- app_assoc. simpl.
        now rewrite adjacent_snoc2, Hadj, I1, I2.
      * injection E as <-. apply Hkeep; [reflexivity|].
        rewrite <- app_assoc. simpl.
        now rewrite adjacent_snoc2, Hadj, I1, I2.
    + injection E as <-. apply last_node_none in L. subst out.
      apply Hkeep; reflexivity.
Qed.

End Passes.

(** A plain tree is optimized to a normal one. *)
Lemma optimize_normal fuel : forall ctx t t',
  plain ctx t -> optimize fuel optimize_conf ctx t = Some t' -> normal ctx t'.
Proof.
  induction fuel as [|fuel IH]; intros ctx t t' Hp H.
  - destruct (isNodeWithChilds t) eqn:C; [now rewrite optimize_O in H|].
    destruct t; try discriminate. rewrite optimize_Text in H.
    injection H as <-. constructor.
  - inversion Hp as [ctx0 s|ctx0 t0 C Hfl]; subst.
    + rewrite optimize_Text in H. injection H as <-. constructor.
    + rewrite optimize_S in H by assumption. cbv zeta in H.
      set (ctx' := enter optimize_conf ctx t) in *.
      set (opt := optimize fuel optimize_conf ctx') in *.
      destruct (map_nodes opt _) as [c0|] eqn:E0; try discriminate.
      destruct (reduce _ c0 []) as [c1|] eqn:E1; try discriminate.
      destruct (reduce _ c1 []) as [c2|] eqn:E2; try discriminate.
      destruct (reduce _ c2 []) as [c3|] eqn:E3; try discriminate.
      injection H as <-.
      assert (G0 : Forall (fun c => nested ctx' c = false /\ normal ctx' c) c0).
      { eapply (map_nodes_Forall opt); [|exact Hfl|exact E0].
        intros c c' [Hn Hpl] Hc. split.
        - destruct (optimize_shape _ _ _ _ _ Hc) as [cs ->].
          now rewrite nested_set_childs.
        - eapply IH; eauto. }
      destruct (pass_good fuel ctx' (IH ctx') CText c0 [] c1)
        as (G1 & A1 & O1); auto.
      destruct (pass_good fuel ctx' (IH ctx') CItalic c1 [] c2)
        as (G2 & A2 & O2); auto.
      destruct (pass_good fuel ctx' (IH ctx') CBold c2 [] c3)
        as (G3 & A3 & O3); auto.
      apply normal_childs.
      * now rewrite isNodeWithChilds_set_childs.
      * rewrite enter_set_childs, childs_of_set_childs by assumption.
        exact G3.
      * rewrite childs_of_set_childs by assumption.
        intros [| |]; auto.
        -- apply O3; [discriminate|]. apply O2; [discriminate|]. exact A1.
        -- apply O3; [discriminate|]. exact A2.
Qed.

(** On a plain tree the second run of the optimizer changes nothing. *)
Lemma optimize_idempotent_plain t t' :
  plain empty_context t ->
  optimize_default t = Some t' -> optimize_default t' = Some t'.
Proof.
  intros Hp H. unfold optimize_default in *.
  apply optimize_normal_id; [|lia].
  eapply optimize_normal; eauto.
Qed.

(** The trees of the test suite are plain; the one of two bolds inside one
    another, for instance. *)
Lemma plain_bold_in_bold :
  plain empty_context
    (Sentence [Text "pre ";
               Bold [Text "pre "; Bold [Text "bold"]; Text " post"];
               Text " post"]).
Proof.
  repeat (first [ apply plain_Text
                | apply plain_childs; [reflexivity|]
                | apply Forall_cons; [split; [reflexivity|]|]
                | apply Forall_nil ]; simpl).
Qed.

End NormalForm.

(** C5.  The flatten pass and the merge pass of the optimizer.
    A child is taken for nested exactly when one of its ancestors, at any
    depth, is a tag of its kind; the flatten pass replaces every nested
    child by that child's own children, at its place in the parent's list,
    and keeps the other children.  The children put in are not tested
    themselves: the list the pass returns still holds a nested tag exactly
    when a nested child had a nested child of its own.  So the pass does
    not remove all nesting of a kind: optimizing the parse of
    [<b><b><b>x</b></b></b>] leaves a bold directly inside a bold.
    The merge pass over texts leaves no two adjacent [Text] nodes, keeps
    the concatenated text and keeps the other nodes in their order.
    Optimizing the parse of [pre <b>pre <b>bold²</b> post</b> post]
    gives one [Bold] holding the single text [pre bold² post], between
    the two outer texts. *)
Theorem flatten_leaves_spliced_nesting :
  (forall ancestors n,
      nested (context_of ancestors) n
      = existsb (fun a => same_tag a n) ancestors)
  /\ (forall ctx before n after,
        flatten ctx (before ++ n :: after)
        = flatten ctx before
          ++ (if nested ctx n then childs_of n else [n])
          ++ flatten ctx after)
  /\ (forall ctx l,
        existsb (nested ctx) (flatten ctx l)
        = existsb (fun n => nested ctx n
                            && existsb (nested ctx) (childs_of n)) l)
  /\ (let inner := Bold [Text "x"] in
      let outer := Bold [inner] in
      run "<b><b><b>x</b></b></b>" = Some (Sentence [outer])
      /\ nested (context_of [Sentence [outer]; outer]) inner = true)
  /\ (forall fuel ctx l,
        exists out,
          reduce (_optimize_combine (optimize fuel optimize_conf ctx)
                    optimize_conf CText) l [] = Some out
          /\ adjacent_texts out = false
          /\ join (map toText out) = join (map toText l)
          /\ filter not_text out = filter not_text l)
  /\ run "pre <b>pre <b>bold²</b> post</b> post"
     = Some (Sentence [Text "pre "; Bold [Text "pre bold² post"]; Text " post"]).
Proof.
  split; [|split; [|split; [|split; [|split]]]].
  - intros ancestors n. unfold context_of. rewrite nested_enter_fold.
    now destruct n.
  - intros ctx before n after. now rewrite flatten_app, flatten_cons.
  - intros ctx l. induction l as [|n l IH]; [reflexivity|].
    rewrite flatten_cons, existsb_app, IH. cbn [existsb].
    destruct (nested ctx n) eqn:E; cbn [existsb andb orb]; [reflexivity|].
    now rewrite E.
  - split; vm_compute; reflexivity.
  - intros fuel ctx l.
    destruct (text_pass fuel ctx l [] eq_refl) as (out & E & Hadj & Hf).
    exists out. repeat split; auto.
    apply (reduce_text optimize_conf _ (optimize_text fuel optimize_conf ctx))
      in E. exact E.
  - vm_compute. reflexivity.
Qed.

(** C4.  Optimizing keeps the text: for every tree, [optimize] with the
    default options returns a tree, the same one for every sufficient
    amount of fuel, and its text is the text of the tree it was given. *)
Theorem optimize_keeps_text :
  forall t,
  exists t',
    optimize_default t = Some t'
    /\ toText t' = toText t
    /\ forall fuel, size t <= fuel ->
         optimize fuel optimize_conf empty_context t = Some t'.
Proof.
  intros t. unfold optimize_default.
  destruct (optimize_total (size t) optimize_conf empty_context t (le_n _))
    as (t' & E & _).
  exists t'. split; [exact E|]. split.
  - exact (optimize_text _ _ _ _ _ E).
  - intros fuel Hf. exact (optimize_mono _ fuel _ _ _ _ E Hf).
Qed.

(** C3.  Three bold tags directly inside one another, as parsed from
    [<b><b><b>x</b></b></b>]: the first run of the optimizer removes one
    level of nesting and leaves a bold inside a bold, a second run removes
    that one too and only its result is left unchanged by a further run.
    So the result of the first run is not a fixed point of [optimize]. *)
Theorem optimize_twice_nested_bold :
  let t0 := Sentence [Bold [Bold [Bold [Text "x"]]]] in
  let t1 := Sentence [Bold [Bold [Text "x"]]] in
  let t2 := Sentence [Bold [Text "x"]] in
  bind (compile "<b><b><b>x</b></b></b>") parse = Some t0
  /\ optimize_default t0 = Some t1
  /\ optimize_default t1 = Some t2
  /\ optimize_default t2 = Some t2
  /\ t1 <> t2.
Proof.
  repeat split; try (vm_compute; reflexivity). discriminate.
Qed.

(** ** The scanner *)

(** C8.  Five apostrophes at the position where the scanner looks are
    always taken as one token, and the input of five apostrophes, an [x]
    and five apostrophes is scanned to exactly three tokens: the run of
    five, the text [x], the run of five. *)
Theorem scan_five_quotes :
  (forall s, match_here ("'''''" ++ s) = Some TQuote5)
  /\ compile "'''''x'''''"
     = Some [ {| type := TQuote5; text := "'''''"; pos := 0 |};
              {| type := TText;   text := "x";     pos := 5 |};
              {| type := TQuote5; text := "'''''"; pos := 6 |} ].
Proof.
  split.
  - intros s. destruct s; reflexivity.
  - vm_compute. reflexivity.
Qed.

(** C9.  For every input the scanner returns tokens, and they cover the
    input without loss: the positions increase strictly, each token starts
    where the one before it ends, the first at 0 and the last ending at
    the end of the input, each token is the piece of the input at its
    position and is not empty, and the texts of the tokens put together
    are the input. *)
Theorem compile_lossless :
  forall input,
  exists tokens,
    compile input = Some tokens
    /\ StronglySorted lt (map pos tokens)
    /\ tiles input 0 (String.length input) tokens
    /\ Forall (fun t => text t <> "") tokens
    /\ join (map text tokens) = input.
Proof.
  intros input. destruct (compile_tiles input) as (tokens & E & Ht).
  exists tokens. split; [exact E|]. split; [|split; [|split]].
  - eapply tiles_sorted; eauto.
  - exact Ht.
  - eapply tiles_nonempty; eauto.
  - rewrite (tiles_join _ _ _ _ Ht), Nat.sub_0_r. apply take_all.
Qed.

(** ** The reference and the summary of a link *)

Section LinkReference.


Lemma replace_spaces_get : forall s i,
  get i (replace_spaces s)
  = option_map (fun c => if Ascii.eqb c " " then "_"%char else c) (get i s).
Proof.
  induction s as [|c s IH]; intros [|i]; simpl; auto.
Qed.

Lemma internalLink_cons c s :
  internalLink (String c s)
  = ("./" ++ upper_char c ++ replace_spaces s)%string.
Proof.
  unfold internalLink. rewrite substr_from_drop.
  replace (substr (String c s) 0 1) with (String c "")
    by (unfold substr; simpl; now destruct s).
  cbn [toUpperCase drop]. now rewrite append_empty_r.
Qed.

(** The upper-cased unit is one unit long, two for the sharp s. *)
Lemma upper_char_cases c :
  (exists d, upper_char c = String d "" /\ nat_of_ascii c <> 223)
  \/ (upper_char c = "SS" /\ nat_of_ascii c = 223).
Proof.
  unfold upper_char.
  destruct (((97 <=? nat_of_ascii c) && (nat_of_ascii c <=? 122))
            || ((224 <=? nat_of_ascii c) && (nat_of_ascii c <=? 254)
                && negb (nat_of_ascii c =? 247))) eqn:E.
  - left. eexists. split; [reflexivity|]. intros H. rewrite H in E.
    discriminate.
  - destruct (nat_of_ascii c =? 223) eqn:F.
    + right. split; [reflexivity|]. now apply Nat.eqb_eq.
    + left. eexists. split; [reflexivity|]. now apply Nat.eqb_neq.
Qed.

End LinkReference.




(** C7.  The summary of the external link parsed from
    [[[http://a.b/c#d|x]]] has the key [site], has no key [page], and has
    the key [anchor].  In general the summary of an external link has
    [site] and no [page], that of an internal link has no [site], and
    [anchor] is there whenever the target has a [#], whatever the kind of
    the link. *)
Theorem external_link_summary_anchor :
  run "[[http://a.b/c#d|x]]"
  = Some (Sentence [Link "http://a.b/c#d" [Text "x"]])
  /\ Link_toJSON "http://a.b/c#d" [Text "x"]
  = {| json_type := external;
       json_text := "x";
       json_site := Some "http://a.b/c#d";
       json_page := None;
       json_anchor := Some "d" |}
  /\ (forall target childs,
        (isExternal (Link target childs) = true ->
           json_type (Link_toJSON target childs) = external
           /\ json_site (Link_toJSON target childs) = Some target
           /\ json_page (Link_toJSON target childs) = None)
        /\ (isExternal (Link target childs) = false ->
              json_type (Link_toJSON target childs) = internal
              /\ json_site (Link_toJSON target childs) = None)
        /\ (json_anchor (Link_toJSON target childs) <> None
            <-> has_hash target = true)).
Proof.
  split; [vm_compute; reflexivity|]. split; [reflexivity|].
  intros target childs. simpl. unfold site_of, page_of.
  split; [|split; [|split]].
  - intros ->. auto.
  - intros ->. auto.
  - unfold anchor_of, from_first_hash.
    induction target as [|c s IH]; simpl; [congruence|].
    destruct (is_hash c); simpl; auto.
  - unfold anchor_of, from_first_hash.
    induction target as [|c s IH]; simpl; [discriminate|].
    destruct (is_hash c); simpl; [discriminate|auto].
Qed.

(* ================================================================== *)
(** * Further properties of the code *)

(** ** The test suite *)

(** X1.  Every case of the table of [tests.js] passes: the tree, the
    text, the HTML, the LaTeX and the Markdown obtained from the input
    are the ones the case expects, wherever it expects one. *)
Theorem test_suite_passes : Forall TestSuite.passes TestSuite.tests.
Proof.
  unfold TestSuite.tests.
  repeat (apply Forall_cons; [vm_compute; repeat split; reflexivity|]).
  apply Forall_nil.
Qed.

(** ** The scanner: what a token is *)

Section ScannerTokens.

Lemma drop_beyond str : forall n, String.length str <= n -> drop n str = "".
Proof.
  induction str as [|c str IH]; intros [|n] H; simpl in *; auto; try lia.
  apply IH; lia.
Qed.

Lemma find_match_leftmost str : forall i k j,
  find_match str i = Some (k, j) ->
  (forall d, i + d < j -> match_here (drop d str) = None)
  /\ match_here (drop (j - i) str) = Some k.
Proof.
  induction str as [|c str IH]; intros i k j; cbn [find_match].
  - cbv. discriminate.
  - destruct (match_here (String c str)) eqn:E.
    + intros H; injection H as <- <-. split; [intros d Hd; lia|].
      now rewrite Nat.sub_diag.
    + intros H. pose proof (find_match_spec _ _ _ _ H) as (d0 & -> & _).
      apply IH in H as [H1 H2]. split.
      * intros [|d] Hd; [exact E|]. simpl. apply H1. lia.
      * replace (S i + d0 - i) with (S d0) by lia. simpl.
        now replace (S i + d0 - S i) with d0 in H2 by lia.
Qed.

Lemma find_match_none str : forall i,
  find_match str i = None -> forall d, match_here (drop d str) = None.
Proof.
  induction str as [|c str IH]; intros i; cbn [find_match].
  - intros _ d. now rewrite drop_empty.
  - destruct (match_here (String c str)) eqn:E; [discriminate|].
    intros H [|d]; [exact E|]. simpl. now apply (IH (S i)).
Qed.

Lemma exec_leftmost input lastIndex k j :
  exec input lastIndex = Some (k, j) ->
  (forall p, lastIndex <= p -> p < j -> match_here (drop p input) = None)
  /\ match_here (drop j input) = Some k.
Proof.
  unfold exec. destruct (String.length input <? lastIndex); [discriminate|].
  rewrite substr_from_drop. intros H.
  pose proof (find_match_spec _ _ _ _ H) as (d0 & -> & _).
  apply find_match_leftmost in H as [H1 H2]. split.
  - intros p Hp Hj.
    replace p with (lastIndex + (p - lastIndex)) by lia.
    rewrite <- drop_drop. apply H1. lia.
  - rewrite <- drop_drop.
    now replace (lastIndex + d0 - lastIndex) with d0 in H2 by lia.
Qed.

Lemma exec_none input lastIndex :
  exec input lastIndex = None ->
  forall p, lastIndex <= p -> match_here (drop p input) = None.
Proof.
  unfold exec. destruct (String.length input <? lastIndex) eqn:E.
  - apply Nat.ltb_lt in E. intros _ p Hp.
    rewrite drop_beyond by lia. reflexivity.
  - rewrite substr_from_drop. intros H p Hp.
    replace p with (lastIndex + (p - lastIndex)) by lia.
    rewrite <- drop_drop. eapply find_match_none; eauto.
Qed.

Lemma exec_loop_exact fuel : forall input lastIndex matches,
  exec_loop fuel input lastIndex = Some matches ->
  matches_exact input lastIndex matches.
Proof.
  induction fuel as [|fuel IH]; intros input lastIndex matches;
    [discriminate|]. rewrite exec_loop_S.
  destruct (exec input lastIndex) as [[k j]|] eqn:E.
  - destruct (exec_loop fuel input (j + String.length (lexeme k))) as [ms|] eqn:L;
      try discriminate.
    intros H; injection H as <-.
    apply exec_leftmost in E as [H1 H2]. simpl. repeat split; auto.
  - intros H; injection H as <-. simpl. now apply exec_none.
Qed.

Lemma adjacent_text_tokens_snoc2 : forall l x y,
  adjacent_text_tokens (l ++ [x; y])
  = adjacent_text_tokens (l ++ [x]) || (is_text_token x && is_text_token y).
Proof.
  induction l as [|z l IH]; intros x y.
  - simpl. now rewrite !orb_false_r.
  - destruct l as [|w l].
    + simpl. now rewrite !orb_false_r.
    + change (adjacent_text_tokens ((z :: w :: l) ++ [x; y]))
        with ((is_text_token z && is_text_token w)
              || adjacent_text_tokens ((w :: l) ++ [x; y])).
      change (adjacent_text_tokens ((z :: w :: l) ++ [x]))
        with ((is_text_token z && is_text_token w)
              || adjacent_text_tokens ((w :: l) ++ [x])).
      now rewrite IH, orb_assoc.
Qed.

Lemma adjacent_text_tokens_snoc l x :
  adjacent_text_tokens (l ++ [x])
  = adjacent_text_tokens l || (last_is_text l && is_text_token x).
Proof.
  destruct l as [|y l _] using rev_ind; [reflexivity|].
  rewrite <- app_assoc. simpl.
  rewrite adjacent_text_tokens_snoc2. unfold last_is_text.
  now rewrite rev_app_distr.
Qed.

Lemma last_is_text_snoc l x : last_is_text (l ++ [x]) = is_text_token x.
Proof. unfold last_is_text. now rewrite rev_app_distr. Qed.

Lemma token_ok_text input start len :
  start + len <= String.length input ->
  (forall p, start <= p -> p < start + len ->
     match_here (drop p input) = None) ->
  token_ok input
    {| type := TText; text := substr input start len; pos := start |}.
Proof.
  intros Hlen Hnone. unfold token_ok. simpl.
  rewrite substr_length by assumption.
  intros d Hd. apply Hnone; lia.
Qed.

Lemma token_ok_match input m :
  type m <> TText ->
  match_here (drop (pos m) input) = Some (type m) ->
  text m = lexeme (type m) ->
  token_ok input m.
Proof.
  intros Hty Hm Ht. unfold token_ok.
  destruct (TokenType_eqb (type m) TText) eqn:E; [|auto].
  destruct (type m); simpl in E; congruence.
Qed.

Lemma is_text_token_false m : type m <> TText -> is_text_token m = false.
Proof.
  unfold is_text_token. destruct (type m); simpl; congruence.
Qed.

(** The reducer of [compile] keeps every token as described, ends on a
    match and never puts two texts side by side. *)
Lemma compile_fold_tokens input : forall matches out offset,
  matches_ok input offset matches ->
  matches_exact input offset matches ->
  offset <= String.length input ->
  Forall (token_ok input) out ->
  adjacent_text_tokens out = false ->
  last_is_text out = false ->
  exists tokens offset',
    fold_left (compile_step input) matches (out, offset) = (tokens, offset')
    /\ Forall (token_ok input) tokens
    /\ adjacent_text_tokens tokens = false
    /\ last_is_text tokens = false
    /\ offset' <= String.length input
    /\ (forall p, offset' <= p -> match_here (drop p input) = None).
Proof.
  induction matches as [|m ms IH]; simpl; intros out offset Hok Hex Ho Hall Hadj Hlast.
  - exists out, offset. repeat split; auto.
  - destruct Hok as (H1 & H2 & H3 & H4 & H5 & H6).
    destruct Hex as (E1 & E2 & E3 & E4).
    pose proof (is_text_token_false m H2) as Hm.
    pose proof (token_ok_match input m H2 E2 E3) as Hmok.
    destruct (offset <? pos m) eqn:L.
    + apply Nat.ltb_lt in L.
      set (txt := {| type := TText;
                     text := substr input offset (pos m - offset);
                     pos := offset |}).
      apply IH; auto.
      * apply Forall_app. split; [|repeat constructor; assumption].
        apply Forall_app. split; [assumption|]. repeat constructor.
        apply token_ok_text; [lia|]. intros p Hp Hq. apply E1; lia.
      * rewrite adjacent_text_tokens_snoc, adjacent_text_tokens_snoc.
        rewrite Hadj, Hlast, Hm. simpl. now rewrite andb_false_r.
      * rewrite last_is_text_snoc. exact Hm.
    + apply IH; auto.
      * apply Forall_app. split; [assumption|]. repeat constructor. assumption.
      * rewrite adjacent_text_tokens_snoc, Hadj, Hm.
        simpl. now rewrite andb_false_r.
      * rewrite last_is_text_snoc. exact Hm.
Qed.

Lemma compile_scan_ok input :
  exists tokens,
    compile input = Some tokens
    /\ tiles input 0 (String.length input) tokens
    /\ Forall (token_ok input) tokens
    /\ adjacent_text_tokens tokens = false.
Proof.
  destruct (compile_tiles input) as (tokens & E & Ht).
  exists tokens. split; [exact E|]. split; [exact Ht|].
  revert E. unfold compile, compile_fuel.
  destruct (exec_loop_total (String.length input) input 0) as [ms E]; [lia|].
  rewrite E.
  pose proof (exec_loop_ok _ _ _ _ E) as Hok.
  pose proof (exec_loop_exact _ _ _ _ E) as Hex.
  destruct (compile_fold_tokens input ms [] 0 Hok Hex)
    as (toks & offset & F & Hall & Hadj & Hlast & Ho & Hnone);
    auto; [lia|].
  rewrite F.
  destruct (offset <? String.length input) eqn:L;
    intros H; injection H as <-; [|split; assumption].
  apply Nat.ltb_lt in L. split.
  - apply Forall_app. split; [exact Hall|]. repeat constructor.
    rewrite substr_from_drop, <- (take_all (drop offset input)),
      <- substring_drop, drop_length.
    apply token_ok_text; [lia|]. intros p Hp _. now apply Hnone.
  - rewrite adjacent_text_tokens_snoc, Hadj, Hlast. reflexivity.
Qed.

End ScannerTokens.

(** X2.  The scan of any input covers it piece by piece: every token
    sits where the one before it ends, the first at 0 and the last up to
    the end of the input, its text is the piece of the input at its
    position and is not empty.  A literal-text token has no delimiter
    starting at any of its positions; a delimiter token carries exactly
    the string of its type, which is the first alternative of the regular
    expression that matches there; and two literal-text tokens never
    follow one another. *)
Theorem compile_tokens_exact :
  forall input,
  exists tokens,
    compile input = Some tokens
    /\ tiles input 0 (String.length input) tokens
    /\ Forall (token_ok input) tokens
    /\ adjacent_text_tokens tokens = false.
Proof.
  intros input.
  destruct (compile_scan_ok input) as (tokens & E & Ht & Hok & Hadj).
  exists tokens. split; [exact E|]. split; [exact Ht|].
  split; [exact Hok|exact Hadj].
Qed.

(** ** Input without any delimiter *)

(** X3.  When the regular expression matches nowhere in the input, the
    whole pipeline gives a sentence holding the input as its only text
    (and nothing for the empty input), and the text, the LaTeX and the
    Markdown of the tree are the input, character for character; the HTML
    is the input inside the span of the sentence.  Nothing is escaped. *)
Theorem plain_input_passes_through :
  forall input,
    exec input 0 = None ->
    let tree := Sentence (if truthy input then [Text input] else []) in
    run input = Some tree
    /\ toText tree = input
    /\ toLatex tree = input
    /\ toMarkdown tree = input
    /\ toHTML tree
       = ("<span class=" ++ dquote ++ "sentence" ++ dquote ++ ">"
            ++ input ++ "</span>")%string.
Proof.
  intros input H. cbv zeta. split.
  - unfold run, compile, compile_fuel. rewrite exec_loop_S, H. simpl fold_left.
    cbv iota beta. destruct input as [|c str]; [reflexivity|].
    replace (0 <? String.length (String c str)) with true by reflexivity.
    rewrite substr_from_drop. reflexivity.
  - destruct input; repeat split; reflexivity.
Qed.

Lemma plain_input_passes_through_witness :
  exec "1 < 2 & 'a'" 0 = None
  /\ run "1 < 2 & 'a'" = Some (Sentence [Text "1 < 2 & 'a'"])
  /\ toHTML (Sentence [Text "1 < 2 & 'a'"])
     = ("<span class=" ++ dquote ++ "sentence" ++ dquote ++ ">"
          ++ "1 < 2 & 'a'" ++ "</span>")%string.
Proof.
  split; [reflexivity|].
  destruct (plain_input_passes_through "1 < 2 & 'a'" eq_refl)
    as (H1 & _ & _ & _ & H2).
  split; [exact H1|exact H2].
Defined.

(** ** What the parser builds *)

Section ParserShape.

Lemma forallb_snoc {A} (f : A -> bool) l x :
  forallb f (l ++ [x]) = forallb f l && f x.
Proof. rewrite forallb_app. simpl. now rewrite andb_true_r. Qed.

Lemma link_result_filled pipe pre post :
  forallb filled pre = true -> forallb filled post = true ->
  forallb filled (link_result pipe pre post) = true.
Proof.
  intros Hpre Hpost. unfold link_result.
  destruct pipe; simpl.
  - destruct post as [|x post]; [reflexivity|].
    destruct pre as [|y pre]; [exact Hpost|].
    simpl in *. now rewrite Hpost.
  - destruct pre as [|y pre]; [reflexivity|].
    simpl in *. now rewrite Hpre.
Qed.

Lemma until_result_filled token close wrap childs :
  parser_for token = parser_until close wrap ->
  forallb filled childs = true ->
  forallb filled (until_result wrap childs) = true.
Proof.
  intros Hp Hc. unfold until_result.
  destruct childs as [|c cs]; [reflexivity|].
  unfold parser_for, parsers in Hp.
  simpl in Hc. apply andb_prop in Hc as [Hc1 Hc2].
  destruct (type token); inversion Hp; subst; simpl;
    rewrite ?forallb_app; simpl; rewrite ?Hc1, ?Hc2; reflexivity.
Qed.

Lemma truthy_nonempty str : str <> "" -> truthy str = true.
Proof. destruct str; [congruence|reflexivity]. Qed.

Lemma parser_filled fuel :
  (forall token tokens nodes rest,
     text token <> "" -> nonempty_tokens tokens ->
     parseToken fuel token tokens = Some (nodes, rest) ->
     forallb filled nodes = true /\ nonempty_tokens rest)
  /\ (forall close childs tokens childs' rest,
        nonempty_tokens tokens -> forallb filled childs = true ->
        until_loop fuel close childs tokens = Some (childs', rest) ->
        forallb filled childs' = true /\ nonempty_tokens rest)
  /\ (forall pipe pre post tokens pipe' pre' post' rest,
        nonempty_tokens tokens ->
        forallb filled pre = true -> forallb filled post = true ->
        link_loop fuel pipe pre post tokens = Some (pipe', pre', post', rest) ->
        forallb filled pre' = true /\ forallb filled post' = true
        /\ nonempty_tokens rest).
Proof.
  induction fuel as [|fuel (IHp & IHu & IHl)].
  - repeat split; discriminate.
  - split; [|split].
    + intros token tokens nodes rest Hne Hts. rewrite parseToken_S.
      destruct (parser_for token) as [| |close wrap] eqn:P.
      * intros H; injection H as <- <-. simpl.
        now rewrite (truthy_nonempty _ Hne).
      * destruct (link_loop fuel false [] [] tokens)
          as [[[[p pre] post] r]|] eqn:E; try discriminate.
        intros H; injection H as <- <-.
        destruct (IHl false [] [] tokens p pre post r Hts eq_refl eq_refl E)
          as (H1 & H2 & H3).
        split; [now apply link_result_filled|assumption].
      * destruct (until_loop fuel close [] tokens) as [[cs r]|] eqn:E;
          try discriminate.
        intros H; injection H as <- <-.
        destruct (IHu close [] tokens cs r Hts eq_refl E) as (H1 & H2).
        split; [now apply (until_result_filled token close)|assumption].
    + intros close childs tokens childs' rest Hts Hc. rewrite until_loop_S.
      destruct tokens as [|x r].
      * intros H; injection H as <- <-. auto.
      * inversion Hts as [|? ? Hx Hr]; subst.
        destruct (TokenType_eqb (type x) close).
        { intros H; injection H as <- <-. auto. }
        destruct (parseToken fuel x r) as [[parsed r']|] eqn:E;
          try discriminate.
        destruct (IHp _ _ _ _ Hx Hr E) as (H1 & H2).
        apply IHu; [assumption|]. now rewrite forallb_app, Hc, H1.
    + intros pipe pre post tokens pipe' pre' post' rest Hts Hpre Hpost.
      rewrite link_loop_S. destruct tokens as [|x r].
      * intros H; injection H as <- <- <- <-. auto.
      * inversion Hts as [|? ? Hx Hr]; subst.
        destruct (TokenType_eqb (type x) TPipe); [now apply IHl|].
        destruct (TokenType_eqb (type x) TLinkClose).
        { intros H; injection H as <- <- <- <-. auto. }
        destruct (parseToken fuel x r) as [[parsed r']|] eqn:E;
          try discriminate.
        destruct (IHp _ _ _ _ Hx Hr E) as (H1 & H2).
        destruct pipe; apply IHl; auto;
          now rewrite forallb_app, ?Hpre, ?Hpost, H1.
Qed.

Lemma parse_loop_filled fuel : forall out tokens out',
  nonempty_tokens tokens -> forallb filled out = true ->
  parse_loop fuel out tokens = Some out' ->
  forallb filled out' = true.
Proof.
  induction fuel as [|fuel IH]; intros out tokens out' Hts Hout;
    [discriminate|]. rewrite parse_loop_S.
  destruct tokens as [|x r].
  - intros H; injection H as <-. assumption.
  - inversion Hts as [|? ? Hx Hr]; subst.
    destruct (parseToken fuel x r) as [[parsed r']|] eqn:E; try discriminate.
    destruct (proj1 (parser_filled fuel) _ _ _ _ Hx Hr E) as (H1 & H2).
    apply IH; [assumption|]. now rewrite forallb_app, Hout, H1.
Qed.

End ParserShape.

(** X4.  The tree parsed from the scan of any input is a sentence below
    which there is no sentence, no empty text and no tag without a child:
    a construct that would have no child is left out. *)
Theorem parsed_tree_filled :
  forall input,
  exists childs,
    bind (compile input) parse = Some (Sentence childs)
    /\ forallb filled childs = true.
Proof.
  intros input. destruct (compile_tiles input) as (tokens & E & Ht).
  rewrite E. simpl. unfold parse, parse_fuel.
  destruct (parse_loop_total (List.length tokens) tokens []
              (2 * List.length tokens + 2) (le_n _)) as [out L]; [lia|].
  rewrite L. exists out. split; [reflexivity|].
  apply (parse_loop_filled (2 * List.length tokens + 2) [] tokens out);
    [|reflexivity|exact L].
  eapply tiles_nonempty; eauto.
Qed.

(** ** Links and pipes *)

Section LinksAndPipes.

Lemma string_eqb_refl str : String.eqb str str = true.
Proof. apply String.eqb_refl. Qed.

Lemma link_result_self_titled pre :
  forallb self_titled pre = true ->
  forallb self_titled (link_result false pre []) = true.
Proof.
  intros Hpre. unfold link_result. simpl.
  destruct pre as [|y pre]; [reflexivity|].
  cbn [List.length Nat.eqb forallb self_titled].
  cbn [forallb] in Hpre. now rewrite string_eqb_refl, Hpre.
Qed.

Lemma until_result_self_titled token close wrap childs :
  parser_for token = parser_until close wrap ->
  forallb self_titled childs = true ->
  forallb self_titled (until_result wrap childs) = true.
Proof.
  intros Hp Hc. unfold until_result.
  destruct childs as [|c cs]; [reflexivity|].
  unfold parser_for, parsers in Hp.
  simpl in Hc. apply andb_prop in Hc as [Hc1 Hc2].
  destruct (type token); inversion Hp; subst; simpl;
    rewrite ?forallb_app; simpl; rewrite ?Hc1, ?Hc2; reflexivity.
Qed.

Lemma parser_self_titled fuel :
  (forall token tokens nodes rest,
     pipe_free tokens ->
     parseToken fuel token tokens = Some (nodes, rest) ->
     forallb self_titled nodes = true /\ pipe_free rest)
  /\ (forall close childs tokens childs' rest,
        pipe_free tokens -> forallb self_titled childs = true ->
        until_loop fuel close childs tokens = Some (childs', rest) ->
        forallb self_titled childs' = true /\ pipe_free rest)
  /\ (forall pre tokens pipe' pre' post' rest,
        pipe_free tokens -> forallb self_titled pre = true ->
        link_loop fuel false pre [] tokens = Some (pipe', pre', post', rest) ->
        pipe' = false /\ post' = []
        /\ forallb self_titled pre' = true /\ pipe_free rest).
Proof.
  induction fuel as [|fuel (IHp & IHu & IHl)].
  - repeat split; discriminate.
  - split; [|split].
    + intros token tokens nodes rest Hts. rewrite parseToken_S.
      destruct (parser_for token) as [| |close wrap] eqn:P.
      * intros H; injection H as <- <-. auto.
      * destruct (link_loop fuel false [] [] tokens)
          as [[[[p pre] post] r]|] eqn:E; try discriminate.
        intros H; injection H as <- <-.
        destruct (IHl [] tokens p pre post r Hts eq_refl E)
          as (-> & -> & H1 & H2).
        split; [now apply link_result_self_titled|assumption].
      * destruct (until_loop fuel close [] tokens) as [[cs r]|] eqn:E;
          try discriminate.
        intros H; injection H as <- <-.
        destruct (IHu close [] tokens cs r Hts eq_refl E) as (H1 & H2).
        split; [now apply (until_result_self_titled token close)|assumption].
    + intros close childs tokens childs' rest Hts Hc. rewrite until_loop_S.
      destruct tokens as [|x r].
      * intros H; injection H as <- <-. auto.
      * inversion Hts as [|? ? Hx Hr]; subst.
        destruct (TokenType_eqb (type x) close).
        { intros H; injection H as <- <-. auto. }
        destruct (parseToken fuel x r) as [[parsed r']|] eqn:E;
          try discriminate.
        destruct (IHp _ _ _ _ Hr E) as (H1 & H2).
        apply IHu; [assumption|]. now rewrite forallb_app, Hc, H1.
    + intros pre tokens pipe' pre' post' rest Hts Hpre.
      rewrite link_loop_S. destruct tokens as [|x r].
      * intros H; injection H as <- <- <- <-. auto.
      * inversion Hts as [|? ? Hx Hr]; subst.
        unfold is_pipe_token in Hx. rewrite Hx.
        destruct (TokenType_eqb (type x) TLinkClose).
        { intros H; injection H as <- <- <- <-. auto. }
        destruct (parseToken fuel x r) as [[parsed r']|] eqn:E;
          try discriminate.
        destruct (IHp _ _ _ _ Hr E) as (H1 & H2).
        apply IHl; [assumption|]. now rewrite forallb_app, Hpre, H1.
Qed.

Lemma parse_loop_self_titled fuel : forall out tokens out',
  pipe_free tokens -> forallb self_titled out = true ->
  parse_loop fuel out tokens = Some out' ->
  forallb self_titled out' = true.
Proof.
  induction fuel as [|fuel IH]; intros out tokens out' Hts Hout;
    [discriminate|]. rewrite parse_loop_S.
  destruct tokens as [|x r].
  - intros H; injection H as <-. assumption.
  - inversion Hts as [|? ? Hx Hr]; subst.
    destruct (parseToken fuel x r) as [[parsed r']|] eqn:E; try discriminate.
    destruct (proj1 (parser_self_titled fuel) _ _ _ _ Hr E) as (H1 & H2).
    apply IH; [assumption|]. now rewrite forallb_app, Hout, H1.
Qed.

Lemma search_unfold filter n :
  search filter n
  = (if filter n then [n] else []) ++ flat_map (search filter) (childs_of n).
Proof. destruct n; reflexivity. Qed.

Lemma self_titled_childs n :
  self_titled n = true -> forallb self_titled (childs_of n) = true.
Proof.
  destruct n; simpl; auto. intros H. now apply andb_prop in H as [_ H].
Qed.

Lemma self_titled_search k : forall n,
  size n <= k -> self_titled n = true ->
  forall l, In l (search isLink n) ->
  exists target childs, l = Link target childs /\ toText l = target.
Proof.
  induction k as [|k IH]; intros n Hs Hn l Hl.
  - pose proof (size_pos n). lia.
  - rewrite search_unfold in Hl. apply in_app_or in Hl as [Hl|Hl].
    + destruct n as [| | | |target cs]; simpl in Hl; try contradiction.
      destruct Hl as [<-|[]]. exists target, cs. split; [reflexivity|].
      simpl in Hn. apply andb_prop in Hn as [Hn _].
      apply String.eqb_eq in Hn. simpl. now rewrite transform_join.
    + apply in_flat_map in Hl as (c & Hc & Hl).
      apply (IH c); auto.
      * destruct (isNodeWithChilds n) eqn:C.
        -- rewrite (size_container _ C) in Hs.
           apply size_in in Hc. lia.
        -- destruct n; try discriminate. contradiction.
      * apply self_titled_childs in Hn.
        rewrite forallb_forall in Hn. now apply Hn.
Qed.

End LinksAndPipes.

(** X5.  When no token is a pipe, every link of the parsed tree, at any
    depth, has for target exactly the text it displays. *)
Theorem pipe_free_links_show_target :
  forall tokens tree l,
    pipe_free tokens ->
    parse tokens = Some tree ->
    In l (search isLink tree) ->
    exists target childs, l = Link target childs /\ toText l = target.
Proof.
  intros tokens tree l Hts Hp Hl. unfold parse, parse_fuel in Hp.
  destruct (parse_loop _ [] tokens) as [out|] eqn:E; try discriminate.
  injection Hp as <-.
  apply (self_titled_search (size (Sentence out)) (Sentence out));
    [apply le_n| |exact Hl].
  simpl. apply (parse_loop_self_titled _ [] tokens out Hts eq_refl E).
Qed.

Lemma pipe_free_links_show_target_witness :
  let tokens := [ {| type := TBoldOpen; text := "<b>"; pos := 0 |};
                  {| type := TLinkOpen; text := "[["; pos := 3 |};
                  {| type := TText; text := "a "; pos := 5 |};
                  {| type := TQuote2; text := "''"; pos := 7 |};
                  {| type := TText; text := "b"; pos := 9 |} ] in
  let link := Link "a b" [Text "a "; Italic [Text "b"]] in
  pipe_free tokens
  /\ parse tokens = Some (Sentence [Bold [link]])
  /\ In link (search isLink (Sentence [Bold [link]]))
  /\ exists target childs, link = Link target childs /\ toText link = target.
Proof.
  intros tokens link.
  assert (Hfree : pipe_free tokens) by (repeat constructor).
  assert (Hin : In link (search isLink (Sentence [Bold [link]])))
    by (left; reflexivity).
  repeat split; try assumption; try reflexivity.
  exact (pipe_free_links_show_target tokens _ link Hfree eq_refl Hin).
Defined.

Section PipesInLinks.

(** The link loop over texts and pipes, from any state. *)
Lemma links_texts_and_pipes close rest :
  type close = TLinkClose ->
  forall tokens pipe pre post,
    texts_and_pipes tokens ->
    links pipe pre post (tokens ++ close :: rest)
      (pipe || existsb is_pipe_token tokens,
       (if pipe then pre
        else pre ++ map text_node (before_first_pipe tokens)),
       (if pipe then post ++ map text_node (without_pipes tokens)
        else post ++ map text_node (without_pipes (after_first_pipe tokens))),
       rest).
Proof.
  intros Hclose.
  induction tokens as [|x tokens IH]; intros pipe pre post Hts.
  - simpl. apply links_close; rewrite ?Hclose; try reflexivity.
    rewrite orb_false_r. destruct pipe; now rewrite !app_nil_r.
  - inversion Hts as [|? ? Hx Hrest]; subst. simpl app.
    destruct Hx as [Hx|Hx].
    + assert (Hp : is_pipe_token x = false)
        by (unfold is_pipe_token; now rewrite Hx).
      apply links_step; [exact Hp|now rewrite Hx|].
      exists [text_node x], (tokens ++ close :: rest).
      split; [now apply text_token_parses|].
      unfold without_pipes in *. simpl. rewrite Hp. simpl.
      specialize (IH pipe (if pipe then pre else pre ++ [text_node x])
                    (if pipe then post ++ [text_node x] else post) Hrest).
      destruct pipe; simpl in *; rewrite <- ?app_assoc in IH; exact IH.
    + assert (Hp : is_pipe_token x = true)
        by (unfold is_pipe_token; now rewrite Hx).
      apply links_pipe; [exact Hp|].
      unfold without_pipes in *. simpl. rewrite Hp. simpl.
      specialize (IH true pre post Hrest). simpl in IH.
      rewrite orb_true_r, ?app_nil_r. destruct pipe; exact IH.
Qed.

End PipesInLinks.

(** X6.  In a link made of literal texts and pipes only, the target
    expression is the texts before the first pipe and the display
    expression is the texts behind it; every pipe, the first and the later
    ones alike, is consumed without leaving a node.  What the link rule
    makes of the two expressions is followed by the parse of what comes
    behind the closing bracket. *)
Theorem link_of_texts_and_pipes :
  forall open tokens close after out,
    type open = TLinkOpen ->
    type close = TLinkClose ->
    texts_and_pipes tokens ->
    parse after = Some (Sentence out) ->
    parse (open :: tokens ++ close :: after)
    = Some (Sentence
              (link_result (existsb is_pipe_token tokens)
                 (map text_node (before_first_pipe tokens))
                 (map text_node (without_pipes (after_first_pipe tokens)))
               ++ out)).
Proof.
  intros open tokens close after out Hopen Hclose Hts Hafter.
  apply parse_tops. apply parse_tops in Hafter. apply tops_step.
  eexists; exists after. split.
  - apply parses_unfold. unfold parser_for. rewrite Hopen. simpl.
    do 4 eexists. split; [|reflexivity].
    exact (links_texts_and_pipes close after Hclose tokens false [] [] Hts).
  - simpl.
    pose proof (tops_shift (List.length after) after (le_n _) []
                  (link_result (existsb is_pipe_token tokens)
                     (map text_node (before_first_pipe tokens))
                     (map text_node (without_pipes (after_first_pipe tokens))))
                  out Hafter) as H.
    now rewrite app_nil_r in H.
Qed.

Lemma link_of_texts_and_pipes_witness :
  let tx (str : string) := {| type := TText; text := str; pos := 0 |} in
  let bar := {| type := TPipe; text := "|"; pos := 0 |} in
  let open := {| type := TLinkOpen; text := "[["; pos := 0 |} in
  let close := {| type := TLinkClose; text := "]]"; pos := 0 |} in
  texts_and_pipes [tx "a"; bar; tx "b"; bar; tx "c"]
  /\ parse (open :: [tx "a"; bar; tx "b"; bar; tx "c"] ++ close :: [tx "!"])
     = Some (Sentence [Link "a" [Text "b"; Text "c"]; Text "!"]).
Proof.
  intros tx bar open close.
  assert (H : texts_and_pipes [tx "a"; bar; tx "b"; bar; tx "c"])
    by (repeat constructor; auto).
  split; [exact H|].
  exact (link_of_texts_and_pipes open _ close [tx "!"] [Text "!"]
           eq_refl eq_refl H eq_refl).
Defined.

(** ** The optimizer and its options *)

Section OptimizerOptions.

Lemma nested_empty n : nested empty_context n = false.
Proof. reflexivity. Qed.

Lemma flatten_empty l : flatten empty_context l = l.
Proof.
  apply flatten_id. apply Forall_forall. intros; apply nested_empty.
Qed.

Lemma reduce_skip opt conf classy :
  skip_class conf classy = true ->
  forall l out,
    reduce (_optimize_combine opt conf classy) l out = Some (out ++ l).
Proof.
  intros Hskip. induction l as [|n l IH]; intros out; cbn [reduce].
  - now rewrite app_nil_r.
  - unfold _optimize_combine at 1. rewrite Hskip, IH, <- app_assoc.
    reflexivity.
Qed.

Lemma enter_off conf t :
  nestedLinks conf = false -> nestedItalics conf = false ->
  nestedBolds conf = false ->
  enter conf empty_context t = empty_context.
Proof. intros H1 H2 H3. unfold enter. now rewrite H1, H2, H3. Qed.

Lemma optimize_off fuel : forall t,
  size t <= fuel -> optimize fuel no_conf empty_context t = Some t.
Proof.
  induction fuel as [|fuel IH]; intros t Hs.
  - pose proof (size_pos t). lia.
  - destruct (isNodeWithChilds t) eqn:C.
    + rewrite optimize_S by assumption. cbv zeta.
      rewrite enter_off by reflexivity. rewrite flatten_empty.
      rewrite (size_container _ C) in Hs.
      rewrite map_nodes_id.
      * rewrite !reduce_skip by reflexivity. simpl.
        now rewrite set_childs_same.
      * intros c Hc. apply IH. apply size_in in Hc. lia.
    + destruct t; try discriminate. apply optimize_Text.
Qed.

(** Merging texts for a renderer that writes a text as it is and a node
    from what it writes for the children. *)
Section TextMerge.

Variable render : Node -> string.
Hypothesis render_Text : forall txt, render (Text txt) = txt.
Hypothesis render_childs : forall t cs cs',
  isNodeWithChilds t = true ->
  join (map render cs) = join (map render cs') ->
  render (set_childs t cs) = render (set_childs t cs').

Variable opt : Node -> option Node.
Hypothesis opt_render : forall n n', opt n = Some n' -> render n' = render n.

Lemma renders_app l1 l2 :
  join (map render (l1 ++ l2))
  = (join (map render l1) ++ join (map render l2))%string.
Proof. now rewrite map_app, join_app. Qed.

Lemma map_nodes_render : forall l l',
  map_nodes opt l = Some l' -> join (map render l') = join (map render l).
Proof.
  induction l as [|n l IH]; simpl; intros l' H.
  - now injection H as <-.
  - destruct (opt n) as [n'|] eqn:E; try discriminate.
    destruct (map_nodes opt l) as [r|] eqn:M; try discriminate.
    injection H as <-. simpl. now rewrite (opt_render _ _ E), (IH _ eq_refl).
Qed.

Lemma text_step_render conf out node out' :
  _optimize_combine opt conf CText out node = Some out' ->
  join (map render out') = (join (map render out) ++ render node)%string.
Proof.
  unfold _optimize_combine.
  assert (Hkeep : join (map render (out ++ [node]))
                  = (join (map render out) ++ render node)%string)
    by (rewrite renders_app; simpl; now rewrite append_empty_r).
  destruct (skip_class conf CText); [congruence|].
  destruct (last_node out) as [last|] eqn:L; [|congruence].
  destruct (instanceof last CText) eqn:I1; [|simpl; congruence].
  destruct (instanceof node CText) eqn:I2; [|simpl; congruence].
  destruct last as [x| | | |], node as [y| | | |]; try discriminate.
  simpl combine. simpl andb. cbv iota.
  destruct (opt (Text (x ++ y))) as [m|] eqn:E; try discriminate.
  intros H; injection H as <-.
  apply last_node_spec in L. rewrite L at 2.
  rewrite !renders_app. simpl.
  rewrite (opt_render _ _ E), !render_Text.
  now rewrite !append_empty_r, append_assoc.
Qed.

Lemma text_pass_render conf : forall l out out',
  reduce (_optimize_combine opt conf CText) l out = Some out' ->
  join (map render out')
  = (join (map render out) ++ join (map render l))%string.
Proof.
  induction l as [|n l IH]; simpl; intros out out' H.
  - injection H as <-. now rewrite append_empty_r.
  - destruct (_optimize_combine opt conf CText out n) as [o|] eqn:E;
      try discriminate.
    rewrite (IH _ _ H), (text_step_render _ _ _ _ E). apply append_assoc.
Qed.

End TextMerge.

Lemma optimize_texts_render render :
  (forall txt, render (Text txt) = txt) ->
  (forall t cs cs', isNodeWithChilds t = true ->
     join (map render cs) = join (map render cs') ->
     render (set_childs t cs) = render (set_childs t cs')) ->
  forall fuel t t',
    optimize fuel texts_conf empty_context t = Some t' -> render t' = render t.
Proof.
  intros HT HC. induction fuel as [|fuel IH]; intros t t' H.
  - destruct (isNodeWithChilds t) eqn:C; [now rewrite optimize_O in H|].
    destruct t; try discriminate. rewrite optimize_Text in H. congruence.
  - destruct (isNodeWithChilds t) eqn:C.
    + rewrite optimize_S in H by assumption. cbv zeta in H.
      rewrite enter_off in H by reflexivity. rewrite flatten_empty in H.
      set (opt := optimize fuel texts_conf empty_context) in *.
      destruct (map_nodes opt _) as [c0|] eqn:E0; try discriminate.
      destruct (reduce _ c0 []) as [c1|] eqn:E1; try discriminate.
      rewrite !reduce_skip in H by reflexivity. simpl in H.
      injection H as <-.
      rewrite <- (set_childs_same t) at 2. apply HC; [assumption|].
      rewrite (text_pass_render render HT opt IH _ _ _ _ E1). simpl.
      apply (map_nodes_render render opt IH _ _ E0).
    + destruct t; try discriminate. rewrite optimize_Text in H. congruence.
Qed.

Lemma toHTML_childs t cs cs' :
  isNodeWithChilds t = true ->
  join (map toHTML cs) = join (map toHTML cs') ->
  toHTML (set_childs t cs) = toHTML (set_childs t cs').
Proof.
  destruct t; try discriminate; intros _ H; simpl;
    rewrite !transform_join, H; reflexivity.
Qed.

Lemma toLatex_childs t cs cs' :
  isNodeWithChilds t = true ->
  join (map toLatex cs) = join (map toLatex cs') ->
  toLatex (set_childs t cs) = toLatex (set_childs t cs').
Proof.
  destruct t; try discriminate; intros _ H; simpl;
    rewrite !transform_join, H; reflexivity.
Qed.

Lemma toMarkdown_childs t cs cs' :
  isNodeWithChilds t = true ->
  join (map toMarkdown cs) = join (map toMarkdown cs') ->
  toMarkdown (set_childs t cs) = toMarkdown (set_childs t cs').
Proof.
  destruct t; try discriminate; intros _ H; simpl;
    rewrite !transform_join, H; reflexivity.
Qed.

End OptimizerOptions.

(** X7.  With every option switched off and the default context,
    [optimize] gives back the tree it was given, whatever the tree. *)
Theorem optimize_all_off_is_identity :
  forall t fuel,
    size t <= fuel -> optimize fuel no_conf empty_context t = Some t.
Proof. intros t fuel H. now apply optimize_off. Qed.

Lemma optimize_all_off_is_identity_witness :
  let t := Sentence [Bold [Bold [Text "a"; Text "b"]]; Bold [Text "c"]] in
  size t <= 7 /\ optimize 7 no_conf empty_context t = Some t.
Proof.
  intros t. split; [vm_compute; repeat constructor|].
  apply (optimize_all_off_is_identity t 7). vm_compute. repeat constructor.
Defined.

(** X8.  Whatever the options and the context, [optimize] returns a tree
    of the class of the one it was given, with the same target when it is
    a link, with the same text and with no more nodes. *)
Theorem optimize_any_options :
  forall conf ctx t,
  exists t',
    optimize (size t) conf ctx t = Some t'
    /\ t' = set_childs t (childs_of t')
    /\ toText t' = toText t
    /\ size t' <= size t.
Proof.
  intros conf ctx t.
  destruct (optimize_total (size t) conf ctx t (le_n _)) as (t' & E & Hs).
  exists t'. repeat split; auto.
  - destruct (optimize_shape _ _ _ _ _ E) as [cs ->].
    destruct t; reflexivity.
  - exact (optimize_text _ _ _ _ _ E).
Qed.

(** X9.  With only the merging of texts switched on, optimizing changes
    none of the renderings: the text, the HTML, the LaTeX and the Markdown
    of the result are those of the tree given. *)
Theorem merging_texts_keeps_renderings :
  forall t,
  exists t',
    optimize (size t) texts_conf empty_context t = Some t'
    /\ toText t' = toText t
    /\ toHTML t' = toHTML t
    /\ toLatex t' = toLatex t
    /\ toMarkdown t' = toMarkdown t.
Proof.
  intros t.
  destruct (optimize_total (size t) texts_conf empty_context t (le_n _))
    as (t' & E & _).
  exists t'. split; [exact E|]. repeat split.
  - exact (optimize_text _ _ _ _ _ E).
  - exact (optimize_texts_render toHTML (fun _ => eq_refl) toHTML_childs _ _ _ E).
  - exact (optimize_texts_render toLatex (fun _ => eq_refl) toLatex_childs _ _ _ E).
  - exact (optimize_texts_render toMarkdown (fun _ => eq_refl)
             toMarkdown_childs _ _ _ E).
Qed.

(** X10.  On a tree whose flatten passes leave no nested tag behind, one
    run of the optimizer with the default options gives a tree in which no
    tag lies below a tag of its kind and no two neighbours are both texts,
    both italics or both bolds, and a further run gives that tree again. *)
Theorem optimize_plain_is_normal :
  forall t,
    plain empty_context t ->
    exists t',
      optimize_default t = Some t'
      /\ normal empty_context t'
      /\ optimize_default t' = Some t'.
Proof.
  intros t Hp. unfold optimize_default.
  destruct (optimize_total (size t) optimize_conf empty_context t (le_n _))
    as (t' & E & _).
  exists t'. split; [exact E|].
  pose proof (optimize_normal _ _ _ _ Hp E) as Hn.
  split; [exact Hn|]. now apply optimize_normal_id.
Qed.

Lemma optimize_plain_is_normal_witness :
  let t := Sentence [Text "pre ";
                     Bold [Text "pre "; Bold [Text "bold"]; Text " post"];
                     Text " post"] in
  plain empty_context t
  /\ exists t',
      optimize_default t = Some t'
      /\ normal empty_context t'
      /\ optimize_default t' = Some t'.
Proof.
  intros t. split; [exact plain_bold_in_bold|].
  exact (optimize_plain_is_normal t plain_bold_in_bold).
Defined.

(** ** The search and the summary of a sentence *)

Section SearchFacts.

Lemma flat_map_ext_in {A B} (g h : A -> list B) l :
  (forall x, In x l -> g x = h x) -> flat_map g l = flat_map h l.
Proof.
  induction l as [|x l IH]; intros H; simpl; [reflexivity|].
  rewrite (H x (or_introl eq_refl)), IH; auto.
  intros y Hy. apply H. now right.
Qed.

Lemma filter_flat_map {A B} (f : B -> bool) (g : A -> list B) l :
  filter f (flat_map g l) = flat_map (fun x => filter f (g x)) l.
Proof.
  induction l as [|x l IH]; simpl; [reflexivity|].
  now rewrite filter_app, IH.
Qed.

Lemma size_child n c : In c (childs_of n) -> size c < size n.
Proof.
  intros Hc. destruct (isNodeWithChilds n) eqn:C.
  - rewrite (size_container _ C). apply size_in in Hc. lia.
  - destruct n; try discriminate. contradiction.
Qed.

Lemma search_filter k : forall filter n,
  size n <= k ->
  search filter n = List.filter filter (search (fun _ => true) n).
Proof.
  induction k as [|k IH]; intros f n Hs.
  - pose proof (size_pos n). lia.
  - rewrite (search_unfold f), (search_unfold (fun _ => true)).
    cbn [app List.filter]. rewrite filter_flat_map.
    rewrite (flat_map_ext_in (search f)
               (fun x => List.filter f (search (fun _ => true) x))).
    + now destruct (f n).
    + intros c Hc. apply IH. apply size_child in Hc. lia.
Qed.

Lemma search_all_length k : forall n,
  size n <= k -> List.length (search (fun _ => true) n) = size n.
Proof.
  induction k as [|k IH]; intros n Hs.
  - pose proof (size_pos n). lia.
  - rewrite search_unfold. cbn [app List.length].
    assert (Hl : forall l, (forall c, In c l -> size c <= k) ->
              List.length (flat_map (search (fun _ => true)) l) = sizes l).
    { induction l as [|c l IHl]; intros H; [reflexivity|].
      simpl flat_map. rewrite length_app, sizes_cons, IHl, IH; auto.
      - apply H. now left.
      - intros d Hd. apply H. now right. }
    rewrite Hl.
    + destruct (isNodeWithChilds n) eqn:C.
      * now rewrite (size_container _ C).
      * destruct n; try discriminate. reflexivity.
    + intros c Hc. apply size_child in Hc. lia.
Qed.

Lemma search_text k : forall n,
  size n <= k -> toText n = join (map toText (search isText n)).
Proof.
  induction k as [|k IH]; intros n Hs.
  - pose proof (size_pos n). lia.
  - destruct (isNodeWithChilds n) eqn:C.
    + rewrite (toText_childs _ C), search_unfold.
      replace (isText n) with false by (now destruct n).
      cbn [app].
      assert (Hl : forall l, (forall c, In c l -> size c <= k) ->
                join (map toText l)
                = join (map toText (flat_map (search isText) l))).
      { induction l as [|c l IHl]; intros H; [reflexivity|].
        simpl. rewrite map_app, join_app, <- IHl, <- IH; auto.
        - apply H. now left.
        - intros d Hd. apply H. now right. }
      apply Hl. intros c Hc. apply size_child in Hc. lia.
    + destruct n; try discriminate. simpl. now rewrite append_empty_r.
Qed.

Lemma search_matches filter n m : In m (search filter n) -> filter m = true.
Proof.
  rewrite (search_filter (size n)) by apply le_n.
  intros H. now apply filter_In in H.
Qed.

End SearchFacts.

(** X11.  [search] yields the nodes of the tree that satisfy the filter in
    the order in which it visits all of them, the node itself first; it
    visits every node once, and whether a node matches or not what it
    finds in a child is part of what it finds in the node. *)
Theorem search_visits_every_node :
  forall filter n,
    search filter n = List.filter filter (search (fun _ => true) n)
    /\ search (fun _ => true) n
       = n :: flat_map (search (fun _ => true)) (childs_of n)
    /\ List.length (search (fun _ => true) n) = size n
    /\ (forall c m, In c (childs_of n) -> In m (search filter c) ->
          In m (search filter n)).
Proof.
  intros f n. repeat split.
  - apply (search_filter (size n)). apply le_n.
  - apply search_unfold.
  - apply (search_all_length (size n)). apply le_n.
  - intros c m Hc Hm. rewrite search_unfold. apply in_or_app. right.
    apply in_flat_map. eauto.
Qed.

(** X12.  The text of a node is what its [Text] descendants hold, put
    together in the order in which [search] finds them. *)
Theorem text_is_the_texts_found :
  forall n, toText n = join (map toText (search isText n)).
Proof. intros n. apply (search_text (size n)). apply le_n. Qed.

(** X13.  The summary of a sentence holds its text; it has the key
    [links] exactly when the tree has a link at some depth, and then one
    link summary per link, in search order; it has the key [formatting]
    exactly when the tree has a bold or an italic, with [bold] holding the
    text of every bold and [italic] the text of every italic, each key
    there exactly when its list is not empty. *)
Theorem sentence_summary :
  forall childs,
    let this := Sentence childs in
    let texts (l : list Node) := map (fun n => JString (toText n)) l in
    exists links formatting,
      toJSON this = JSentence (toText this) links formatting
      /\ links = (if List.length (search isLink this) =? 0 then None
                  else Some (map node2json (search isLink this)))
      /\ (forall l, In l (map node2json (search isLink this)) ->
            exists target cs, l = JLink (Link_toJSON target cs))
      /\ (formatting = None <->
            search isBold this = [] /\ search isItalic this = [])
      /\ (forall f, formatting = Some f ->
            fmt_bold f = (if List.length (search isBold this) =? 0 then None
                          else Some (texts (search isBold this)))
            /\ fmt_italic f
               = (if List.length (search isItalic this) =? 0 then None
                  else Some (texts (search isItalic this)))).
Proof.
  intros cs this texts.
  assert (Hb : map node2json (search isBold this) = texts (search isBold this)).
  { apply map_ext_in. intros n Hn. apply search_matches in Hn.
    destruct n; try discriminate. reflexivity. }
  assert (Hi : map node2json (search isItalic this)
               = texts (search isItalic this)).
  { apply map_ext_in. intros n Hn. apply search_matches in Hn.
    destruct n; try discriminate. reflexivity. }
  eexists; eexists. split; [reflexivity|]. rewrite !length_map, Hb, Hi.
  split; [reflexivity|]. split.
  - intros l Hl. apply in_map_iff in Hl as (n & <- & Hn).
    apply search_matches in Hn. destruct n; try discriminate.
    simpl. eauto.
  - unfold texts.
    destruct (search isBold this) as [|x xs];
      destruct (search isItalic this) as [|y ys]; simpl.
    + split; [split; auto|intros f H; discriminate].
    + split; [split; [discriminate|intros [_ H]; discriminate]|].
      intros f H; injection H as <-. split; reflexivity.
    + split; [split; [discriminate|intros [H _]; discriminate]|].
      intros f H; injection H as <-. split; reflexivity.
    + split; [split; [discriminate|intros [H _]; discriminate]|].
      intros f H; injection H as <-. split; reflexivity.
Qed.

(** ** Joining with a separator *)

Section Separator.

Variable f : Node -> string.
Variable sep : string.

Let step (out : string) (child : Node) : string :=
  (out ++ (if truthy out then sep else "") ++ f child)%string.

Lemma truthy_append_l x y : truthy x = true -> truthy (x ++ y) = true.
Proof. destruct x; [discriminate|reflexivity]. Qed.

Lemma transform_from_truthy : forall cs acc,
  truthy acc = true ->
  fold_left step cs acc
  = (acc ++ join (map (fun r => sep ++ r)%string (map f cs)))%string.
Proof.
  induction cs as [|c cs IH]; intros acc Ha; simpl.
  - now rewrite append_empty_r.
  - rewrite IH by (unfold step; now apply truthy_append_l).
    unfold step. rewrite Ha. now rewrite !append_assoc.
Qed.

Lemma transform_skip_empty cs :
  transform f sep cs
  = match skip_empty (map f cs) with
    | [] => ""
    | r :: rs => (r ++ join (map (fun x => sep ++ x)%string rs))%string
    end.
Proof.
  unfold transform. fold step.
  induction cs as [|c cs IH]; [reflexivity|].
  simpl fold_left. simpl map. simpl skip_empty.
  unfold step at 2. simpl.
  destruct (truthy (f c)) eqn:E.
  - now apply transform_from_truthy.
  - destruct (f c); [exact IH|discriminate].
Qed.

End Separator.

Lemma toString_truthy n : truthy (toString n) = true.
Proof. destruct n; reflexivity. Qed.

Lemma skip_empty_toString l : skip_empty (map toString l) = map toString l.
Proof.
  destruct l as [|n l]; [reflexivity|]. simpl. now rewrite toString_truthy.
Qed.

Lemma concat_separator sep : forall r rs,
  (r ++ join (map (fun x => sep ++ x)%string rs))%string
  = String.concat sep (r :: rs).
Proof.
  intros r rs. revert r. induction rs as [|x rs IH]; intros r.
  - simpl. apply append_empty_r.
  - change (String.concat sep (r :: x :: rs))
      with (r ++ sep ++ String.concat sep (x :: rs))%string.
    rewrite <- (IH x). simpl. now rewrite !append_assoc.
Qed.

(** X14.  [transform] writes the separator before the rendering of a
    child only once something has been written: the empty renderings the
    list starts with are passed over without a separator, while behind the
    first rendering that is not empty every child, empty or not, gets one.
    A [toString] is never empty, so the children of a node are printed
    with a comma and a space between any two of them. *)
Theorem transform_separator :
  (forall f sep childs,
     transform f sep childs
     = match skip_empty (map f childs) with
       | [] => ""
       | r :: rs => (r ++ join (map (fun x => sep ++ x)%string rs))%string
       end)
  /\ (forall n, truthy (toString n) = true)
  /\ (forall childs,
        transform toString ", " childs
        = String.concat ", " (map toString childs)).
Proof.
  split; [|split].
  - intros f sep childs. apply transform_skip_empty.
  - apply toString_truthy.
  - intros childs. rewrite transform_skip_empty, skip_empty_toString.
    destruct (map toString childs) as [|r rs]; [reflexivity|].
    apply concat_separator.
Qed.

(** ** The getters of a link *)

Section LinkGetters.

Lemma has_hash_app x y : has_hash (x ++ y) = has_hash x || has_hash y.
Proof.
  induction x as [|c x IH]; simpl; [reflexivity|].
  now rewrite IH, orb_assoc.
Qed.

Lemma from_first_hash_app x y :
  has_hash x = false ->
  from_first_hash (x ++ "#" ++ y) = ("#" ++ y)%string.
Proof.
  unfold from_first_hash. induction x as [|c x IH]; simpl; [reflexivity|].
  destruct (is_hash c); simpl; [discriminate|exact IH].
Qed.

Lemma from_first_hash_none x : has_hash x = false -> from_first_hash x = "".
Proof.
  unfold from_first_hash. induction x as [|c x IH]; simpl; [reflexivity|].
  destruct (is_hash c); simpl; [discriminate|exact IH].
Qed.

Lemma strip_last_hash_app x y :
  has_hash y = false -> strip_last_hash (x ++ "#" ++ y) = x.
Proof.
  intros Hy. induction x as [|c x IH].
  - simpl. now rewrite Hy.
  - simpl. rewrite has_hash_app. simpl. rewrite orb_true_r, andb_false_r.
    simpl in IH. now rewrite IH.
Qed.

Lemma strip_last_hash_none x : has_hash x = false -> strip_last_hash x = x.
Proof.
  induction x as [|c x IH]; simpl; [reflexivity|].
  destruct (is_hash c); simpl; [discriminate|].
  intros H. now rewrite IH.
Qed.

End LinkGetters.

(** X15.  The anchor of a link is what follows the first [#] of its
    target, the page of an internal link is what precedes the last [#];
    either may be empty, and an empty page is reported as missing.  With
    one [#] the two parts make up the target again; with several, page and
    anchor overlap.  A target without [#] has no anchor and is its own
    page. *)
Theorem page_and_anchor :
  (forall x y childs,
     has_hash x = false ->
     anchor (Link (x ++ "#" ++ y) childs) = Some y)
  /\ (forall x y childs,
        has_hash y = false ->
        isExternal (Link (x ++ "#" ++ y) childs) = false ->
        page (Link (x ++ "#" ++ y) childs)
        = if truthy x then Some x else None)
  /\ (forall target childs,
        has_hash target = false ->
        anchor (Link target childs) = None
        /\ (isExternal (Link target childs) = false ->
            page (Link target childs)
            = if truthy target then Some target else None)).
Proof.
  split; [|split].
  - intros x y childs Hx. unfold anchor, anchor_of.
    rewrite from_first_hash_app by assumption. simpl truthy. cbv iota.
    now rewrite substr_from_drop.
  - intros x y childs Hy Hint. unfold page, page_of, isExternal in *.
    now rewrite Hint, strip_last_hash_app.
  - intros target childs Ht. simpl. unfold anchor_of, page_of. split.
    + now rewrite from_first_hash_none.
    + intros ->. now rewrite strip_last_hash_none.
Qed.

Lemma page_and_anchor_witness :
  has_hash "a" = false
  /\ has_hash "c" = false
  /\ isExternal (Link "a#b#c" []) = false
  /\ anchor (Link "a#b#c" []) = Some "b#c"
  /\ page (Link "a#b#c" []) = Some "a#b".
Proof.
  destruct page_and_anchor as (Ha & Hp & _).
  split; [reflexivity|]. split; [reflexivity|]. split; [reflexivity|].
  split.
  - exact (Ha "a" "b#c" [] eq_refl).
  - exact (Hp "a#b" "c" [] eq_refl eq_refl).
Defined.

Section ExternalTargets.

Lemma take_drop_while p str :
  (take_while p str ++ drop_while p str)%string = str.
Proof.
  induction str as [|c str IH]; simpl; [reflexivity|].
  destruct (p c); simpl; [now rewrite IH|reflexivity].
Qed.

Lemma take_while_all_lower str : all_lower (take_while is_lower str) = true.
Proof.
  induction str as [|c str IH]; simpl; [reflexivity|].
  destruct (is_lower c) eqn:E; simpl; [now rewrite E|reflexivity].
Qed.

Lemma prefix_split p str :
  prefix p str = true -> str = (p ++ drop (String.length p) str)%string.
Proof.
  revert str. induction p as [|c p IH]; intros [|d str] H; simpl in *;
    try reflexivity; try discriminate.
  destruct (ascii_dec c d) as [->|]; [|discriminate].
  now rewrite <- IH.
Qed.

Lemma prefix_append p str : prefix p (p ++ str) = true.
Proof.
  induction p as [|c p IH]; simpl; [now destruct str|].
  destruct (ascii_dec c c); [exact IH|congruence].
Qed.

Lemma drop_while_lower_scheme scheme rest :
  all_lower scheme = true ->
  drop_while is_lower (scheme ++ String ":" rest) = String ":" rest.
Proof.
  induction scheme as [|c scheme IH]; simpl; [reflexivity|].
  intros H. apply andb_prop in H as [H1 H2]. rewrite H1. now apply IH.
Qed.

End ExternalTargets.

(** X16.  A target is external exactly when it starts with one or more
    of the letters [a]..[z] directly followed by a colon and two slashes;
    a scheme with a capital letter, a digit or nothing before the colon
    makes the target internal. *)
Theorem external_iff_scheme :
  forall target childs,
    isExternal (Link target childs) = true <->
    exists scheme rest,
      scheme <> ""
      /\ all_lower scheme = true
      /\ target = (scheme ++ "://" ++ rest)%string.
Proof.
  intros target childs. unfold isExternal, isExternal_target. split.
  - destruct target as [|c str]; [discriminate|].
    intros H. apply andb_prop in H as [Hc Hp].
    exists (String c (take_while is_lower str)),
           (drop 3 (drop_while is_lower str)).
    split; [discriminate|]. split.
    + simpl. now rewrite Hc, take_while_all_lower.
    + apply prefix_split in Hp. simpl String.length in Hp.
      cbn [append]. f_equal.
      rewrite <- (take_drop_while is_lower str) at 1.
      now rewrite Hp at 1.
  - intros (scheme & rest & Hne & Hl & ->).
    destruct scheme as [|c scheme]; [congruence|].
    simpl in Hl. apply andb_prop in Hl as [Hc Hs].
    change (String c scheme ++ "://" ++ rest)%string
      with (String c (scheme ++ String ":" ("//" ++ rest)))%string.
    cbv beta iota. rewrite Hc, drop_while_lower_scheme by assumption.
    apply (prefix_append "://").
Qed.

(** X17.  The reference of an external link is its target, unchanged.
    The reference of an internal link is two characters longer than the
    target, three when the target starts with the sharp s, which is
    upper-cased to [SS]; it has no space behind its third character.
    The third character, which comes from the first of the target, may
    be a space.  The first character of the target is any code unit that
    [upper_in_model] accepts. *)
Theorem reference_shape :
  forall target childs,
    (isExternal (Link target childs) = true ->
       href (Link target childs) = target)
    /\ (isExternal (Link target childs) = false ->
          (target = "" -> href (Link target childs) = "./")
          /\ (forall c s, target = String c s -> upper_in_model c = true ->
                String.length (href (Link target childs))
                = String.length target
                  + (if nat_of_ascii c =? 223 then 3 else 2)
                /\ forall k, 3 <= k ->
                     get k (href (Link target childs)) <> Some " "%char)).
Proof.
  intros target childs. unfold isExternal, href, href_of. split.
  - intros ->. reflexivity.
  - intros ->. split; [intros ->; reflexivity|].
    intros c s -> _. rewrite internalLink_cons.
    assert (Hl : forall u, String.length (replace_spaces u) = String.length u)
      by (induction u; simpl; congruence).
    assert (Hs : forall k, get k (replace_spaces s) <> Some " "%char).
    { intros k. rewrite replace_spaces_get.
      destruct (get k s) as [d|]; [|discriminate]. simpl.
      destruct (Ascii.eqb d " ") eqn:E; [discriminate|].
      intros H; injection H as ->. discriminate. }
    destruct (upper_char_cases c) as [(d & -> & Hd)|[-> Hd]].
    + apply Nat.eqb_neq in Hd. rewrite Hd. split.
      * simpl. rewrite Hl. lia.
      * intros [|[|[|k]]] Hk; try lia. simpl. apply Hs.
    + rewrite Hd. split.
      * simpl. rewrite Hl. lia.
      * intros [|[|[|[|k]]]] Hk; try lia; simpl; [discriminate|apply Hs].
Qed.

Lemma reference_shape_witness :
  isExternal (Link "my page#a b" []) = false
  /\ String.length (href (Link "my page#a b" [])) = 13
  /\ isExternal (Link "https://a b" []) = true
  /\ href (Link "https://a b" []) = "https://a b".
Proof.
  destruct (reference_shape "my page#a b" []) as [_ H1].
  destruct (reference_shape "https://a b" []) as [H2 _].
  split; [reflexivity|].
  split; [exact (proj1 (proj2 (H1 eq_refl) "m"%char "y page#a b"
                          eq_refl eq_refl))|].
  split; [reflexivity|]. exact (H2 eq_refl).
Defined.

(* ================================================================== *)
(** ** The parser adds no text *)

Section ParserText.

Lemma length_append (a b : string) :
  String.length (a ++ b) = String.length a + String.length b.
Proof. induction a as [|c a IH]; simpl; congruence. Qed.

Lemma weight_cons x tokens :
  weight (x :: tokens) = String.length (text x) + weight tokens.
Proof. unfold weight. simpl. apply length_append. Qed.

Lemma texts_length_app l1 l2 :
  String.length (join (map toText (l1 ++ l2)))
  = String.length (join (map toText l1))
    + String.length (join (map toText l2)).
Proof. now rewrite texts_app, length_append. Qed.

Lemma texts_one n : join (map toText [n]) = toText n.
Proof. simpl. apply append_empty_r. Qed.

Lemma link_result_length pipe pre post :
  String.length (join (map toText (link_result pipe pre post)))
  <= String.length (join (map toText pre))
     + String.length (join (map toText post)).
Proof.
  unfold link_result.
  destruct pipe, post as [|x post], pre as [|y pre];
    cbn [andb negb List.length Nat.eqb];
    rewrite ?texts_one; cbn [toText]; rewrite ?transform_join;
    try lia; simpl; lia.
Qed.

Lemma until_result_length token close wrap childs :
  parser_for token = parser_until close wrap ->
  carries_lexeme token ->
  String.length (join (map toText (until_result wrap childs)))
  <= String.length (text token) + String.length (join (map toText childs)).
Proof.
  intros Hp Hc. unfold until_result.
  destruct childs as [|c cs]; [simpl; lia|].
  cbn [List.length Nat.eqb]. unfold carries_lexeme in Hc.
  unfold parser_for, parsers in Hp.
  destruct (type token) eqn:T; inversion Hp; subst;
    rewrite texts_one; cbn [toText]; rewrite transform_join;
    try lia;
    try (rewrite texts_one; cbn [toText]; rewrite transform_join; lia).
  rewrite Hc by discriminate.
  change (Text "'" :: (c :: cs) ++ [Text "'"])
    with ([Text "'"] ++ (c :: cs) ++ [Text "'"]).
  rewrite texts_length_app, texts_length_app. simpl. lia.
Qed.

Lemma parser_length fuel :
  (forall token tokens nodes rest,
     carries_lexeme token -> Forall carries_lexeme tokens ->
     parseToken fuel token tokens = Some (nodes, rest) ->
     String.length (join (map toText nodes)) + weight rest
     <= String.length (text token) + weight tokens
     /\ Forall carries_lexeme rest)
  /\ (forall close childs tokens childs' rest,
        Forall carries_lexeme tokens ->
        until_loop fuel close childs tokens = Some (childs', rest) ->
        String.length (join (map toText childs')) + weight rest
        <= String.length (join (map toText childs)) + weight tokens
        /\ Forall carries_lexeme rest)
  /\ (forall pipe pre post tokens pipe' pre' post' rest,
        Forall carries_lexeme tokens ->
        link_loop fuel pipe pre post tokens = Some (pipe', pre', post', rest) ->
        String.length (join (map toText pre'))
        + String.length (join (map toText post')) + weight rest
        <= String.length (join (map toText pre))
           + String.length (join (map toText post)) + weight tokens
        /\ Forall carries_lexeme rest).
Proof.
  induction fuel as [|fuel (IHp & IHu & IHl)].
  - repeat split; discriminate.
  - split; [|split].
    + intros token tokens nodes rest Hc Hts. rewrite parseToken_S.
      destruct (parser_for token) as [| |close wrap] eqn:P.
      * intros H; injection H as <- <-. simpl.
        rewrite append_empty_r. auto.
      * destruct (link_loop fuel false [] [] tokens)
          as [[[[p pre] post] r]|] eqn:E; try discriminate.
        intros H; injection H as <- <-.
        destruct (IHl false [] [] tokens p pre post r Hts E) as (H1 & H2).
        split; [|assumption].
        pose proof (link_result_length p pre post). simpl in H1. lia.
      * destruct (until_loop fuel close [] tokens) as [[cs r]|] eqn:E;
          try discriminate.
        intros H; injection H as <- <-.
        destruct (IHu close [] tokens cs r Hts E) as (H1 & H2).
        split; [|assumption].
        pose proof (until_result_length token close wrap cs P Hc).
        simpl in H1. lia.
    + intros close childs tokens childs' rest Hts. rewrite until_loop_S.
      destruct tokens as [|x r].
      * intros H; injection H as <- <-. auto.
      * inversion Hts as [|? ? Hx Hr]; subst. rewrite weight_cons.
        destruct (TokenType_eqb (type x) close).
        { intros H; injection H as <- <-. split; [lia|assumption]. }
        destruct (parseToken fuel x r) as [[parsed r']|] eqn:E;
          try discriminate.
        destruct (IHp _ _ _ _ Hx Hr E) as (H1 & H2). intros L.
        destruct (IHu _ _ _ _ _ H2 L) as (H3 & H4).
        split; [|assumption]. rewrite texts_length_app in H3. lia.
    + intros pipe pre post tokens pipe' pre' post' rest Hts.
      rewrite link_loop_S. destruct tokens as [|x r].
      * intros H; injection H as <- <- <- <-. auto.
      * inversion Hts as [|? ? Hx Hr]; subst. rewrite weight_cons.
        destruct (TokenType_eqb (type x) TPipe).
        { intros L. destruct (IHl _ _ _ _ _ _ _ _ Hr L) as (H3 & H4).
          split; [lia|assumption]. }
        destruct (TokenType_eqb (type x) TLinkClose).
        { intros H; injection H as <- <- <- <-. split; [lia|assumption]. }
        destruct (parseToken fuel x r) as [[parsed r']|] eqn:E;
          try discriminate.
        destruct (IHp _ _ _ _ Hx Hr E) as (H1 & H2).
        destruct pipe; intros L;
          destruct (IHl _ _ _ _ _ _ _ _ H2 L) as (H3 & H4);
          (split; [|assumption]); rewrite texts_length_app in H3; lia.
Qed.

Lemma parse_loop_length fuel : forall out tokens out',
  Forall carries_lexeme tokens ->
  parse_loop fuel out tokens = Some out' ->
  String.length (join (map toText out'))
  <= String.length (join (map toText out)) + weight tokens.
Proof.
  induction fuel as [|fuel IH]; intros out tokens out' Hts;
    [discriminate|]. rewrite parse_loop_S.
  destruct tokens as [|x r].
  - intros H; injection H as <-. lia.
  - inversion Hts as [|? ? Hx Hr]; subst. rewrite weight_cons.
    destruct (parseToken fuel x r) as [[parsed r']|] eqn:E; try discriminate.
    destruct (proj1 (parser_length fuel) _ _ _ _ Hx Hr E) as (H1 & H2).
    intros L. apply IH in L; [|assumption].
    rewrite texts_length_app in L. lia.
Qed.

Lemma token_ok_carries input tok : token_ok input tok -> carries_lexeme tok.
Proof.
  unfold token_ok, carries_lexeme. intros H Ht.
  destruct (type tok); try congruence; simpl in H; apply H.
Qed.

Lemma compile_scan input :
  exists tokens,
    compile input = Some tokens
    /\ weight tokens = String.length input
    /\ Forall carries_lexeme tokens.
Proof.
  destruct (compile_scan_ok input) as (tokens & E & Ht & Hok & _).
  exists tokens. split; [exact E|]. split.
  - unfold weight.
    rewrite (tiles_join _ _ _ _ Ht), Nat.sub_0_r. f_equal. apply take_all.
  - eapply Forall_impl; [apply token_ok_carries|exact Hok].
Qed.

End ParserText.

(** X18.  The parser adds no text: for every input, the text of the tree
    parsed from its scan has at most as many characters as the input.
    The two apostrophes that the rule for a run of four writes around the
    content are fewer than the four of the run it consumed. *)
Theorem parse_adds_no_text :
  forall input,
  exists tree,
    bind (compile input) parse = Some tree
    /\ String.length (toText tree) <= String.length input.
Proof.
  intros input. destruct (compile_scan input) as (tokens & E & Hw & Hc).
  rewrite E. simpl. unfold parse, parse_fuel.
  destruct (parse_loop_total (List.length tokens) tokens []
              (2 * List.length tokens + 2) (le_n _)) as [out L]; [lia|].
  rewrite L. exists (Sentence out). split; [reflexivity|].
  apply parse_loop_length in L; [|exact Hc].
  simpl in *. rewrite transform_join. lia.
Qed.

(* ================================================================== *)
(** ** The scan is determined by its properties *)

Section ScannerUnique.

Lemma TokenType_eqb_eq a b : TokenType_eqb a b = true -> a = b.
Proof. destruct a, b; simpl; congruence. Qed.

Lemma adjacent_text_tokens_tail x l :
  adjacent_text_tokens (x :: l) = false -> adjacent_text_tokens l = false.
Proof.
  destruct l as [|y l]; [reflexivity|].
  cbn [adjacent_text_tokens]. intros H. now apply orb_false_elim in H.
Qed.

(** Behind a literal-text token that stops before [stop] there is a
    delimiter. *)
Lemma text_then_delimiter input start stop x l :
  tiles input start stop (x :: l) ->
  Forall (token_ok input) (x :: l) ->
  adjacent_text_tokens (x :: l) = false ->
  is_text_token x = true ->
  start + String.length (text x) < stop ->
  match_here (drop (start + String.length (text x)) input) <> None.
Proof.
  intros (Hp & Hn & Hs & Ht) Hok Hadj Hx Hlt.
  destruct l as [|y l]; simpl in Ht; [lia|].
  destruct Ht as (Hpy & _). inversion Hok as [|? ? _ Hl]; subst.
  inversion Hl as [|? ? Hy _]; subst.
  cbn [adjacent_text_tokens] in Hadj. apply orb_false_elim in Hadj as [Hadj _].
  rewrite Hx in Hadj. simpl in Hadj. unfold token_ok in Hy.
  unfold is_text_token in Hadj. rewrite Hadj in Hy.
  destruct Hy as [_ Hy]. rewrite <- Hpy, Hy. discriminate.
Qed.

Lemma tokens_unique input stop : forall l1 l2 start,
  tiles input start stop l1 -> tiles input start stop l2 ->
  Forall (token_ok input) l1 -> Forall (token_ok input) l2 ->
  adjacent_text_tokens l1 = false -> adjacent_text_tokens l2 = false ->
  l1 = l2.
Proof.
  induction l1 as [|x l1 IH]; intros [|y l2] start T1 T2 O1 O2 A1 A2.
  - reflexivity.
  - simpl in T1. destruct T2 as (_ & Hn & _ & T2). apply tiles_le in T2.
    subst. destruct (text y); [congruence|simpl in T2; lia].
  - simpl in T2. destruct T1 as (_ & Hn & _ & T1). apply tiles_le in T1.
    subst. destruct (text x); [congruence|simpl in T1; lia].
  - pose proof T1 as (Px & Nx & Sx & T1').
    pose proof T2 as (Py & Ny & Sy & T2').
    pose proof (tiles_le _ _ _ _ T1') as L1.
    pose proof (tiles_le _ _ _ _ T2') as L2.
    pose proof (Forall_inv O1) as Ox. pose proof (Forall_inv O2) as Oy.
    assert (Lx : 0 < String.length (text x))
      by (destruct (text x); [congruence|simpl; lia]).
    assert (Ly : 0 < String.length (text y))
      by (destruct (text y); [congruence|simpl; lia]).
    assert (E : x = y).
    { unfold token_ok in Ox, Oy.
      destruct (TokenType_eqb (type x) TText) eqn:Ex;
        destruct (TokenType_eqb (type y) TText) eqn:Ey.
      - apply TokenType_eqb_eq in Ex as Tx. apply TokenType_eqb_eq in Ey as Ty.
        assert (String.length (text x) = String.length (text y)) as El.
        { destruct (Nat.lt_trichotomy (String.length (text x))
                      (String.length (text y))) as [Hlt|[Heq|Hgt]];
            [|exact Heq|].
          - exfalso.
            apply (text_then_delimiter input start stop x l1); auto; [lia|].
            rewrite <- Py. now apply Oy.
          - exfalso.
            apply (text_then_delimiter input start stop y l2); auto; [lia|].
            rewrite <- Px. now apply Ox. }
        destruct x as [tx sx px], y as [ty sy py]. simpl in *. subst.
        f_equal. congruence.
      - exfalso. destruct Oy as [_ Oy]. specialize (Ox 0 Lx).
        rewrite Px, Nat.add_0_r in Ox. rewrite Py in Oy. congruence.
      - exfalso. destruct Ox as [_ Ox]. specialize (Oy 0 Ly).
        rewrite Py, Nat.add_0_r in Oy. rewrite Px in Ox. congruence.
      - destruct Ox as [Hx Ox], Oy as [Hy Oy].
        rewrite Px in Ox. rewrite Py in Oy. rewrite Ox in Oy.
        injection Oy as Ht.
        destruct x as [tx sx px], y as [ty sy py]. simpl in *. subst.
        reflexivity. }
    subst y. f_equal.
    apply (IH l2 (start + String.length (text x))); auto.
    + now inversion O1.
    + now inversion O2.
    + now apply adjacent_text_tokens_tail in A1.
    + now apply adjacent_text_tokens_tail in A2.
Qed.

End ScannerUnique.

(** X19.  The scan of an input is the only list of tokens that covers
    the input piece by piece, has a delimiter token exactly where the
    regular expression matches first, has no match starting inside a
    literal text and has no two literal texts in a row: a list with these
    properties is what [compile] returns. *)
Theorem compile_is_the_only_scan :
  forall input tokens,
    tiles input 0 (String.length input) tokens ->
    Forall (token_ok input) tokens ->
    adjacent_text_tokens tokens = false ->
    compile input = Some tokens.
Proof.
  intros input tokens Ht Hok Hadj.
  destruct (compile_scan_ok input) as (scan & E & Hs & Hsok & Hsadj).
  rewrite E. f_equal.
  now apply (tokens_unique input (String.length input) scan tokens 0).
Qed.

Lemma compile_is_the_only_scan_witness :
  compile "a''b"
  = Some [ {| type := TText; text := "a"; pos := 0 |};
           {| type := TQuote2; text := "''"; pos := 1 |};
           {| type := TText; text := "b"; pos := 3 |} ].
Proof.
  apply compile_is_the_only_scan.
  - simpl. repeat split; discriminate.
  - repeat constructor.
    + intros [|d] H; [reflexivity|simpl in H; lia].
    + intros [|d] H; [reflexivity|simpl in H; lia].
  - reflexivity.
Defined.

(* ================================================================== *)
(** ** From tokens to their scan *)

Section ScannerRoundTrip.

Lemma match_here_clean c str :
  is_markup_char c = false -> match_here (String c str) = None.
Proof.
  unfold is_markup_char. intros H.
  repeat (apply orb_false_elim in H as [H ?]).
  repeat match goal with
         | E : Ascii.eqb _ _ = false |- _ => apply Ascii.eqb_neq in E
         end.
  unfold match_here, lexical. cbn [match_alternatives lexeme prefix].
  repeat (destruct (ascii_dec _ c); [congruence|]). reflexivity.
Qed.

Lemma match_here_delimiter k str :
  k <> TText ->
  (is_quote_run k = true -> starts_with_quote str = false) ->
  match_here (lexeme k ++ str) = Some k.
Proof.
  intros Hk Hq. destruct str as [|c str].
  - destruct k; try congruence; reflexivity.
  - destruct k; try congruence; try (vm_compute; reflexivity);
      specialize (Hq eq_refl); simpl in Hq; apply Ascii.eqb_neq in Hq;
      unfold match_here, lexical;
      cbn [match_alternatives lexeme prefix append];
      repeat (destruct (ascii_dec _ c); [congruence|]);
      vm_compute; reflexivity.
Qed.

Lemma drop_app_length pre str : forall d,
  drop (String.length pre + d) (pre ++ str) = drop d str.
Proof. induction pre as [|c pre IH]; intros d; simpl; auto. Qed.

Lemma clean_drop rest : forall str d,
  clean str = true -> d < String.length str ->
  exists c tail,
    drop d (str ++ rest) = String c tail /\ is_markup_char c = false.
Proof.
  induction str as [|c str IH]; intros d Hc Hd; simpl in Hd; [lia|].
  simpl in Hc. apply andb_prop in Hc as [Hc1 Hc2].
  destruct d as [|d].
  - exists c, (str ++ rest)%string. split; [reflexivity|].
    now destruct (is_markup_char c).
  - simpl. apply IH; [assumption|lia].
Qed.

Lemma substr_app_mid pre str rest :
  substr (pre ++ str ++ rest) (String.length pre) (String.length str) = str.
Proof.
  unfold substr. rewrite substring_drop.
  rewrite <- (Nat.add_0_r (String.length pre)), drop_app_length. simpl.
  apply prefix_take. clear pre.
  induction str as [|c str IH]; simpl; [now destruct rest|].
  destruct (ascii_dec c c); [exact IH|congruence].
Qed.

Lemma canonical_scan : forall tokens pre,
  canonical (String.length pre) tokens ->
  let input := (pre ++ join (map text tokens))%string in
  tiles input (String.length pre) (String.length input) tokens
  /\ Forall (token_ok input) tokens
  /\ adjacent_text_tokens tokens = false.
Proof.
  induction tokens as [|tok rest IH]; intros pre Hc; cbv zeta.
  - simpl. rewrite append_empty_r. auto.
  - destruct Hc as (Hp & Hk & Hc).
    rewrite <- length_append in Hc. apply IH in Hc. cbv zeta in Hc.
    rewrite append_assoc in Hc. destruct Hc as (Ht & Hok & Hadj).
    change (join (map text (tok :: rest)))
      with (text tok ++ join (map text rest))%string.
    set (input := (pre ++ text tok ++ join (map text rest))%string) in *.
    unfold is_text_token in Hk.
    destruct (TokenType_eqb (type tok) TText) eqn:Tk.
    + destruct Hk as (Hne & Hcl & Hnext). split; [|split].
      * simpl. repeat split; auto.
        -- apply substr_app_mid.
        -- now rewrite length_append in Ht.
      * constructor; [|exact Hok]. unfold token_ok. rewrite Tk.
        intros d Hd. subst input. rewrite Hp, drop_app_length.
        destruct (clean_drop (join (map text rest)) (text tok) d Hcl Hd)
          as (c & tail & -> & Hm).
        now apply match_here_clean.
      * destruct rest as [|next rest]; [reflexivity|].
        change (adjacent_text_tokens (tok :: next :: rest))
          with ((is_text_token tok && is_text_token next)
                || adjacent_text_tokens (next :: rest)).
        unfold is_text_token. rewrite Hnext, Hadj.
        now rewrite andb_false_r.
    + destruct Hk as (Hl & Hq). split; [|split].
      * simpl. repeat split; auto.
        -- rewrite Hl. now destruct (type tok).
        -- apply substr_app_mid.
        -- now rewrite length_append in Ht.
      * constructor; [|exact Hok]. unfold token_ok. rewrite Tk.
        split; [exact Hl|]. subst input.
        rewrite Hp, <- (Nat.add_0_r (String.length pre)), drop_app_length.
        simpl. rewrite Hl. apply match_here_delimiter; [|exact Hq].
        intros E. now rewrite E in Tk.
      * destruct rest as [|next rest]; [reflexivity|].
        change (adjacent_text_tokens (tok :: next :: rest))
          with ((is_text_token tok && is_text_token next)
                || adjacent_text_tokens (next :: rest)).
        unfold is_text_token. now rewrite Tk, Hadj.
Qed.

End ScannerRoundTrip.

(** X20.  Scanning gives back the tokens whose texts were put together:
    when a list of tokens is laid out as [canonical] says (literal texts
    without markup characters, not empty and never two in a row, each
    delimiter with the string of its type, no apostrophe behind a quote
    run, positions counted from 0), the scan of the joined texts is that
    list. *)
Theorem scan_of_joined_tokens :
  forall tokens,
    canonical 0 tokens ->
    compile (join (map text tokens)) = Some tokens.
Proof.
  intros tokens Hc.
  destruct (canonical_scan tokens "" Hc) as (Ht & Hok & Hadj).
  simpl in Ht, Hok.
  destruct (compile_scan_ok (join (map text tokens)))
    as (scan & E & Hs & Hsok & Hsadj).
  rewrite E. f_equal.
  now apply (tokens_unique (join (map text tokens))
               (String.length (join (map text tokens))) scan tokens 0).
Qed.

Lemma scan_of_joined_tokens_witness :
  compile "[[a|b]]''c''"
  = Some [ {| type := TLinkOpen; text := "[["; pos := 0 |};
           {| type := TText; text := "a"; pos := 2 |};
           {| type := TPipe; text := "|"; pos := 3 |};
           {| type := TText; text := "b"; pos := 4 |};
           {| type := TLinkClose; text := "]]"; pos := 5 |};
           {| type := TQuote2; text := "''"; pos := 7 |};
           {| type := TText; text := "c"; pos := 9 |};
           {| type := TQuote2; text := "''"; pos := 10 |} ].
Proof.
  apply (scan_of_joined_tokens
           [ {| type := TLinkOpen; text := "[["; pos := 0 |};
             {| type := TText; text := "a"; pos := 2 |};
             {| type := TPipe; text := "|"; pos := 3 |};
             {| type := TText; text := "b"; pos := 4 |};
             {| type := TLinkClose; text := "]]"; pos := 5 |};
             {| type := TQuote2; text := "''"; pos := 7 |};
             {| type := TText; text := "c"; pos := 9 |};
             {| type := TQuote2; text := "''"; pos := 10 |} ]).
  simpl. repeat split; try reflexivity; try discriminate.
Defined.

(* ================================================================== *)
(** ** Markup around a text *)

Section MarkupAroundText.

Lemma compile_canonical tokens :
  canonical 0 tokens -> compile (join (map text tokens)) = Some tokens.
Proof.
  intros Hc. destruct (canonical_scan tokens "" Hc) as (Ht & Hok & Hadj).
  simpl in Ht, Hok.
  destruct (compile_scan_ok (join (map text tokens)))
    as (scan & E & Hs & Hsok & Hsadj).
  rewrite E. f_equal.
  now apply (tokens_unique (join (map text tokens))
               (String.length (join (map text tokens))) scan tokens 0).
Qed.

Lemma clean_no_quote x rest :
  x <> "" -> clean x = true -> starts_with_quote (x ++ rest) = false.
Proof.
  destruct x as [|c x]; [congruence|]. simpl. intros _ H.
  apply andb_prop in H as [H _]. unfold is_markup_char in H.
  now destruct (Ascii.eqb c "'").
Qed.

(** The scan of a text between two delimiters. *)
Lemma compile_delimited k1 x k2 :
  k1 <> TText -> k2 <> TText -> x <> "" -> clean x = true ->
  compile (lexeme k1 ++ x ++ lexeme k2)
  = Some [ {| type := k1; text := lexeme k1; pos := 0 |};
           {| type := TText; text := x; pos := String.length (lexeme k1) |};
           {| type := k2; text := lexeme k2;
              pos := String.length (lexeme k1) + String.length x |} ].
Proof.
  intros H1 H2 Hx Hc.
  pose proof (compile_canonical
           [ {| type := k1; text := lexeme k1; pos := 0 |};
             {| type := TText; text := x; pos := String.length (lexeme k1) |};
             {| type := k2; text := lexeme k2;
                pos := String.length (lexeme k1) + String.length x |} ])
    as H.
  cbn [map join fold_right text] in H. rewrite append_empty_r in H.
  apply H. clear H.
  unfold canonical, is_text_token. cbn [type text pos map join fold_right].
  destruct k1; try congruence; destruct k2; try congruence;
    cbn [TokenType_eqb]; repeat split; auto;
    intros _; now apply clean_no_quote.
Qed.

(** The scan of a link with a target and a text. *)
Lemma compile_piped x y :
  x <> "" -> clean x = true -> y <> "" -> clean y = true ->
  compile ("[[" ++ x ++ "|" ++ y ++ "]]")
  = Some [ {| type := TLinkOpen; text := "[["; pos := 0 |};
           {| type := TText; text := x; pos := 2 |};
           {| type := TPipe; text := "|"; pos := 2 + String.length x |};
           {| type := TText; text := y; pos := 2 + String.length x + 1 |};
           {| type := TLinkClose; text := "]]";
              pos := 2 + String.length x + 1 + String.length y |} ].
Proof.
  intros Hx Hcx Hy Hcy.
  pose proof (compile_canonical
           [ {| type := TLinkOpen; text := "[["; pos := 0 |};
             {| type := TText; text := x; pos := 2 |};
             {| type := TPipe; text := "|"; pos := 2 + String.length x |};
             {| type := TText; text := y; pos := 2 + String.length x + 1 |};
             {| type := TLinkClose; text := "]]";
                pos := 2 + String.length x + 1 + String.length y |} ])
    as H.
  cbn [map join fold_right text] in H. apply H. clear H.
  unfold canonical, is_text_token. cbn [type text pos map join fold_right].
  cbn [TokenType_eqb]. repeat split; auto; discriminate.
Qed.

End MarkupAroundText.

(** X21.  Markup around a text without markup characters: for a text
    that is not empty, two, three, four and five apostrophes on both
    sides, the tags [<i>] and [<b>] and the brackets of a link give, after
    scanning, parsing and optimizing, the one node the markup stands for,
    holding the text; four apostrophes give a bold that keeps one
    apostrophe on each side, a link without pipe has the text for target
    and for child, a link with a pipe the text before it for target and
    the text behind it for child. *)
Theorem markup_around_text :
  forall x,
    x <> "" -> clean x = true ->
    run ("''" ++ x ++ "''") = Some (Sentence [Italic [Text x]])
    /\ run ("'''" ++ x ++ "'''") = Some (Sentence [Bold [Text x]])
    /\ run ("''''" ++ x ++ "''''")
       = Some (Sentence [Bold [Text ("'" ++ x ++ "'")]])
    /\ run ("'''''" ++ x ++ "'''''")
       = Some (Sentence [Italic [Bold [Text x]]])
    /\ run ("<i>" ++ x ++ "</i>") = Some (Sentence [Italic [Text x]])
    /\ run ("<b>" ++ x ++ "</b>") = Some (Sentence [Bold [Text x]])
    /\ run ("[[" ++ x ++ "]]") = Some (Sentence [Link x [Text x]])
    /\ (forall y,
          y <> "" -> clean y = true ->
          run ("[[" ++ x ++ "|" ++ y ++ "]]")
          = Some (Sentence [Link x [Text y]])).
Proof.
  intros x Hx Hc.
  assert (D : forall k1 k2, k1 <> TText -> k2 <> TText ->
            run (lexeme k1 ++ x ++ lexeme k2)
            = bind (parse
                      [ {| type := k1; text := lexeme k1; pos := 0 |};
                        {| type := TText; text := x;
                           pos := String.length (lexeme k1) |};
                        {| type := k2; text := lexeme k2;
                           pos := String.length (lexeme k1)
                                  + String.length x |} ])
                optimize_default).
  { intros k1 k2 H1 H2. unfold run.
    now rewrite (compile_delimited k1 x k2 H1 H2 Hx Hc). }
  repeat split.
  - apply (D TQuote2 TQuote2); discriminate.
  - apply (D TQuote3 TQuote3); discriminate.
  - etransitivity; [apply (D TQuote4 TQuote4); discriminate|]. reflexivity.
  - apply (D TQuote5 TQuote5); discriminate.
  - apply (D TItalicOpen TItalicClose); discriminate.
  - apply (D TBoldOpen TBoldClose); discriminate.
  - etransitivity; [apply (D TLinkOpen TLinkClose); discriminate|].
    cbn. now rewrite append_empty_r.
  - intros y Hy Hcy. unfold run.
    rewrite (compile_piped x y Hx Hc Hy Hcy). cbn.
    now rewrite append_empty_r.
Qed.

Lemma markup_around_text_witness :
  run "''Jupiter''" = Some (Sentence [Italic [Text "Jupiter"]])
  /\ run "[[Jupiter|the planet]]"
     = Some (Sentence [Link "Jupiter" [Text "the planet"]]).
Proof.
  destruct (markup_around_text "Jupiter") as (H1 & _ & _ & _ & _ & _ & _ & H2);
    [discriminate|reflexivity|].
  split; [exact H1|]. apply (H2 "the planet"); [discriminate|reflexivity].
Defined.
